(** * squirc: superellipse path generation (src/mod.ts)

    A shallow embedding of [mod.ts] and the properties of its path
    generator.

    Numbers.  A JavaScript number is modelled by [num]: the three IEEE
    special values NaN, +Infinity, -Infinity, and the finite values, which
    are taken to be exact real numbers.  Arithmetic on the special values
    follows ECMA-262 (Number::add, Number::multiply, Number::divide,
    Number::remainder, Number::exponentiate, the relational operators,
    Math.tan and friends); arithmetic on finite values is exact, so rounding
    is idealised away and [Math.PI] is the real number pi.  There is one
    zero, which behaves as +0.

    Two consequences of exact arithmetic go beyond rounding.  [Math.tan] is
    infinite at [Math.PI / 2] here, whereas the double nearest to pi/2 lies
    below it and its tangent is finite (about 1.6e16).  And a power of
    finite numbers is finite here, whereas [Math.pow] overflows to Infinity
    and underflows to 0.  The numbered statements are kept off the inputs
    where either matters: they do not rest on the value of the anisotropic
    cosine at an odd multiple of pi/2, and what they say of the isotropic
    functions stays true when a power has overflowed.  The lemmas that do
    evaluate the tangent at pi/2 ([ntan_half_pi] and those built on it)
    describe exact arithmetic only.

    Text.  [Number.prototype.toString] is not modelled.  A path string is a
    list of [piece]s: literal text, and numbers that are still to be printed.
    [render] turns such a list into a string once a printer is chosen.

    Recursion.  The two cosine evaluators call themselves; they take the
    depth of the call stack they may use as [fuel] and return [None] when
    it is exhausted.

    Loops.  The accuracy is an integer, passed to every function that reads
    the module variable, and loop counters are integers; the loop
    conditions and [i * step] are computed on numbers.  A loop is the list
    of the counter values at which its body runs; the points its body
    appends are kept as a list before they are printed. *)

From Stdlib Require Import Reals Lra Lia ZArith List String Bool.
Import ListNotations.

Local Open Scope R_scope.

(** ** Numbers *)

Inductive num : Type :=
| NaN
| PInf
| NInf
| Fin (r : R).

Definition Rltb (x y : R) : bool := if Rlt_dec x y then true else false.
Definition Reqb (x y : R) : bool := if Req_dec_T x y then true else false.

Definition of_Z (z : Z) : num := Fin (IZR z).

(** Unary minus. *)
Definition nneg (x : num) : num :=
  match x with
  | NaN => NaN
  | PInf => NInf
  | NInf => PInf
  | Fin r => Fin (- r)
  end.

(** [x + y]. *)
Definition nadd (x y : num) : num :=
  match x, y with
  | NaN, _ | _, NaN => NaN
  | PInf, NInf | NInf, PInf => NaN
  | PInf, _ | _, PInf => PInf
  | NInf, _ | _, NInf => NInf
  | Fin a, Fin b => Fin (a + b)
  end.

(** [x - y]. *)
Definition nsub (x y : num) : num := nadd x (nneg y).

(** The infinity of the given sign ([true] is negative). *)
Definition inf_of (negative : bool) : num := if negative then NInf else PInf.

(** [x * y]. *)
Definition nmul (x y : num) : num :=
  match x, y with
  | NaN, _ | _, NaN => NaN
  | Fin a, Fin b => Fin (a * b)
  | Fin a, PInf | PInf, Fin a =>
      if Reqb a 0 then NaN else inf_of (Rltb a 0)
  | Fin a, NInf | NInf, Fin a =>
      if Reqb a 0 then NaN else inf_of (negb (Rltb a 0))
  | PInf, PInf | NInf, NInf => PInf
  | PInf, NInf | NInf, PInf => NInf
  end.

(** [x / y]; the zero divisor is +0. *)
Definition ndiv (x y : num) : num :=
  match x, y with
  | NaN, _ | _, NaN => NaN
  | Fin a, Fin b =>
      if Reqb b 0
      then (if Reqb a 0 then NaN else inf_of (Rltb a 0))
      else Fin (a / b)
  | Fin _, PInf | Fin _, NInf => Fin 0
  | PInf, Fin b => inf_of (Rltb b 0)
  | NInf, Fin b => inf_of (negb (Rltb b 0))
  | _, _ => NaN
  end.

(** [x < y]. *)
Definition nlt (x y : num) : bool :=
  match x, y with
  | NaN, _ | _, NaN => false
  | NInf, NInf => false
  | NInf, _ => true
  | _, NInf => false
  | PInf, _ => false
  | _, PInf => true
  | Fin a, Fin b => Rltb a b
  end.

(** [x > y]. *)
Definition ngt (x y : num) : bool := nlt y x.

(** [x >= y]. *)
Definition nge (x y : num) : bool :=
  match x, y with
  | NaN, _ | _, NaN => false
  | _, _ => negb (nlt x y)
  end.

(** [x === y] on numbers. *)
Definition neq (x y : num) : bool :=
  match x, y with
  | PInf, PInf | NInf, NInf => true
  | Fin a, Fin b => Reqb a b
  | _, _ => false
  end.

Definition isNaN (x : num) : bool :=
  match x with NaN => true | _ => false end.

Definition isFinite (x : num) : bool :=
  match x with Fin _ => true | _ => false end.

(** Rounding towards zero, the quotient of [%]. *)
Definition Rtrunc (r : R) : Z :=
  if Rltb r 0 then (- Int_part (- r))%Z else Int_part r.

(** [x % y] (Number::remainder). *)
Definition nmod (x y : num) : num :=
  match x, y with
  | NaN, _ | _, NaN => NaN
  | PInf, _ | NInf, _ => NaN
  | Fin a, PInf | Fin a, NInf => Fin a
  | Fin a, Fin b =>
      if Reqb b 0 then NaN else Fin (a - b * IZR (Rtrunc (a / b)))
  end.

(** [Math.floor], as an integer; only used on finite quotients. *)
Definition floorZ (x : num) : Z :=
  match x with Fin r => Int_part r | _ => 0%Z end.

(** Is the real an integer, and is that integer odd? *)
Definition Ris_int (r : R) : bool := Reqb (IZR (Int_part r)) r.
Definition Ris_odd (r : R) : bool := Ris_int r && Z.odd (Int_part r).

(** [Math.pow base exponent] (Number::exponentiate). *)
Definition npow (base exponent : num) : num :=
  match exponent with
  | NaN => NaN
  | Fin e =>
      if Reqb e 0 then Fin 1 else
      match base with
      | NaN => NaN
      | PInf => if Rltb 0 e then PInf else Fin 0
      | NInf =>
          if Rltb 0 e
          then (if Ris_odd e then NInf else PInf)
          else Fin 0
      | Fin b =>
          if Reqb b 0 then (if Rltb 0 e then Fin 0 else PInf)
          else if Rltb 0 b then Fin (Rpower b e)
          else if Ris_int e
               then Fin (if Z.odd (Int_part e)
                         then - Rpower (- b) e else Rpower (- b) e)
               else NaN
      end
  | PInf =>
      match base with
      | NaN => NaN
      | PInf | NInf => PInf
      | Fin b =>
          if Rltb 1 (Rabs b) then PInf
          else if Reqb (Rabs b) 1 then NaN else Fin 0
      end
  | NInf =>
      match base with
      | NaN => NaN
      | PInf | NInf => Fin 0
      | Fin b =>
          if Rltb 1 (Rabs b) then Fin 0
          else if Reqb (Rabs b) 1 then NaN else PInf
      end
  end.

(** [Math.cos], [Math.sin], [Math.tan], [Math.abs], [Math.PI]. *)
Definition ncos (x : num) : num :=
  match x with Fin a => Fin (cos a) | _ => NaN end.
Definition nsin (x : num) : num :=
  match x with Fin a => Fin (sin a) | _ => NaN end.
Definition ntan (x : num) : num :=
  match x with Fin a => ndiv (Fin (sin a)) (Fin (cos a)) | _ => NaN end.
Definition nabs (x : num) : num :=
  match x with
  | NaN => NaN
  | PInf | NInf => PInf
  | Fin a => Fin (Rabs a)
  end.
Definition Math_PI : num := Fin PI.

Declare Scope num_scope.
Delimit Scope num_scope with num.
Bind Scope num_scope with num.
Infix "+" := nadd : num_scope.
Infix "-" := nsub : num_scope.
Infix "*" := nmul : num_scope.
Infix "/" := ndiv : num_scope.
Notation "- x" := (nneg x) : num_scope.

Local Open Scope string_scope.
Local Open Scope list_scope.
Local Open Scope num_scope.

(** ** Points ([class Point]) and path text *)

Record Point : Type := new_Point { x_of : num; y_of : num }.

(** A fragment of a template literal: text, or a number to be printed. *)
Inductive piece : Type :=
| Txt (s : string)
| Num (n : num).

Definition path : Type := list piece.

(** [Point.toString]: [`${this.x} ${this.y}`]. *)
Definition toString (p : Point) : path :=
  [Num (x_of p); Txt " "; Num (y_of p)].

(** The string a path stands for, given the printer of numbers. *)
Definition render (show : num -> string) (l : path) : string :=
  fold_right
    (fun pc acc =>
       match pc with
       | Txt s => (s ++ acc)%string
       | Num n => (show n ++ acc)%string
       end)
    "" l.

(** [list.map(a => a.toString()).join(' ')]. *)
Fixpoint join_points (l : list Point) : path :=
  match l with
  | [] => []
  | [p] => toString p
  | p :: rest => toString p ++ Txt " " :: join_points rest
  end.

(** Array indexing; the arrays of this module always have four elements. *)
Definition at_index (l : list Point) (i : nat) : Point :=
  nth i l (new_Point NaN NaN).

(** ** The accuracy setting ([let accuracy = 101]) *)

Definition default_accuracy : Z := 101.
Definition setAccuracy (acc : Z) (_ : Z) : Z := acc.
Definition getAccuracy (accuracy : Z) : Z := accuracy.

(** ** Geometry *)

Definition add (p q : Point) : Point :=
  new_Point (x_of p + x_of q) (y_of p + y_of q).

Definition subtract (p q : Point) : Point :=
  new_Point (x_of p - x_of q) (y_of p - y_of q).

Definition rotate (p : Point) (angle : num) : Point :=
  new_Point
    (x_of p * ncos angle - y_of p * nsin angle)
    (x_of p * nsin angle + y_of p * ncos angle).

(** ** Loops and partial results *)

(** [for (let i = start; cond(i); i++)]: the values of [i] at which the
    body runs.  [n] bounds the number of iterations. *)
Fixpoint for_up (n : nat) (i : Z) (cond : Z -> bool) : list Z :=
  match n with
  | O => []
  | S n' => if cond i then i :: for_up n' (i + 1)%Z cond else []
  end.

(** [for (let i = start; cond(i); i--)]. *)
Fixpoint for_down (n : nat) (i : Z) (cond : Z -> bool) : list Z :=
  match n with
  | O => []
  | S n' => if cond i then i :: for_down n' (i - 1)%Z cond else []
  end.

Fixpoint mapM {A B : Type} (f : A -> option B) (l : list A)
  : option (list B) :=
  match l with
  | [] => Some []
  | a :: rest =>
      match f a, mapM f rest with
      | Some b, Some bs => Some (b :: bs)
      | _, _ => None
      end
  end.

(** ** The isotropic evaluator *)

Fixpoint squirc_cos (fuel : nat) (angle exponent : num) : option num :=
  match fuel with
  | O => None
  | S fuel' =>
      let angle := nmod angle (of_Z 2 * Math_PI) in
      if nlt angle (of_Z 0) then squirc_cos fuel' (- angle) exponent
      else if ngt angle (Math_PI / of_Z 2)
      then option_map nneg (squirc_cos fuel' (Math_PI - angle) exponent)
      else
        Some (of_Z 1 /
              npow (of_Z 1 + npow (ntan angle) exponent)
                   (of_Z 1 / exponent))
  end.

Definition squirc_sin (fuel : nat) (angle exponent : num) : option num :=
  squirc_cos fuel (Math_PI / of_Z 2 - angle) exponent.

(** The angle of sample [i]: [clockwise ? origin - i * step : origin + i * step]. *)
Definition sample_angle (accuracy : Z) (clockwise : bool) (i : Z) : num :=
  let origin := Math_PI / of_Z 2 in
  let step := of_Z 2 * Math_PI / of_Z accuracy in
  if clockwise then origin - of_Z i * step else origin + of_Z i * step.

(** The body of the sampling loop of [squirc_simple], up to the point [p]. *)
Definition simple_sample (fuel : nat) (accuracy : Z) (exponent : num)
    (size center : Point) (rotation : num) (clockwise : bool) (i : Z)
  : option Point :=
  let angle := sample_angle accuracy clockwise i in
  match squirc_cos fuel angle exponent, squirc_sin fuel angle exponent with
  | Some c, Some s =>
      let p := new_Point (x_of size / of_Z 2 * c)
                         (y_of size / of_Z 2 * (- s)) in
      let p := rotate p rotation in
      Some (add p center)
  | _, _ => None
  end.

(** [for (let i = 1; i < accuracy; i++)]: the points the loop appends. *)
Definition simple_points (fuel : nat) (accuracy : Z) (exponent : num)
    (size center : Point) (rotation : num) (clockwise : bool)
  : option (list Point) :=
  mapM (simple_sample fuel accuracy exponent size center rotation clockwise)
       (for_up (Z.to_nat accuracy) 1
               (fun i => nlt (of_Z i) (of_Z accuracy))).

Definition flag (clockwise : bool) : num :=
  if clockwise then of_Z 1 else of_Z 0.

Definition squirc_simple (fuel : nat) (accuracy : Z) (exponent : num)
    (size center : Point) (rotation : num) (clockwise : bool)
    (boundingBox edgeCenters : list Point) : option path :=
  (* base case square *)
  if negb (isFinite exponent) then
    Some (Txt "M" :: toString (at_index boundingBox 0)
          ++ Txt " L" :: join_points (tl boundingBox) ++ [Txt "Z"])
  (* base case diamond *)
  else if neq exponent (of_Z 1) then
    Some (Txt "M" :: toString (at_index edgeCenters 0)
          ++ Txt " L" :: join_points (tl edgeCenters) ++ [Txt "Z"])
  (* base case circle *)
  else if neq exponent (of_Z 2) then
    Some (Txt "M" :: toString (at_index edgeCenters 0)
          ++ [Txt "A"; Num (x_of size / of_Z 2); Txt " ";
              Num (y_of size / of_Z 2); Txt " 0 0 "; Num (flag clockwise);
              Txt " "]
          ++ toString (at_index edgeCenters 2)
          ++ [Txt " "; Num (x_of size / of_Z 2); Txt " ";
              Num (y_of size / of_Z 2); Txt " 0 0 "; Num (flag clockwise);
              Txt " "]
          ++ toString (at_index edgeCenters 0))
  else
    (* conventional superellipse *)
    match simple_points fuel accuracy exponent size center rotation
                        clockwise with
    | Some pts =>
        Some (Txt "M"
              :: toString (if clockwise then at_index edgeCenters 0
                           else at_index edgeCenters 3)
              ++ flat_map (fun p => Txt "L" :: toString p) pts
              ++ [Txt "Z"])
    | None => None
    end.

(** ** The anisotropic ("hybridial") evaluator *)

(** [f] and [df] of the Newton solve, and one pass of its loop body. *)
Definition newton_f (angle : num) (exponent : Point) (x : num) : num :=
  npow x (x_of exponent) + npow (ntan angle * x) (y_of exponent) - of_Z 1.

Definition newton_df (angle : num) (exponent : Point) (x : num) : num :=
  x_of exponent * npow x (x_of exponent - of_Z 1)
  + y_of exponent * npow (ntan angle) (y_of exponent)
    * npow x (y_of exponent - of_Z 1).

Definition newton_step (angle : num) (exponent : Point) (x : num) : num :=
  let dfx := newton_df angle exponent x in
  let fx := newton_f angle exponent x in
  x - fx / dfx.

Fixpoint hybridial_squircular_cos (fuel : nat) (angle : num)
    (exponent : Point) : option num :=
  match fuel with
  | O => None
  | S fuel' =>
      (* reflection for negatives *)
      if nlt angle (of_Z 0)
      then hybridial_squircular_cos fuel' (- angle) exponent
      (* reflection for Quarters 2-4 *)
      else if ngt angle (Math_PI / of_Z 2)
      then option_map nneg
             (hybridial_squircular_cos fuel' (Math_PI - angle) exponent)
      else
        (* for (let i = 0; i < 5; i++) from x = 1 *)
        let x := Nat.iter 5 (newton_step angle exponent) (of_Z 1) in
        Some (if isNaN x then of_Z 1 else x)
  end.

Definition hybridial_squircular_sin (fuel : nat) (angle : num)
    (exponent : Point) : option num :=
  hybridial_squircular_cos fuel (Math_PI / of_Z 2 - angle)
    (new_Point (y_of exponent) (x_of exponent)).

Definition hybridial_squircular_quadrant_explicit (x : num)
    (exponent : Point) : num :=
  npow (of_Z 1 - npow x (x_of exponent)) (of_Z 1 / y_of exponent).

(** The body of the loop of the angular regime, up to the point [p]. *)
Definition hybridial_sample (fuel : nat) (accuracy : Z) (exponent : Point)
    (size center : Point) (rotation : num) (clockwise : bool) (i : Z)
  : option Point :=
  let angle := sample_angle accuracy clockwise i in
  match hybridial_squircular_cos fuel angle exponent,
        hybridial_squircular_sin fuel angle exponent with
  | Some c, Some s =>
      let p := new_Point (x_of size / of_Z 2 * c)
                         (y_of size / of_Z 2 * (- s)) in
      let p := rotate p rotation in
      Some (add p center)
  | _, _ => None
  end.

(** [let step = 4 / accuracy] and [let x = i * step]. *)
Definition sample_x (accuracy : Z) (i : Z) : num :=
  let step := of_Z 4 / of_Z accuracy in
  of_Z i * step.

(** The body shared by the four loops of the explicit regime; [sx] and
    [sy] are the coefficients [cws * size.x/2], [-size.y/2] and so on. *)
Definition quadrant_point (accuracy : Z) (exponent : Point)
    (center : Point) (rotation : num) (sx sy : num) (i : Z) : Point :=
  let x := sample_x accuracy i in
  let y := hybridial_squircular_quadrant_explicit x exponent in
  let p := new_Point (sx * x) (sy * y) in
  let p := rotate p rotation in
  add p center.

(** [for (let i = 1; i < accuracy/4; i++)] and
    [for (let i = Math.floor(accuracy/4); i >= 1; i--)]. *)
Definition quadrant_up (accuracy : Z) : list Z :=
  for_up (Z.to_nat accuracy) 1
         (fun i => nlt (of_Z i) (of_Z accuracy / of_Z 4)).

Definition quadrant_down (accuracy : Z) : list Z :=
  for_down (Z.to_nat accuracy) (floorZ (of_Z accuracy / of_Z 4))
           (fun i => nge (of_Z i) (of_Z 1)).

(** The explicit regime after the exponents have been ordered. *)
Definition explicit_points (accuracy : Z) (exponent : Point)
    (size center : Point) (rotation : num) (clockwise : bool)
  : list Point :=
  let cws := if clockwise then of_Z 1 else - of_Z 1 in
  let pt := quadrant_point accuracy exponent center rotation in
  map (pt (cws * x_of size / of_Z 2) (- y_of size / of_Z 2))
      (quadrant_up accuracy)
  ++ map (pt (cws * x_of size / of_Z 2) (y_of size / of_Z 2))
         (quadrant_down accuracy)
  ++ map (pt (- cws * x_of size / of_Z 2) (y_of size / of_Z 2))
         (quadrant_up accuracy)
  ++ map (pt (- cws * x_of size / of_Z 2) (- y_of size / of_Z 2))
         (quadrant_down accuracy).

(** The points appended by either regime of [hybridial_squircle]. *)
Definition hybridial_points (fuel : nat) (accuracy : Z) (exponent : Point)
    (size center : Point) (rotation : num) (clockwise : bool)
  : option (list Point) :=
  if nge (x_of exponent) (Fin 1.5) && nge (y_of exponent) (Fin 1.5)
  then
    mapM (hybridial_sample fuel accuracy exponent size center rotation
            clockwise)
         (for_up (Z.to_nat accuracy) 1
                 (fun i => nlt (of_Z i) (of_Z accuracy)))
  else
    (* defaulting to exponent.x > exponent.y *)
    if nlt (x_of exponent) (y_of exponent)
    then Some (explicit_points accuracy
                 (new_Point (y_of exponent) (x_of exponent)) size center
                 (rotation + Math_PI / of_Z 2) clockwise)
    else Some (explicit_points accuracy exponent size center rotation
                 clockwise).

Definition hybridial_squircle (fuel : nat) (accuracy : Z)
    (exponent : Point) (size center : Point) (rotation : num)
    (clockwise : bool) (boundingBox edgeCenters : list Point)
  : option path :=
  match hybridial_points fuel accuracy exponent size center rotation
                         clockwise with
  | Some pts =>
      Some (Txt "M"
            :: toString (if clockwise then at_index edgeCenters 0
                         else at_index edgeCenters 3)
            ++ Txt "L" :: flat_map (fun p => toString p ++ [Txt " "]) pts
            ++ [Txt "Z"])
  | None => None
  end.

(** ** The entry point *)

(** [exponent: number|Point]. *)
Inductive Exponent : Type :=
| Scalar (e : num)
| Pair (e : Point).

(** The four corners, clockwise from the top left, and the four edge
    midpoints, clockwise from the top, both in winding order. *)
Definition boundingBox_of (size center : Point) (rotation : num)
    (clockwise : bool) : list Point :=
  let boundingBox :=
    map (fun p => add p center)
      (map (fun p => rotate p rotation)
         [ new_Point (- x_of size / of_Z 2) (- y_of size / of_Z 2);
           new_Point (x_of size / of_Z 2) (- y_of size / of_Z 2);
           new_Point (x_of size / of_Z 2) (y_of size / of_Z 2);
           new_Point (- x_of size / of_Z 2) (y_of size / of_Z 2) ]) in
  if negb clockwise then rev boundingBox else boundingBox.

Definition edgeCenters_of (size center : Point) (rotation : num)
    (clockwise : bool) : list Point :=
  let edgeCenters :=
    map (fun p => add p center)
      (map (fun p => rotate p rotation)
         [ new_Point (of_Z 0) (- y_of size / of_Z 2);
           new_Point (x_of size / of_Z 2) (of_Z 0);
           new_Point (of_Z 0) (y_of size / of_Z 2);
           new_Point (- x_of size / of_Z 2) (of_Z 0) ]) in
  if negb clockwise then rev edgeCenters else edgeCenters.

(** "base case exponents are the same": a pair with [x === y] becomes the
    number [x]. *)
Definition collapse (exponent : Exponent) : Exponent :=
  match exponent with
  | Pair e => if neq (x_of e) (y_of e) then Scalar (x_of e) else Pair e
  | Scalar e => Scalar e
  end.

Definition squirc (fuel : nat) (accuracy : Z) (exponent : Exponent)
    (size center : Point) (rotation : num) (clockwise : bool)
  : option path :=
  let boundingBox := boundingBox_of size center rotation clockwise in
  let edgeCenters := edgeCenters_of size center rotation clockwise in
  match collapse exponent with
  | Scalar e =>
      squirc_simple fuel accuracy e size center rotation clockwise
        boundingBox edgeCenters
  | Pair e =>
      hybridial_squircle fuel accuracy e size center rotation clockwise
        boundingBox edgeCenters
  end.

(** The defaults of [squirc]'s parameters. *)
Definition default_size : Point := new_Point (of_Z 1) (of_Z 1).
Definition default_center (size : Point) : Point :=
  new_Point (x_of size / of_Z 2) (y_of size / of_Z 2).

(** ** Closed forms used in the statements *)

(** The first-quadrant formula of [squirc_cos] at the finite angle [a]. *)
Definition quadrant_cos (a : R) (e : num) : num :=
  of_Z 1 / npow (of_Z 1 + npow (ntan (Fin a)) e) (of_Z 1 / e).

(** How both cosine evaluators extend a first-quadrant function [F] to an
    angle [0 <= r < 2 pi] by their two reflections. *)
Definition reflect (F : R -> num) (r : R) : num :=
  if Rltb (PI / 2) r then
    if Rltb PI r then
      if Rltb (3 * PI / 2) r then F (2 * PI - r)%R
      else - F (r - PI)%R
    else - F (PI - r)%R
  else F r.

(** The edge midpoints and corners of the rotated, translated box. *)
Definition placed (center : Point) (rotation : num) (p : Point) : Point :=
  add (rotate p rotation) center.

Definition top_mid (size center : Point) (rotation : num) : Point :=
  placed center rotation (new_Point (of_Z 0) (- y_of size / of_Z 2)).
Definition right_mid (size center : Point) (rotation : num) : Point :=
  placed center rotation (new_Point (x_of size / of_Z 2) (of_Z 0)).
Definition bottom_mid (size center : Point) (rotation : num) : Point :=
  placed center rotation (new_Point (of_Z 0) (y_of size / of_Z 2)).
Definition left_mid (size center : Point) (rotation : num) : Point :=
  placed center rotation (new_Point (- x_of size / of_Z 2) (of_Z 0)).

Definition top_left (size center : Point) (rotation : num) : Point :=
  placed center rotation
    (new_Point (- x_of size / of_Z 2) (- y_of size / of_Z 2)).
Definition top_right (size center : Point) (rotation : num) : Point :=
  placed center rotation
    (new_Point (x_of size / of_Z 2) (- y_of size / of_Z 2)).
Definition bottom_right (size center : Point) (rotation : num) : Point :=
  placed center rotation
    (new_Point (x_of size / of_Z 2) (y_of size / of_Z 2)).
Definition bottom_left (size center : Point) (rotation : num) : Point :=
  placed center rotation
    (new_Point (- x_of size / of_Z 2) (y_of size / of_Z 2)).

(** A move to [a], an arc to [b] and an arc back to [a], with radii [rx]
    and [ry] and sweep flag [f]. *)
Definition two_arcs (rx ry f : num) (a b : Point) : path :=
  Txt "M" :: toString a
  ++ [Txt "A"; Num rx; Txt " "; Num ry; Txt " 0 0 "; Num f; Txt " "]
  ++ toString b
  ++ [Txt " "; Num rx; Txt " "; Num ry; Txt " 0 0 "; Num f; Txt " "]
  ++ toString a.

(** The exponents for which the path is a sampled polyline: every pair with
    different components, and every finite number other than 1 and 2. *)
Definition sampled (exponent : Exponent) : bool :=
  match collapse exponent with
  | Scalar e =>
      isFinite e && negb (neq e (of_Z 1)) && negb (neq e (of_Z 2))
  | Pair _ => true
  end.

(** The value the Newton loop of [hybridial_squircular_cos] returns in the
    first quadrant. *)
Definition newton_cos (angle : num) (exponent : Point) : num :=
  let x := Nat.iter 5 (newton_step angle exponent) (of_Z 1) in
  if isNaN x then of_Z 1 else x.

(** The exponents that take the circle branch. *)
Definition is_circle (exponent : Exponent) : bool :=
  match collapse exponent with
  | Scalar e => neq e (of_Z 2)
  | Pair _ => false
  end.

(** ** Vertices *)

(** The points a path visits, in order: the move point and the points of
    its line commands; for the circle, the move point and the far end of
    the first arc.  [squirc_draws_vertices] below shows that [squirc] prints
    exactly these. *)
Definition squirc_vertices (fuel : nat) (accuracy : Z) (exponent : Exponent)
    (size center : Point) (rotation : num) (clockwise : bool)
  : option (list Point) :=
  let boundingBox := boundingBox_of size center rotation clockwise in
  let edgeCenters := edgeCenters_of size center rotation clockwise in
  let start := if clockwise then at_index edgeCenters 0
               else at_index edgeCenters 3 in
  match collapse exponent with
  | Scalar e =>
      if negb (isFinite e) then Some boundingBox
      else if neq e (of_Z 1) then Some edgeCenters
      else if neq e (of_Z 2)
      then Some [at_index edgeCenters 0; at_index edgeCenters 2]
      else option_map (cons start)
             (simple_points fuel accuracy e size center rotation clockwise)
  | Pair e =>
      option_map (cons start)
        (hybridial_points fuel accuracy e size center rotation clockwise)
  end.

(** The text [squirc] writes for a list of vertices. *)
Definition draw (exponent : Exponent) (size : Point) (clockwise : bool)
    (vs : list Point) : path :=
  match collapse exponent with
  | Scalar e =>
      if negb (isFinite e) || neq e (of_Z 1) then
        Txt "M" :: toString (at_index vs 0)
        ++ Txt " L" :: join_points (tl vs) ++ [Txt "Z"]
      else if neq e (of_Z 2) then
        two_arcs (x_of size / of_Z 2) (y_of size / of_Z 2) (flag clockwise)
          (at_index vs 0) (at_index vs 1)
      else
        Txt "M" :: toString (at_index vs 0)
        ++ flat_map (fun p => Txt "L" :: toString p) (tl vs) ++ [Txt "Z"]
  | Pair _ =>
      Txt "M" :: toString (at_index vs 0)
      ++ Txt "L" :: flat_map (fun p => toString p ++ [Txt " "]) (tl vs)
      ++ [Txt "Z"]
  end.




(** ** The superellipse equation *)

(** The left-hand side [|2x/size.x|^ex + |2y/size.y|^ey] at a point. *)
Definition superellipse_lhs (size exponent p : Point) : num :=
  npow (nabs (of_Z 2 * x_of p / x_of size)) (x_of exponent)
  + npow (nabs (of_Z 2 * y_of p / y_of size)) (y_of exponent).

(** Translating a point back by the centre and turning it back by the
    rotation. *)
Definition unplaced (center : Point) (rotation : num) (p : Point) : Point :=
  rotate (subtract p center) (- rotation).

(** The point half way between two points. *)
Definition midpoint (p q : Point) : Point :=
  new_Point ((x_of p + x_of q) / of_Z 2) ((y_of p + y_of q) / of_Z 2).

(** A polygon through four points: [M a Lb c dZ]. *)
Definition quadrilateral (a b c d : Point) : path :=
  Txt "M" :: toString a
  ++ Txt " L" :: toString b ++ Txt " " :: toString c
  ++ Txt " " :: toString d ++ [Txt "Z"].

(** Does [hybridial_squircle] sample a pair of exponents by angle? *)
Definition angular (e : Point) : bool :=
  nge (x_of e) (Fin 1.5) && nge (y_of e) (Fin 1.5).

(** The number of vertices of a path. *)
Definition vertex_count (accuracy : Z) (exponent : Exponent) : nat :=
  match collapse exponent with
  | Scalar e =>
      if negb (isFinite e) || neq e (of_Z 1) then 4
      else if neq e (of_Z 2) then 2
      else Z.to_nat (Z.max accuracy 1)
  | Pair e =>
      if angular e then Z.to_nat (Z.max accuracy 1)
      else 1 + 2 * Z.to_nat ((accuracy + 3) / 4 - 1)
           + 2 * Z.to_nat (accuracy / 4)
  end.

(** A value with its sign flipped or kept, as a number and as a real. *)
Definition flipped (neg : bool) (v : num) : num := if neg then - v else v.
Definition flippedR (neg : bool) (v : R) : R := if neg then (- v)%R else v.

(** A point of the plane lies on the superellipse of the given size,
    exponents, centre and rotation. *)
Definition on_superellipse (size exponent center : Point) (rotation : num)
    (p : Point) : Prop :=
  superellipse_lhs size exponent (unplaced center rotation p) = Fin 1.

(** The residual [f] and the derivative [df] of the Newton solve over the
    reals, for a positive tangent [t] and a positive [x]. *)
Definition residual (t ex ey x : R) : R :=
  (Rpower x ex + Rpower (t * x) ey - 1)%R.

Definition slope (t ex ey x : R) : R :=
  (ex * Rpower x (ex - 1) + ey * Rpower t ey * Rpower x (ey - 1))%R.


(** A point that, translated and turned back, is within the box of the
    given size around the origin. *)
Definition within_box (size center : Point) (rotation : num) (p : Point)
  : Prop :=
  let q := unplaced center rotation p in
  nge (nabs (x_of size)) (nabs (of_Z 2 * x_of q)) = true
  /\ nge (nabs (y_of size)) (nabs (of_Z 2 * y_of q)) = true.

(** A point that is on or outside the superellipse. *)
Definition not_inside_superellipse (size exponent center : Point)
    (rotation : num) (p : Point) : Prop :=
  nge (superellipse_lhs size exponent (unplaced center rotation p)) (of_Z 1)
  = true.



(** ** Arithmetic of the number model *)

Lemma Rltb_true (x y : R) : x < y -> Rltb x y = true.
Proof. intros H. unfold Rltb. destruct (Rlt_dec x y); [reflexivity | lra]. Qed.

Lemma Rltb_false (x y : R) : y <= x -> Rltb x y = false.
Proof. intros H. unfold Rltb. destruct (Rlt_dec x y); [lra | reflexivity]. Qed.

Lemma Reqb_true (x y : R) : x = y -> Reqb x y = true.
Proof.
  intros H. unfold Reqb. destruct (Req_dec_T x y); [reflexivity | contradiction].
Qed.

Lemma Reqb_false (x y : R) : x <> y -> Reqb x y = false.
Proof.
  intros H. unfold Reqb. destruct (Req_dec_T x y); [contradiction | reflexivity].
Qed.

Lemma Reqb_refl (x : R) : Reqb x x = true.
Proof. apply Reqb_true. reflexivity. Qed.

Lemma Fin_add (a b : R) : Fin a + Fin b = Fin (a + b).
Proof. reflexivity. Qed.

Lemma Fin_sub (a b : R) : Fin a - Fin b = Fin (a - b).
Proof. reflexivity. Qed.

Lemma Fin_mul (a b : R) : Fin a * Fin b = Fin (a * b).
Proof. reflexivity. Qed.

Lemma Fin_neg (a : R) : - Fin a = Fin (- a).
Proof. reflexivity. Qed.

Lemma Fin_div (a b : R) : b <> 0%R -> Fin a / Fin b = Fin (a / b).
Proof. intros H. unfold ndiv. rewrite (Reqb_false _ _ H). reflexivity. Qed.

Lemma Fin_eq (a b : R) : a = b -> Fin a = Fin b.
Proof. intros ->. reflexivity. Qed.

Lemma half_pi : Math_PI / of_Z 2 = Fin (PI / 2).
Proof. unfold Math_PI, of_Z. apply Fin_div. lra. Qed.

Lemma two_pi : of_Z 2 * Math_PI = Fin (2 * PI).
Proof. reflexivity. Qed.

Lemma nneg_involutive (x : num) : - - x = x.
Proof. destruct x; simpl; try reflexivity. apply Fin_eq. lra. Qed.

Lemma isNaN_nneg (x : num) : isNaN (- x) = isNaN x.
Proof. destruct x; reflexivity. Qed.

(** [NaN] is absorbing for subtraction on the left. *)
Lemma NaN_sub (y : num) : NaN - y = NaN.
Proof. destruct y; reflexivity. Qed.

(** A zero numerator: the quotient is zero, or not a number. *)
Lemma zero_div (d : num) : Fin 0 / d = Fin 0 \/ Fin 0 / d = NaN.
Proof.
  destruct d as [| | | b]; simpl; auto.
  destruct (Req_dec_T b 0) as [E | E].
  - rewrite (Reqb_true _ _ E), Reqb_refl. auto.
  - rewrite (Reqb_false _ _ E). left. apply Fin_eq. unfold Rdiv. lra.
Qed.

(** ** The remainder *)

Lemma Int_part_bounds (r : R) :
  (IZR (Int_part r) <= r < IZR (Int_part r) + 1)%R.
Proof. destruct (base_Int_part r). lra. Qed.

Lemma Rtrunc_small (q : R) : (-1 < q < 1)%R -> Rtrunc q = 0%Z.
Proof.
  intros [Hlo Hhi]. unfold Rtrunc.
  destruct (Rlt_dec q 0) as [Hn | Hn].
  - rewrite (Rltb_true _ _ Hn).
    destruct (Int_part_bounds (- q)) as [H1 H2].
    assert (Hz : (-1 < Int_part (- q) < 1)%Z).
    { split; apply lt_IZR; lra. }
    lia.
  - rewrite Rltb_false by lra.
    destruct (Int_part_bounds q) as [H1 H2].
    assert (Hz : (-1 < Int_part q < 1)%Z).
    { split; apply lt_IZR; lra. }
    lia.
Qed.

(** [a % b] leaves [a] alone when [|a| < b]. *)
Lemma nmod_small (a b : R) :
  (- b < a < b)%R -> nmod (Fin a) (Fin b) = Fin a.
Proof.
  intros [Hlo Hhi]. assert (Hb : (0 < b)%R) by lra.
  unfold nmod. rewrite Reqb_false by lra.
  rewrite Rtrunc_small.
  - apply Fin_eq. lra.
  - split.
    + apply Rmult_lt_reg_r with b; [lra |].
      unfold Rdiv. rewrite Rmult_assoc, Rinv_l by lra. lra.
    + apply Rmult_lt_reg_r with b; [lra |].
      unfold Rdiv. rewrite Rmult_assoc, Rinv_l by lra. lra.
Qed.

(** [a % b] lies strictly between [-b] and [b]. *)
Lemma nmod_range (a b : R) :
  (0 < b)%R ->
  exists r, nmod (Fin a) (Fin b) = Fin r /\ (- b < r < b)%R.
Proof.
  intros Hb. unfold nmod. rewrite Reqb_false by lra.
  eexists. split; [reflexivity |].
  assert (Hq : (a = b * (a / b))%R) by (field; lra).
  unfold Rtrunc. destruct (Rlt_dec (a / b) 0) as [Hn | Hn].
  - rewrite (Rltb_true _ _ Hn).
    destruct (Int_part_bounds (- (a / b))) as [H1 H2].
    rewrite opp_IZR. nra.
  - rewrite Rltb_false by lra.
    destruct (Int_part_bounds (a / b)) as [H1 H2]. nra.
Qed.

(** ** The isotropic cosine: one call, and its value on a reduced angle *)

Lemma squirc_cos_step (k : nat) (a : R) (e : num) :
  (- (2 * PI) < a < 2 * PI)%R ->
  squirc_cos (S k) (Fin a) e =
  if Rltb a 0 then squirc_cos k (Fin (- a)) e
  else if Rltb (PI / 2) a
       then option_map nneg (squirc_cos k (Fin (PI - a)) e)
       else Some (quadrant_cos a e).
Proof.
  intros Ha. cbn [squirc_cos]. rewrite two_pi, nmod_small by exact Ha.
  rewrite half_pi. reflexivity.
Qed.

(** Any evaluator that reflects as the two cosines do. *)
Section Reflection.

Variable f : nat -> R -> option num.
Variable F : R -> num.

Hypothesis f_step : forall (k : nat) (a : R),
  (- (2 * PI) < a < 2 * PI)%R ->
  f (S k) a =
  if Rltb a 0 then f k (- a)%R
  else if Rltb (PI / 2) a then option_map nneg (f k (PI - a)%R)
       else Some (F a).

Lemma reflect_reduced (k : nat) (r : R) :
  (0 <= r < 2 * PI)%R -> f (4 + k) r = Some (reflect F r).
Proof.
  intros Hr. pose proof PI_RGT_0 as Hpi. unfold reflect.
  change (4 + k)%nat with (S (S (S (S k)))).
  rewrite f_step by lra. rewrite Rltb_false by lra.
  destruct (Rlt_dec (PI / 2) r) as [H1 | H1].
  2:{ rewrite Rltb_false by lra. reflexivity. }
  rewrite (Rltb_true _ _ H1).
  rewrite f_step by lra.
  destruct (Rlt_dec PI r) as [H2 | H2].
  2:{ rewrite (Rltb_false PI r) by lra.
      rewrite !Rltb_false by lra. reflexivity. }
  rewrite (Rltb_true _ _ H2). rewrite Rltb_true by lra.
  rewrite f_step by lra. rewrite Rltb_false by lra.
  destruct (Rlt_dec (3 * PI / 2) r) as [H3 | H3].
  - rewrite (Rltb_true _ _ H3). rewrite Rltb_true by lra.
    rewrite f_step by lra. rewrite !Rltb_false by lra.
    cbn [option_map]. rewrite nneg_involutive.
    do 2 f_equal. lra.
  - rewrite (Rltb_false (3 * PI / 2) r) by lra. rewrite Rltb_false by lra.
    cbn [option_map]. do 3 f_equal. lra.
Qed.

Lemma reflect_negative (k : nat) (r : R) :
  (- (2 * PI) < r < 0)%R -> f (5 + k) r = Some (reflect F (- r)).
Proof.
  intros Hr. change (5 + k)%nat with (S (4 + k)).
  rewrite f_step by lra. rewrite Rltb_true by lra.
  apply reflect_reduced. lra.
Qed.

End Reflection.

(** The reflections mirror the angle in the x axis, provided [F] vanishes
    (or is its own opposite) on the y axis, or the angle stays off it. *)
Lemma reflect_mirror (F : R -> num) (r : R) :
  (0 < r < 2 * PI)%R ->
  F (PI / 2)%R = - F (PI / 2)%R
  \/ (r <> PI / 2 /\ r <> 3 * PI / 2)%R ->
  reflect F (2 * PI - r) = reflect F r.
Proof.
  intros Hr Haxis. pose proof PI_RGT_0 as Hpi. unfold reflect.
  destruct (Rlt_dec (PI / 2) r) as [H1 | H1].
  - rewrite (Rltb_true _ _ H1).
    destruct (Rlt_dec PI r) as [H2 | H2].
    + rewrite (Rltb_true _ _ H2).
      destruct (Rlt_dec (3 * PI / 2) r) as [H3 | H3].
      * rewrite (Rltb_true _ _ H3). rewrite Rltb_false by lra. reflexivity.
      * rewrite (Rltb_false (3 * PI / 2) r) by lra.
        destruct (Req_dec_T r (3 * PI / 2)) as [E | E].
        -- rewrite Rltb_false by lra.
           destruct Haxis as [Hz | [_ Hne]]; [| contradiction].
           replace (2 * PI - r)%R with (PI / 2)%R by lra.
           replace (r - PI)%R with (PI / 2)%R by lra. exact Hz.
        -- rewrite Rltb_true by lra. rewrite Rltb_false by lra.
           do 2 f_equal. lra.
    + rewrite (Rltb_false PI r) by lra.
      rewrite Rltb_true by lra.
      destruct (Req_dec_T r PI) as [E | E].
      * rewrite Rltb_false by lra. do 2 f_equal. lra.
      * rewrite Rltb_true by lra. rewrite Rltb_false by lra.
        do 2 f_equal. lra.
  - rewrite (Rltb_false (PI / 2) r) by lra.
    rewrite Rltb_true by lra. rewrite Rltb_true by lra.
    destruct (Req_dec_T r (PI / 2)) as [E | E].
    + rewrite Rltb_false by lra.
      destruct Haxis as [Hz | [Hne _]]; [| contradiction].
      replace (2 * PI - r - PI)%R with (PI / 2)%R by lra.
      rewrite E. symmetry. rewrite <- Hz. reflexivity.
    + rewrite Rltb_true by lra. f_equal. lra.
Qed.

Lemma squirc_cos_reduced (k : nat) (r : R) (e : num) :
  (0 <= r < 2 * PI)%R ->
  squirc_cos (4 + k) (Fin r) e
  = Some (reflect (fun a => quadrant_cos a e) r).
Proof.
  apply (reflect_reduced (fun n a => squirc_cos n (Fin a) e)).
  intros n a Ha. apply squirc_cos_step. exact Ha.
Qed.

Lemma squirc_cos_negative (k : nat) (r : R) (e : num) :
  (- (2 * PI) < r < 0)%R ->
  squirc_cos (5 + k) (Fin r) e
  = Some (reflect (fun a => quadrant_cos a e) (- r)).
Proof.
  apply (reflect_negative (fun n a => squirc_cos n (Fin a) e)).
  intros n a Ha. apply squirc_cos_step. exact Ha.
Qed.

(** Every call to [squirc_cos] returns within five nested calls. *)
Lemma squirc_cos_total (fuel : nat) (angle e : num) :
  (5 <= fuel)%nat -> exists v, squirc_cos fuel angle e = Some v.
Proof.
  intros Hf. destruct fuel as [| k]; [lia |].
  assert (Hpi := PI_RGT_0).
  destruct angle as [| | | a];
    try (cbn [squirc_cos]; rewrite two_pi, half_pi; eexists; reflexivity).
  destruct (nmod_range a (2 * PI)) as [r [Hr Hb]]; [lra |].
  assert (Hsame : squirc_cos (S k) (Fin a) e = squirc_cos (S k) (Fin r) e).
  { cbn [squirc_cos]. rewrite two_pi, Hr, nmod_small by lra. reflexivity. }
  rewrite Hsame.
  destruct (Rlt_dec r 0) as [Hn | Hn].
  - replace (S k) with (5 + (k - 4))%nat by lia.
    rewrite squirc_cos_negative by lra. eexists; reflexivity.
  - replace (S k) with (4 + (k - 3))%nat by lia.
    rewrite squirc_cos_reduced by lra. eexists; reflexivity.
Qed.

(** ** The anchors *)

Lemma edgeCenters_clockwise (size center : Point) (rotation : num) :
  edgeCenters_of size center rotation true =
  [ top_mid size center rotation; right_mid size center rotation;
    bottom_mid size center rotation; left_mid size center rotation ].
Proof. reflexivity. Qed.

Lemma edgeCenters_counter (size center : Point) (rotation : num) :
  edgeCenters_of size center rotation false =
  [ left_mid size center rotation; bottom_mid size center rotation;
    right_mid size center rotation; top_mid size center rotation ].
Proof. reflexivity. Qed.

Lemma boundingBox_clockwise (size center : Point) (rotation : num) :
  boundingBox_of size center rotation true =
  [ top_left size center rotation; top_right size center rotation;
    bottom_right size center rotation; bottom_left size center rotation ].
Proof. reflexivity. Qed.

Lemma boundingBox_counter (size center : Point) (rotation : num) :
  boundingBox_of size center rotation false =
  [ bottom_left size center rotation; bottom_right size center rotation;
    top_right size center rotation; top_left size center rotation ].
Proof. reflexivity. Qed.

(** [clockwise ? edgeCenters[0] : edgeCenters[3]] is the top midpoint
    whichever way the array was turned. *)
Lemma start_anchor (size center : Point) (rotation : num) (clockwise : bool) :
  (if clockwise
   then at_index (edgeCenters_of size center rotation clockwise) 0
   else at_index (edgeCenters_of size center rotation clockwise) 3)
  = top_mid size center rotation.
Proof. destruct clockwise; reflexivity. Qed.

(** ** The anisotropic cosine: one call, and termination *)

Lemma newton_cos_not_NaN (angle : num) (e : Point) :
  isNaN (newton_cos angle e) = false.
Proof.
  unfold newton_cos.
  destruct (isNaN (Nat.iter 5 (newton_step angle e) (of_Z 1))) eqn:E.
  - reflexivity.
  - exact E.
Qed.

Lemma hybridial_cos_step (k : nat) (a : R) (e : Point) :
  hybridial_squircular_cos (S k) (Fin a) e =
  if Rltb a 0 then hybridial_squircular_cos k (Fin (- a)) e
  else if Rltb (PI / 2) a
       then option_map nneg (hybridial_squircular_cos k (Fin (PI - a)) e)
       else Some (newton_cos (Fin a) e).
Proof. cbn [hybridial_squircular_cos]. rewrite half_pi. reflexivity. Qed.

Lemma hybridial_cos_q1 (k : nat) (a : R) (e : Point) :
  (0 <= a <= PI / 2)%R ->
  hybridial_squircular_cos (S k) (Fin a) e = Some (newton_cos (Fin a) e).
Proof.
  intros Ha. rewrite hybridial_cos_step. rewrite !Rltb_false by lra.
  reflexivity.
Qed.

Lemma hybridial_cos_q2 (k : nat) (a : R) (e : Point) :
  (PI / 2 < a <= PI)%R ->
  hybridial_squircular_cos (S (S k)) (Fin a) e =
  Some (- newton_cos (Fin (PI - a)) e).
Proof.
  intros Ha. rewrite hybridial_cos_step.
  rewrite Rltb_false by lra. rewrite Rltb_true by lra.
  rewrite hybridial_cos_q1 by lra. reflexivity.
Qed.

(** Past [pi], two calls take the angle down by [pi] and flip the sign. *)
Lemma hybridial_cos_shift (k : nat) (a : R) (e : Point) :
  (PI < a)%R ->
  hybridial_squircular_cos (S (S k)) (Fin a) e =
  option_map nneg (hybridial_squircular_cos k (Fin (a - PI)) e).
Proof.
  intros Ha. pose proof PI_RGT_0 as Hpi. rewrite hybridial_cos_step.
  rewrite Rltb_false by lra. rewrite Rltb_true by lra.
  rewrite hybridial_cos_step. rewrite Rltb_true by lra.
  do 3 f_equal. lra.
Qed.

Lemma hybridial_cos_nonneg_total (n k : nat) (e : Point) :
  forall a : R,
  (0 <= a <= PI / 2 + INR n * PI)%R ->
  exists v, hybridial_squircular_cos (2 * n + 1 + k) (Fin a) e = Some v
            /\ isNaN v = false.
Proof.
  pose proof PI_RGT_0 as Hpi.
  induction n as [| n IH]; intros a Ha.
  - simpl INR in Ha. change (2 * 0 + 1 + k)%nat with (S k).
    rewrite hybridial_cos_q1 by lra.
    eexists. split; [reflexivity | apply newton_cos_not_NaN].
  - rewrite S_INR in Ha.
    replace (2 * S n + 1 + k)%nat with (S (S (2 * n + 1 + k))) by lia.
    destruct (Rle_dec a (PI / 2)) as [H1 | H1].
    + rewrite hybridial_cos_q1 by lra.
      eexists. split; [reflexivity | apply newton_cos_not_NaN].
    + destruct (Rle_dec a PI) as [H2 | H2].
      * rewrite hybridial_cos_q2 by lra.
        eexists. split; [reflexivity |].
        rewrite isNaN_nneg. apply newton_cos_not_NaN.
      * rewrite hybridial_cos_shift by lra.
        destruct (IH (a - PI)%R) as [v [Hv Hn]]; [lra |].
        rewrite Hv. eexists. split; [reflexivity |].
        rewrite isNaN_nneg. exact Hn.
Qed.

Lemma hybridial_cos_bounded_total (n k : nat) (e : Point) (a : R) :
  (Rabs a <= PI / 2 + INR n * PI)%R ->
  exists v, hybridial_squircular_cos (2 * n + 2 + k) (Fin a) e = Some v
            /\ isNaN v = false.
Proof.
  intros Ha. destruct (Rlt_dec a 0) as [Hn | Hn].
  - replace (2 * n + 2 + k)%nat with (S (2 * n + 1 + k)) by lia.
    rewrite hybridial_cos_step, (Rltb_true _ _ Hn).
    apply hybridial_cos_nonneg_total.
    rewrite Rabs_left in Ha by lra. lra.
  - replace (2 * n + 2 + k)%nat with (2 * n + 1 + S k)%nat by lia.
    apply hybridial_cos_nonneg_total.
    rewrite Rabs_right in Ha by lra. lra.
Qed.

(** ** Loops *)

Lemma for_up_range (cond : Z -> bool) (m : nat) :
  forall (n : nat) (i : Z),
  (m <= n)%nat ->
  (forall j, (i <= j < i + Z.of_nat m)%Z -> cond j = true) ->
  ((m < n)%nat -> cond (i + Z.of_nat m)%Z = false) ->
  for_up n i cond = map (fun k => (i + Z.of_nat k)%Z) (seq 0 m).
Proof.
  induction m as [| m IH]; intros n i Hmn Hin Hout.
  - destruct n as [| n]; [reflexivity |].
    cbn [for_up seq map]. rewrite <- (Z.add_0_r i) at 1.
    change 0%Z with (Z.of_nat 0). rewrite Hout by lia. reflexivity.
  - destruct n as [| n]; [lia |].
    cbn [for_up]. rewrite Hin by lia.
    cbn [seq map]. rewrite Z.add_0_r. f_equal.
    rewrite <- seq_shift, map_map.
    rewrite (IH n (i + 1)%Z).
    + apply map_ext. intros k. lia.
    + lia.
    + intros j Hj. apply Hin. lia.
    + intros Hlt. replace (i + 1 + Z.of_nat m)%Z with (i + Z.of_nat (S m))%Z by lia.
      apply Hout. lia.
Qed.

Lemma for_down_range (cond : Z -> bool) (m : nat) :
  forall (n : nat) (i : Z),
  (m <= n)%nat ->
  (forall j, (i - Z.of_nat m < j <= i)%Z -> cond j = true) ->
  ((m < n)%nat -> cond (i - Z.of_nat m)%Z = false) ->
  for_down n i cond = map (fun k => (i - Z.of_nat k)%Z) (seq 0 m).
Proof.
  induction m as [| m IH]; intros n i Hmn Hin Hout.
  - destruct n as [| n]; [reflexivity |].
    cbn [for_down seq map]. rewrite <- (Z.sub_0_r i) at 1.
    change 0%Z with (Z.of_nat 0). rewrite Hout by lia. reflexivity.
  - destruct n as [| n]; [lia |].
    cbn [for_down]. rewrite Hin by lia.
    cbn [seq map]. rewrite Z.sub_0_r. f_equal.
    rewrite <- seq_shift, map_map.
    rewrite (IH n (i - 1)%Z).
    + apply map_ext. intros k. lia.
    + lia.
    + intros j Hj. apply Hin. lia.
    + intros Hlt. replace (i - 1 - Z.of_nat m)%Z with (i - Z.of_nat (S m))%Z by lia.
      apply Hout. lia.
Qed.

Lemma mapM_total {A B : Type} (f : A -> option B) (g : A -> B)
    (l : list A) :
  (forall a, In a l -> f a = Some (g a)) -> mapM f l = Some (map g l).
Proof.
  induction l as [| a rest IH]; intros H.
  - reflexivity.
  - cbn [mapM map]. rewrite (H a) by (left; reflexivity).
    rewrite IH by (intros b Hb; apply H; right; exact Hb). reflexivity.
Qed.

Lemma mapM_defined {A B : Type} (f : A -> option B) (l : list A) :
  (forall a, In a l -> exists b, f a = Some b) ->
  exists bs, mapM f l = Some bs /\ List.length bs = List.length l.
Proof.
  induction l as [| a rest IH]; intros H.
  - exists []. split; reflexivity.
  - destruct (H a) as [b Hb]; [left; reflexivity |].
    destruct IH as [bs [Hbs Hlen]]; [intros c Hc; apply H; right; exact Hc |].
    exists (b :: bs). cbn [mapM]. rewrite Hb, Hbs. split; [reflexivity |].
    cbn [List.length]. rewrite Hlen. reflexivity.
Qed.

(** The indices of [for (let i = 1; i < accuracy; i++)]. *)
Lemma sample_indices (accuracy : Z) :
  for_up (Z.to_nat accuracy) 1 (fun i => nlt (of_Z i) (of_Z accuracy)) =
  map (fun k => (1 + Z.of_nat k)%Z) (seq 0 (Z.to_nat accuracy - 1)).
Proof.
  apply for_up_range.
  - lia.
  - intros j Hj. cbn [nlt of_Z]. apply Rltb_true. apply IZR_lt. lia.
  - intros Hlt. cbn [nlt of_Z]. apply Rltb_false. apply IZR_le. lia.
Qed.

(** ** The sampling loops return *)

Lemma sample_angle_finite (accuracy : Z) (clockwise : bool) (i : Z) :
  (0 < accuracy)%Z ->
  sample_angle accuracy clockwise i =
  Fin (if clockwise
       then PI / 2 - IZR i * (2 * PI / IZR accuracy)
       else PI / 2 + IZR i * (2 * PI / IZR accuracy)).
Proof.
  intros Hacc. assert (Ha : (0 < IZR accuracy)%R) by (apply IZR_lt; lia).
  unfold sample_angle. rewrite half_pi. unfold of_Z, Math_PI.
  cbn [nmul]. rewrite Fin_div by lra.
  destruct clockwise; reflexivity.
Qed.

Lemma sample_angle_bound (accuracy : Z) (clockwise : bool) (i : Z) :
  (0 < i < accuracy)%Z ->
  exists a, sample_angle accuracy clockwise i = Fin a
            /\ (- (3 * PI / 2) < a < 5 * PI / 2)%R.
Proof.
  intros Hi. pose proof PI_RGT_0 as Hpi.
  rewrite sample_angle_finite by lia.
  eexists. split; [reflexivity |].
  assert (Ha : (0 < IZR accuracy)%R) by (apply IZR_lt; lia).
  assert (H0 : (0 < IZR i)%R) by (apply IZR_lt; lia).
  assert (H1 : (IZR i < IZR accuracy)%R) by (apply IZR_lt; lia).
  assert (Hq : (0 < IZR i * (2 * PI / IZR accuracy) < 2 * PI)%R).
  { split.
    - apply Rmult_lt_0_compat; [lra |]. apply Rdiv_lt_0_compat; lra.
    - apply Rmult_lt_reg_r with (IZR accuracy); [lra |].
      replace (IZR i * (2 * PI / IZR accuracy) * IZR accuracy)%R
        with (IZR i * (2 * PI))%R by (field; lra).
      nra. }
  destruct clockwise; lra.
Qed.

Lemma simple_points_total (k : nat) (accuracy : Z) (e : num)
    (size center : Point) (rotation : num) (clockwise : bool) :
  exists pts,
    simple_points (5 + k) accuracy e size center rotation clockwise
    = Some pts
    /\ List.length pts = (Z.to_nat accuracy - 1)%nat.
Proof.
  unfold simple_points. rewrite sample_indices.
  destruct (mapM_defined
              (simple_sample (5 + k) accuracy e size center rotation
                 clockwise)
              (map (fun j => (1 + Z.of_nat j)%Z)
                   (seq 0 (Z.to_nat accuracy - 1)))) as [pts [Hp Hl]].
  - intros i _. unfold simple_sample, squirc_sin.
    destruct (squirc_cos_total (5 + k) (sample_angle accuracy clockwise i) e)
      as [c Hc]; [lia |].
    destruct (squirc_cos_total (5 + k)
                (Math_PI / of_Z 2 - sample_angle accuracy clockwise i) e)
      as [s Hs]; [lia |].
    rewrite Hc, Hs. eexists. reflexivity.
  - exists pts. split; [exact Hp |].
    rewrite Hl, length_map, length_seq. reflexivity.
Qed.

Lemma hybridial_sample_total (k : nat) (accuracy : Z) (e : Point)
    (size center : Point) (rotation : num) (clockwise : bool) (i : Z) :
  (0 < i < accuracy)%Z ->
  exists p,
    hybridial_sample (6 + k) accuracy e size center rotation clockwise i
    = Some p.
Proof.
  intros Hi. pose proof PI_RGT_0 as Hpi.
  unfold hybridial_sample, hybridial_squircular_sin.
  destruct (sample_angle_bound accuracy clockwise i Hi) as [a [Ha Hb]].
  rewrite Ha, half_pi, Fin_sub.
  destruct (hybridial_cos_bounded_total 2 k e a) as [c [Hc _]].
  { simpl INR. apply Rabs_le. lra. }
  destruct (hybridial_cos_bounded_total 2 k
              (new_Point (y_of e) (x_of e)) (PI / 2 - a)%R) as [s [Hs _]].
  { simpl INR. apply Rabs_le. lra. }
  change (2 * 2 + 2 + k)%nat with (6 + k)%nat in Hc, Hs.
  rewrite Hc, Hs. eexists. reflexivity.
Qed.

Lemma hybridial_points_total (k : nat) (accuracy : Z) (e : Point)
    (size center : Point) (rotation : num) (clockwise : bool) :
  exists pts,
    hybridial_points (6 + k) accuracy e size center rotation clockwise
    = Some pts.
Proof.
  unfold hybridial_points.
  destruct (nge (x_of e) (Fin 1.5) && nge (y_of e) (Fin 1.5)).
  - rewrite sample_indices.
    destruct (mapM_defined
                (hybridial_sample (6 + k) accuracy e size center rotation
                   clockwise)
                (map (fun j => (1 + Z.of_nat j)%Z)
                     (seq 0 (Z.to_nat accuracy - 1)))) as [pts [Hp _]].
    + intros i Hi. apply in_map_iff in Hi. destruct Hi as [j [Hj Hin]].
      apply in_seq in Hin. apply hybridial_sample_total. lia.
    + exists pts. exact Hp.
  - destruct (nlt (x_of e) (y_of e)); eexists; reflexivity.
Qed.

(** The sampled paths: a move to the top midpoint, the sampled points, and
    the closing command. *)
Lemma squirc_sampled_shape (k : nat) (accuracy : Z) (exponent : Exponent)
    (size center : Point) (rotation : num) (clockwise : bool) :
  sampled exponent = true ->
  exists rest,
    squirc (6 + k) accuracy exponent size center rotation clockwise
    = Some (Txt "M" :: toString (top_mid size center rotation)
            ++ rest ++ [Txt "Z"]).
Proof.
  unfold sampled, squirc. destruct (collapse exponent) as [e | e]; intros Hs.
  - apply andb_true_iff in Hs. destruct Hs as [Hs H2].
    apply andb_true_iff in Hs. destruct Hs as [Hf H1].
    apply negb_true_iff in H1, H2.
    unfold squirc_simple. rewrite Hf, H1, H2. cbn [negb].
    destruct (simple_points_total (S k) accuracy e size center rotation
                clockwise) as [pts [Hp _]].
    change (5 + S k)%nat with (6 + k)%nat in Hp. rewrite Hp.
    rewrite start_anchor. eexists. reflexivity.
  - unfold hybridial_squircle.
    destruct (hybridial_points_total k accuracy e size center rotation
                clockwise) as [pts Hp].
    rewrite Hp, start_anchor.
    exists (Txt "L" :: flat_map (fun p => toString p ++ [Txt " "]) pts).
    reflexivity.
Qed.

(** ** Evaluating finite arithmetic *)

Ltac fin_norm :=
  unfold flag, of_Z, Math_PI;
  cbn [x_of y_of nneg nmul nsub nadd ncos nsin];
  repeat (rewrite Fin_div by lra; cbn [nneg nmul nsub nadd]).

Ltac fin_norm_in H :=
  unfold flag, of_Z, Math_PI in H;
  cbn [x_of y_of nneg nmul nsub nadd ncos nsin] in H;
  repeat (rewrite Fin_div in H by lra; cbn [nneg nmul nsub nadd] in H).

Lemma sampled_three : sampled (Scalar (of_Z 3)) = true.
Proof.
  unfold sampled, collapse, of_Z. cbn [isFinite neq andb].
  rewrite !Reqb_false by lra. reflexivity.
Qed.

Lemma collapse_two : collapse (Scalar (of_Z 2)) = Scalar (of_Z 2).
Proof. reflexivity. Qed.

(** The circle branch of [squirc_simple]. *)
Lemma circle_path (fuel : nat) (accuracy : Z) (size center : Point)
    (rotation : num) (clockwise : bool) :
  squirc fuel accuracy (Scalar (of_Z 2)) size center rotation clockwise =
  Some (two_arcs (x_of size / of_Z 2) (y_of size / of_Z 2) (flag clockwise)
          (if clockwise then top_mid size center rotation
           else left_mid size center rotation)
          (if clockwise then bottom_mid size center rotation
           else right_mid size center rotation)).
Proof.
  unfold squirc, squirc_simple. rewrite collapse_two.
  assert (H1 : neq (of_Z 2) (of_Z 1) = false)
    by (unfold of_Z; cbn [neq]; apply Reqb_false; lra).
  assert (H2 : neq (of_Z 2) (of_Z 2) = true)
    by (unfold of_Z; cbn [neq]; apply Reqb_refl).
  rewrite H1, H2. cbn [isFinite of_Z negb].
  destruct clockwise; reflexivity.
Qed.

Lemma append_assoc (a b c : string) :
  ((a ++ b) ++ c = a ++ (b ++ c))%string.
Proof.
  induction a as [| ch a IH]; [reflexivity |].
  cbn [String.append]. rewrite IH. reflexivity.
Qed.

Lemma append_empty (a : string) : (a ++ "" = a)%string.
Proof.
  induction a as [| ch a IH]; [reflexivity |].
  cbn [String.append]. rewrite IH. reflexivity.
Qed.

Lemma render_app (show : num -> string) (a b : path) :
  render show (a ++ b) = (render show a ++ render show b)%string.
Proof.
  induction a as [| pc a IH]; [reflexivity |].
  cbn [app]. unfold render in *. cbn [fold_right]. rewrite IH.
  destruct pc; rewrite append_assoc; reflexivity.
Qed.

(** A path whose last pieces are a point ends with the printed y
    coordinate. *)
Lemma render_ends_with_number (show : num -> string) (a : path)
    (x y : num) :
  render show (a ++ [Num x; Txt " "; Num y])
  = String.append (render show (a ++ [Num x; Txt " "])) (show y).
Proof.
  change [Num x; Txt " "; Num y] with ([Num x; Txt " "] ++ [Num y]).
  rewrite app_assoc, render_app. f_equal.
  unfold render. cbn [fold_right]. apply append_empty.
Qed.

(** Two paths that agree have the same first point. *)
Lemma first_point_eq (s : string) (p q : Point) (r r' : path) :
  Some (Txt s :: toString p ++ r) = Some (Txt s :: toString q ++ r') ->
  x_of p = x_of q /\ y_of p = y_of q.
Proof.
  cbn [toString app]. intros H. injection H as Hx Hy _. split; assumption.
Qed.

(** * The claims *)

(** C2 (as amended).  In the general sampled case (a finite exponent other
    than 1 and 2) and for every pair of different exponents, the path begins
    with a move to the rotated and translated top edge midpoint, for either
    winding: after the array of midpoints has been reversed, index 3 is again
    the top. *)
Theorem move_point_is_top_midpoint (k : nat) (accuracy : Z)
    (exponent : Exponent) (size center : Point) (rotation : num)
    (clockwise : bool) :
  sampled exponent = true ->
  exists rest,
    squirc (6 + k) accuracy exponent size center rotation clockwise
    = Some (Txt "M" :: toString (top_mid size center rotation) ++ rest).
Proof.
  intros Hs.
  destruct (squirc_sampled_shape k accuracy exponent size center rotation
              clockwise Hs) as [rest Hr].
  exists (rest ++ [Txt "Z"]). exact Hr.
Qed.

Lemma move_point_is_top_midpoint_witness :
  sampled (Scalar (of_Z 3)) = true
  /\ exists rest,
       squirc 6 default_accuracy (Scalar (of_Z 3)) default_size
         (default_center default_size) (of_Z 0) false
       = Some (Txt "M"
               :: toString (top_mid default_size
                              (default_center default_size) (of_Z 0))
               ++ rest).
Proof.
  split.
  - exact sampled_three.
  - exact (move_point_is_top_midpoint 0 default_accuracy (Scalar (of_Z 3))
             default_size (default_center default_size) (of_Z 0) false
             sampled_three).
Defined.

(** C2, the claim as stated fails: with [clockwise = false] the move point
    of [squirc(3)] is not the left edge midpoint. *)
Lemma move_point_counter_is_not_left :
  ~ exists rest,
      squirc 6 default_accuracy (Scalar (of_Z 3)) default_size
        (default_center default_size) (of_Z 0) false
      = Some (Txt "M"
              :: toString (left_mid default_size
                             (default_center default_size) (of_Z 0))
              ++ rest).
Proof.
  intros [rest H].
  destruct (squirc_sampled_shape 0 default_accuracy (Scalar (of_Z 3))
              default_size (default_center default_size) (of_Z 0) false
              sampled_three) as [rest' H'].
  change (6 + 0)%nat with 6%nat in H'. rewrite H' in H.
  apply first_point_eq in H. destruct H as [Hx _].
  unfold top_mid, left_mid, placed, rotate, add, default_center,
    default_size in Hx.
  fin_norm_in Hx. injection Hx as Hx.
  rewrite cos_0, sin_0 in Hx. lra.
Qed.

(** C3 (the code departs from the claim).  For exponent 2 the returned path
    holds no "Z" at all: it ends with the y coordinate of its starting
    point, whatever the printer of numbers, where the square, diamond and
    sampled branches all end with "Z". *)
Theorem circle_path_is_not_closed (fuel : nat) (accuracy : Z)
    (size center : Point) (rotation : num) (clockwise : bool) :
  exists p n,
    squirc fuel accuracy (Scalar (of_Z 2)) size center rotation clockwise
    = Some p
    /\ ~ In (Txt "Z") p
    /\ last p (Txt "Z") = Num n
    /\ n = y_of (if clockwise then top_mid size center rotation
                 else left_mid size center rotation)
    /\ forall show, exists s, render show p = String.append s (show n).
Proof.
  rewrite circle_path. do 2 eexists. split; [reflexivity |]. split.
  - unfold two_arcs. cbn [toString app In].
    intros H. repeat (destruct H as [H | H]; [discriminate H |]). exact H.
  - split; [reflexivity |]. split; [reflexivity |].
    intros show. unfold two_arcs. rewrite !app_comm_cons, !app_assoc.
    unfold toString at 3. rewrite render_ends_with_number.
    eexists. reflexivity.
Qed.

(** Every other branch closes its path. *)
Lemma squirc_closes_unless_circle (k : nat) (accuracy : Z)
    (exponent : Exponent) (size center : Point) (rotation : num)
    (clockwise : bool) :
  is_circle exponent = false ->
  exists body,
    squirc (6 + k) accuracy exponent size center rotation clockwise
    = Some (Txt "M" :: body ++ [Txt "Z"]).
Proof.
  intros Hc.
  destruct (sampled exponent) eqn:Hs.
  - destruct (squirc_sampled_shape k accuracy exponent size center rotation
                clockwise Hs) as [rest Hr].
    rewrite Hr. exists (toString (top_mid size center rotation) ++ rest).
    rewrite <- app_assoc. reflexivity.
  - unfold sampled in Hs. unfold is_circle in Hc. unfold squirc.
    destruct (collapse exponent) as [e | e]; [| discriminate Hs].
    rewrite Hc in Hs. unfold squirc_simple.
    destruct (isFinite e); cbn [negb].
    + destruct (neq e (of_Z 1)); [| discriminate Hs].
      match goal with
      | |- exists body, Some (_ :: ?a ++ ?b :: ?c ++ _) = _ =>
          exists (a ++ b :: c)
      end.
      rewrite <- app_assoc. reflexivity.
    + match goal with
      | |- exists body, Some (_ :: ?a ++ ?b :: ?c ++ _) = _ =>
          exists (a ++ b :: c)
      end.
      rewrite <- app_assoc. reflexivity.
Qed.

(** A midpoint or corner of an unrotated box. *)
Lemma placed_unrotated (cx cy a b : R) :
  placed (new_Point (Fin cx) (Fin cy)) (of_Z 0) (new_Point (Fin a) (Fin b))
  = new_Point (Fin (a + cx)) (Fin (b + cy)).
Proof.
  unfold placed, rotate, add. fin_norm. rewrite cos_0, sin_0.
  f_equal; apply Fin_eq; lra.
Qed.

(** C4 (as amended).  For exponent 2 the path is a move and two arcs with
    radii size.x/2 and size.y/2 and the winding flag as sweep flag.  When
    clockwise they run from the top edge midpoint to the bottom one and
    back; when counter-clockwise, from the left edge midpoint to the right
    one and back.  For size (2,2), centre (0,0), no rotation and clockwise
    winding: radius 1, from (0,-1) to (0,1) and back. *)
Theorem circle_is_two_arcs (fuel : nat) (accuracy : Z) (size center : Point)
    (rotation : num) (clockwise : bool) :
  squirc fuel accuracy (Scalar (of_Z 2)) size center rotation clockwise
  = Some (two_arcs (x_of size / of_Z 2) (y_of size / of_Z 2)
            (flag clockwise)
            (if clockwise then top_mid size center rotation
             else left_mid size center rotation)
            (if clockwise then bottom_mid size center rotation
             else right_mid size center rotation))
  /\ squirc fuel accuracy (Scalar (of_Z 2))
       (new_Point (of_Z 2) (of_Z 2)) (new_Point (of_Z 0) (of_Z 0))
       (of_Z 0) true
     = Some (two_arcs (of_Z 1) (of_Z 1) (of_Z 1)
               (new_Point (of_Z 0) (of_Z (-1)))
               (new_Point (of_Z 0) (of_Z 1))).
Proof.
  split; [apply circle_path |].
  rewrite circle_path. unfold top_mid, bottom_mid.
  cbn [x_of y_of flag]. unfold of_Z. cbn [nneg].
  rewrite !Fin_div by lra. rewrite !placed_unrotated.
  f_equal. unfold two_arcs.
  repeat (f_equal; try (apply Fin_eq; lra)).
Qed.

(** C4, the claim as stated fails: counter-clockwise, the arcs of the
    circle of size (2,2) at the origin do not start at the top edge
    midpoint. *)
Lemma circle_counter_starts_left :
  squirc 0 default_accuracy (Scalar (of_Z 2))
    (new_Point (of_Z 2) (of_Z 2)) (new_Point (of_Z 0) (of_Z 0)) (of_Z 0)
    false
  <> Some (two_arcs (of_Z 2 / of_Z 2) (of_Z 2 / of_Z 2) (flag false)
             (top_mid (new_Point (of_Z 2) (of_Z 2))
                (new_Point (of_Z 0) (of_Z 0)) (of_Z 0))
             (bottom_mid (new_Point (of_Z 2) (of_Z 2))
                (new_Point (of_Z 0) (of_Z 0)) (of_Z 0))).
Proof.
  rewrite circle_path. unfold two_arcs. intros H.
  apply first_point_eq in H. destruct H as [Hx _].
  unfold top_mid, left_mid in Hx. cbn [x_of y_of] in Hx.
  unfold of_Z in Hx. cbn [nneg] in Hx.
  rewrite !Fin_div in Hx by lra. rewrite !placed_unrotated in Hx.
  cbn [x_of] in Hx. injection Hx as Hx. lra.
Qed.

Lemma neq_refl (e : num) : isNaN e = false -> neq e e = true.
Proof.
  destruct e; cbn; intros H; try reflexivity; try discriminate H.
  apply Reqb_refl.
Qed.

(** C5.  A pair exponent with equal components gives the very path the
    number gives.  The exponent is a number proper: [NaN === NaN] is false
    in the source language, and the specification takes exponents from the
    reals and Infinity. *)
Theorem equal_pair_is_scalar (fuel : nat) (accuracy : Z) (e : num)
    (size center : Point) (rotation : num) (clockwise : bool) :
  isNaN e = false ->
  squirc fuel accuracy (Pair (new_Point e e)) size center rotation clockwise
  = squirc fuel accuracy (Scalar e) size center rotation clockwise.
Proof.
  intros He. unfold squirc, collapse. cbn [x_of y_of].
  rewrite (neq_refl e He). reflexivity.
Qed.

Lemma equal_pair_is_scalar_witness :
  isNaN (of_Z 3) = false
  /\ squirc 6 default_accuracy (Pair (new_Point (of_Z 3) (of_Z 3)))
       default_size (default_center default_size) (of_Z 0) true
     = squirc 6 default_accuracy (Scalar (of_Z 3))
         default_size (default_center default_size) (of_Z 0) true.
Proof.
  split.
  - reflexivity.
  - apply (equal_pair_is_scalar 6 default_accuracy (of_Z 3)). reflexivity.
Defined.

(** ** The Newton solve on the x axis *)

Lemma Rpower_one (e : R) : Rpower 1 e = 1%R.
Proof. unfold Rpower. rewrite ln_1, Rmult_0_r. apply exp_0. Qed.

Lemma ntan_zero : ntan (of_Z 0) = Fin 0.
Proof.
  unfold ntan, of_Z. rewrite sin_0, cos_0. rewrite Fin_div by lra.
  apply Fin_eq. lra.
Qed.

(** [Math.pow(1, e)] is 1, or not a number for an infinite or missing
    exponent. *)
Lemma npow_one (e : num) : npow (Fin 1) e = Fin 1 \/ npow (Fin 1) e = NaN.
Proof.
  destruct e as [| | | r]; cbn [npow]; auto.
  - rewrite Rabs_R1. rewrite Rltb_false by lra. rewrite Reqb_refl. auto.
  - rewrite Rabs_R1. rewrite Rltb_false by lra. rewrite Reqb_refl. auto.
  - destruct (Reqb r 0); auto.
    rewrite Reqb_false by lra. rewrite Rltb_true by lra.
    rewrite Rpower_one. auto.
Qed.

Lemma npow_one_finite (r : R) : npow (Fin 1) (Fin r) = Fin 1.
Proof.
  cbn [npow]. destruct (Reqb r 0); [reflexivity |].
  rewrite Reqb_false by lra. rewrite Rltb_true by lra.
  rewrite Rpower_one. reflexivity.
Qed.

(** [Math.pow(0, e)] is 0 for a positive exponent. *)
Lemma npow_zero (e : num) :
  nlt (of_Z 0) e = true -> npow (Fin 0) e = Fin 0.
Proof.
  destruct e as [| | | r]; cbn [nlt of_Z npow]; intros H;
    try discriminate H.
  - rewrite Rabs_R0. rewrite Rltb_false by lra.
    rewrite Reqb_false by lra. reflexivity.
  - unfold Rltb in H. destruct (Rlt_dec 0 r) as [Hr | Hr];
      [| discriminate H].
    rewrite Reqb_false by lra. rewrite Reqb_refl.
    rewrite Rltb_true by lra. reflexivity.
Qed.

(** The residual at the intercept [x = 1]. *)
Lemma newton_f_on_axis (e : Point) :
  nlt (of_Z 0) (y_of e) = true ->
  newton_f (of_Z 0) e (Fin 1) = Fin 0 \/ newton_f (of_Z 0) e (Fin 1) = NaN.
Proof.
  intros Hy. unfold newton_f. rewrite ntan_zero. cbn [nmul].
  rewrite Rmult_0_l, (npow_zero _ Hy).
  destruct (npow_one (x_of e)) as [H | H]; rewrite H.
  - left. unfold of_Z. cbn [nadd nsub nneg]. apply Fin_eq. lra.
  - right. reflexivity.
Qed.

(** One pass of the loop keeps [x] at 1, or loses it. *)
Lemma newton_step_on_axis (e : Point) (x : num) :
  nlt (of_Z 0) (y_of e) = true ->
  x = Fin 1 \/ x = NaN ->
  newton_step (of_Z 0) e x = Fin 1 \/ newton_step (of_Z 0) e x = NaN.
Proof.
  intros Hy [Hx | Hx]; subst x; unfold newton_step.
  - destruct (newton_f_on_axis e Hy) as [Hf | Hf]; rewrite Hf.
    + destruct (zero_div (newton_df (of_Z 0) e (Fin 1))) as [Hd | Hd];
        rewrite Hd.
      * left. cbn [nsub nneg nadd]. apply Fin_eq. lra.
      * right. reflexivity.
    + right. cbn [ndiv]. reflexivity.
  - right. apply NaN_sub.
Qed.

Lemma newton_cos_on_axis (e : Point) :
  nlt (of_Z 0) (y_of e) = true -> newton_cos (of_Z 0) e = of_Z 1.
Proof.
  intros Hy. unfold newton_cos.
  assert (H : forall n,
             Nat.iter n (newton_step (of_Z 0) e) (of_Z 1) = Fin 1
             \/ Nat.iter n (newton_step (of_Z 0) e) (of_Z 1) = NaN).
  { induction n as [| n IH].
    - left. reflexivity.
    - cbn [Nat.iter nat_rect]. apply newton_step_on_axis; assumption. }
  destruct (H 5%nat) as [H5 | H5]; rewrite H5; reflexivity.
Qed.

(** For finite positive exponents the loop does leave [x] at 1: the
    residual at the intercept is zero and the derivative is not. *)
Lemma newton_fixed_point_on_axis (ex ey : R) (n : nat) :
  (0 < ex)%R -> (0 < ey)%R ->
  Nat.iter n (newton_step (of_Z 0) (new_Point (Fin ex) (Fin ey))) (of_Z 1)
  = Fin 1.
Proof.
  intros Hex Hey. induction n as [| n IH]; [reflexivity |].
  cbn [Nat.iter nat_rect].
  fold (Nat.iter n (newton_step (of_Z 0) (new_Point (Fin ex) (Fin ey)))
          (of_Z 1)).
  rewrite IH. unfold newton_step, newton_f, newton_df. cbn [x_of y_of].
  rewrite ntan_zero. unfold of_Z. cbn [nmul nsub nneg nadd].
  rewrite !npow_one_finite.
  assert (Hz : forall z, z = 0%R -> npow (Fin z) (Fin ey) = Fin 0).
  { intros z ->. cbn [npow]. rewrite Reqb_false by lra. rewrite Reqb_refl.
    rewrite Rltb_true by lra. reflexivity. }
  rewrite (Hz (0 * 1)%R) by lra. rewrite (Hz 0%R) by reflexivity.
  cbn [nmul nsub nneg nadd]. rewrite Fin_div by lra.
  cbn [nadd nneg]. apply Fin_eq. unfold Rdiv. lra.
Qed.





(** ** The anisotropic cosine returns a number *)

Lemma angle_bound (a : R) :
  exists n : nat, (Rabs a <= PI / 2 + INR n * PI)%R.
Proof.
  pose proof PI_RGT_0 as Hpi.
  destruct (INR_unbounded (Rabs a / PI)) as [n Hn].
  exists n.
  assert (H : (Rabs a < INR n * PI)%R).
  { apply Rmult_lt_reg_r with (/ PI)%R.
    - apply Rinv_0_lt_compat. exact Hpi.
    - rewrite Rmult_assoc, Rinv_r by lra. unfold Rdiv in Hn. lra. }
  lra.
Qed.





(** With [exponent.x] infinite every pass of the loop is NaN, at every
    angle: [Math.pow(1, Infinity)] and [Math.pow(NaN, Infinity)] are NaN. *)
Lemma infinite_exponent_solve_is_NaN (r ey : num) (n : nat) :
  Nat.iter (S n) (newton_step r (new_Point PInf ey)) (of_Z 1) = NaN.
Proof.
  assert (Hstep : forall x, x = of_Z 1 \/ x = NaN ->
             newton_step r (new_Point PInf ey) x = NaN).
  { intros x Hx. unfold newton_step, newton_f. cbn [x_of y_of].
    assert (Hp : npow x PInf = NaN).
    { destruct Hx as [-> | ->]; [| reflexivity].
      unfold of_Z. cbn [npow]. rewrite Rabs_R1.
      rewrite Rltb_false by lra. rewrite Reqb_refl. reflexivity. }
    rewrite Hp. cbn [nadd nsub nneg]. cbn [ndiv].
    destruct x; reflexivity. }
  induction n as [| n IH].
  - cbn [Nat.iter nat_rect]. apply Hstep. left. reflexivity.
  - change (Nat.iter (S (S n)) (newton_step r (new_Point PInf ey)) (of_Z 1))
      with (newton_step r (new_Point PInf ey)
              (Nat.iter (S n) (newton_step r (new_Point PInf ey)) (of_Z 1))).
    rewrite IH. apply Hstep. right. reflexivity.
Qed.

(** So with [exponent.x] infinite the cosine is the replacement value 1 on
    the whole first quadrant. *)
Lemma infinite_exponent_falls_back (k : nat) (a : R) (ey : num) :
  (0 <= a <= PI / 2)%R ->
  hybridial_squircular_cos (S k) (Fin a) (new_Point PInf ey)
  = Some (of_Z 1).
Proof.
  intros Ha. rewrite hybridial_cos_q1 by exact Ha. unfold newton_cos.
  rewrite infinite_exponent_solve_is_NaN. reflexivity.
Qed.





(** ** Exponent 0 *)

(** The first-quadrant formula at exponent 0: [1 / Math.pow(2, Infinity)]. *)
Lemma first_quadrant_zero_exponent (t : num) :
  of_Z 1 / npow (of_Z 1 + npow t (of_Z 0)) (of_Z 1 / of_Z 0) = Fin 0.
Proof.
  assert (Hp : npow t (of_Z 0) = Fin 1).
  { unfold of_Z. cbn [npow]. rewrite Reqb_refl. reflexivity. }
  assert (Hi : of_Z 1 / of_Z 0 = PInf).
  { unfold of_Z, ndiv. rewrite Reqb_refl. rewrite Reqb_false by lra.
    rewrite Rltb_false by lra. reflexivity. }
  rewrite Hp, Hi. unfold of_Z. cbn [nadd npow].
  rewrite Rltb_true.
  - reflexivity.
  - rewrite Rabs_right; lra.
Qed.

Lemma squirc_cos_zero_exponent_value (fuel : nat) :
  forall (angle v : num),
  squirc_cos fuel angle (of_Z 0) = Some v -> v = Fin 0.
Proof.
  induction fuel as [| fuel IH]; intros angle v H.
  - discriminate H.
  - cbn [squirc_cos] in H.
    destruct (nlt (nmod angle (of_Z 2 * Math_PI)) (of_Z 0)).
    + apply (IH _ _ H).
    + destruct (ngt (nmod angle (of_Z 2 * Math_PI)) (Math_PI / of_Z 2)).
      * destruct (squirc_cos fuel
                    (Math_PI - nmod angle (of_Z 2 * Math_PI)) (of_Z 0))
          as [w |] eqn:E; [| discriminate H].
        cbn [option_map] in H. injection H as H.
        rewrite (IH _ _ E) in H. subst v. cbn [nneg]. apply Fin_eq. lra.
      * rewrite first_quadrant_zero_exponent in H.
        injection H as H. symmetry. exact H.
Qed.

(** At exponent 0 the isotropic cosine is zero at every angle. *)
Lemma squirc_cos_zero_exponent (k : nat) (angle : num) :
  squirc_cos (5 + k) angle (of_Z 0) = Some (Fin 0).
Proof.
  destruct (squirc_cos_total (5 + k) angle (of_Z 0)) as [v Hv]; [lia |].
  rewrite Hv. f_equal. exact (squirc_cos_zero_exponent_value _ _ _ Hv).
Qed.

Lemma simple_sample_zero_exponent (k : nat) (accuracy : Z)
    (sx sy cx cy r : R) (clockwise : bool) (i : Z) :
  simple_sample (5 + k) accuracy (of_Z 0)
    (new_Point (Fin sx) (Fin sy)) (new_Point (Fin cx) (Fin cy)) (Fin r)
    clockwise i
  = Some (new_Point (Fin cx) (Fin cy)).
Proof.
  unfold simple_sample, squirc_sin. rewrite !squirc_cos_zero_exponent.
  unfold rotate, add. fin_norm. f_equal. f_equal; apply Fin_eq; lra.
Qed.

Lemma zero_exponent_not_degenerate :
  isFinite (of_Z 0) = true /\ neq (of_Z 0) (of_Z 1) = false
  /\ neq (of_Z 0) (of_Z 2) = false.
Proof.
  unfold of_Z. cbn [isFinite neq]. rewrite !Reqb_false by lra.
  repeat split.
Qed.

(** The top edge midpoint is off the centre unless the box has no height. *)
Lemma top_mid_off_center (sx sy cx cy r : R) :
  sy <> 0%R ->
  top_mid (new_Point (Fin sx) (Fin sy)) (new_Point (Fin cx) (Fin cy)) (Fin r)
  <> new_Point (Fin cx) (Fin cy).
Proof.
  intros Hsy H. unfold top_mid, placed, rotate, add in H.
  fin_norm_in H. injection H as Hx Hy.
  pose proof (sin2_cos2 r) as Hsc. unfold Rsqr in Hsc.
  assert (Hs : (sy * sin r = 0)%R) by lra.
  assert (Hc : (sy * cos r = 0)%R) by lra.
  assert (H0 : (sy * sy = 0)%R) by nra.
  apply Hsy. nra.
Qed.

(** C10.  With the exponent 0 the isotropic cosine is zero at every angle,
    so the accuracy-1 line points of the path are all the centre itself;
    the move point is the top edge midpoint, which is another point as soon
    as the box has a height. *)
Theorem zero_exponent_collapses_to_center (k : nat) (accuracy : Z)
    (sx sy cx cy r : R) (clockwise : bool) :
  (forall angle, squirc_cos (5 + k) angle (of_Z 0) = Some (Fin 0))
  /\ squirc (5 + k) accuracy (Scalar (of_Z 0))
       (new_Point (Fin sx) (Fin sy)) (new_Point (Fin cx) (Fin cy)) (Fin r)
       clockwise
     = Some (Txt "M"
             :: toString (top_mid (new_Point (Fin sx) (Fin sy))
                            (new_Point (Fin cx) (Fin cy)) (Fin r))
             ++ flat_map (fun p => Txt "L" :: toString p)
                  (repeat (new_Point (Fin cx) (Fin cy))
                          (Z.to_nat accuracy - 1))
             ++ [Txt "Z"])
  /\ (sy <> 0%R ->
      top_mid (new_Point (Fin sx) (Fin sy)) (new_Point (Fin cx) (Fin cy))
        (Fin r)
      <> new_Point (Fin cx) (Fin cy)).
Proof.
  split; [intros angle; apply squirc_cos_zero_exponent |].
  split; [| apply top_mid_off_center].
  destruct zero_exponent_not_degenerate as [Hf [H1 H2]].
  unfold squirc, collapse, squirc_simple. rewrite Hf, H1, H2. cbn [negb].
  unfold simple_points. rewrite sample_indices.
  rewrite (mapM_total _ (fun _ => new_Point (Fin cx) (Fin cy))).
  - rewrite start_anchor, map_const, length_map, length_seq. reflexivity.
  - intros i _. apply simple_sample_zero_exponent.
Qed.

Lemma zero_exponent_collapses_to_center_witness :
  1%R <> 0%R
  /\ squirc 5 default_accuracy (Scalar (of_Z 0))
       (new_Point (Fin 1) (Fin 1)) (new_Point (Fin (1 / 2)) (Fin (1 / 2)))
       (Fin 0) true
     = Some (Txt "M"
             :: toString (top_mid (new_Point (Fin 1) (Fin 1))
                            (new_Point (Fin (1 / 2)) (Fin (1 / 2))) (Fin 0))
             ++ flat_map (fun p => Txt "L" :: toString p)
                  (repeat (new_Point (Fin (1 / 2)) (Fin (1 / 2))) 100)
             ++ [Txt "Z"])
  /\ top_mid (new_Point (Fin 1) (Fin 1))
       (new_Point (Fin (1 / 2)) (Fin (1 / 2))) (Fin 0)
     <> new_Point (Fin (1 / 2)) (Fin (1 / 2)).
Proof.
  assert (H1 : 1%R <> 0%R) by lra.
  destruct (zero_exponent_collapses_to_center 0 default_accuracy
              1 1 (1 / 2) (1 / 2) 0 true) as [_ [Hp Ht]].
  split; [exact H1 |]. split; [exact Hp | exact (Ht H1)].
Defined.

(** ** The walks of the explicit regime *)

Ltac Zify.zify_post_hook ::= Z.to_euclidean_division_equations.

(** [for (let i = 1; i < accuracy/4; i++)] runs for the integers [i] with
    [4 i < accuracy]. *)
Lemma quadrant_up_indices (accuracy : Z) :
  quadrant_up accuracy =
  map (fun k => (1 + Z.of_nat k)%Z)
      (seq 0 (Z.to_nat ((accuracy + 3) / 4 - 1))).
Proof.
  unfold quadrant_up. apply for_up_range.
  - lia.
  - intros j Hj. unfold of_Z. rewrite Fin_div by lra. cbn [nlt].
    apply Rltb_true.
    assert (H : (4 * j < accuracy)%Z) by lia.
    apply IZR_lt in H. rewrite mult_IZR in H. lra.
  - intros Hlt. unfold of_Z. rewrite Fin_div by lra. cbn [nlt].
    apply Rltb_false.
    assert (H : (accuracy <= 4 * (1 + Z.of_nat (Z.to_nat ((accuracy + 3) / 4 - 1))))%Z)
      by lia.
    apply IZR_le in H. rewrite mult_IZR in H. lra.
Qed.

(** [for (let i = Math.floor(accuracy/4); i >= 1; i--)]. *)
Lemma quadrant_down_indices (accuracy : Z) :
  quadrant_down accuracy =
  map (fun k => (accuracy / 4 - Z.of_nat k)%Z)
      (seq 0 (Z.to_nat (accuracy / 4))).
Proof.
  unfold quadrant_down.
  assert (Hfloor : floorZ (of_Z accuracy / of_Z 4) = (accuracy / 4)%Z).
  { unfold of_Z. rewrite Fin_div by lra. cbn [floorZ].
    destruct (Int_part_bounds (IZR accuracy / 4)) as [H1 H2].
    assert (Ha : (IZR (Int_part (IZR accuracy / 4)) * 4 <= IZR accuracy)%R)
      by lra.
    assert (Hb : (IZR accuracy < (IZR (Int_part (IZR accuracy / 4)) + 1) * 4)%R)
      by lra.
    rewrite <- mult_IZR in Ha. apply le_IZR in Ha.
    rewrite <- plus_IZR, <- mult_IZR in Hb. apply lt_IZR in Hb.
    lia. }
  rewrite Hfloor. apply for_down_range.
  - lia.
  - intros j Hj. unfold of_Z. cbn [nge nlt]. rewrite Rltb_false; [reflexivity |].
    apply IZR_le. lia.
  - intros Hlt. unfold of_Z. cbn [nge nlt]. rewrite Rltb_true; [reflexivity |].
    apply IZR_lt. lia.
Qed.

Lemma sample_x_finite (accuracy i : Z) :
  (0 < accuracy)%Z ->
  sample_x accuracy i = Fin (IZR i * (4 / IZR accuracy)).
Proof.
  intros Ha. apply IZR_lt in Ha. unfold sample_x, of_Z.
  rewrite Fin_div by lra. reflexivity.
Qed.

(** C8 (as amended).  For every integer accuracy of at least 4 the ascending
    walk runs for i = 1, 2, ..., ceil(accuracy/4) - 1, sampling
    x = i * (4/accuracy), each strictly between 0 and 1.  That is
    floor(accuracy/4) - 1 steps when 4 divides the accuracy and
    floor(accuracy/4) steps otherwise. *)
Theorem ascending_walk_steps (accuracy : Z) :
  (4 <= accuracy)%Z ->
  quadrant_up accuracy
  = map (fun k => (1 + Z.of_nat k)%Z)
        (seq 0 (Z.to_nat ((accuracy + 3) / 4 - 1)))
  /\ List.length (quadrant_up accuracy)
     = Z.to_nat ((accuracy + 3) / 4 - 1)
  /\ ((accuracy + 3) / 4 - 1
      = if (accuracy mod 4 =? 0)%Z then accuracy / 4 - 1 else accuracy / 4)%Z
  /\ forall i, In i (quadrant_up accuracy) ->
       exists x, sample_x accuracy i = Fin x
                 /\ x = (IZR i * (4 / IZR accuracy))%R
                 /\ (0 < x < 1)%R.
Proof.
  intros Hacc. split; [apply quadrant_up_indices |].
  split; [rewrite quadrant_up_indices, length_map, length_seq; reflexivity |].
  split.
  - destruct (Z.eqb_spec (accuracy mod 4) 0); lia.
  - intros i Hi. rewrite quadrant_up_indices in Hi.
    apply in_map_iff in Hi. destruct Hi as [j [Hj Hin]]. apply in_seq in Hin.
    exists (IZR i * (4 / IZR accuracy))%R.
    split; [apply sample_x_finite; lia |]. split; [reflexivity |].
    assert (Ha : (0 < IZR accuracy)%R) by (apply IZR_lt; lia).
    assert (H0 : (0 < IZR i)%R) by (apply IZR_lt; lia).
    assert (H4 : (4 * i < accuracy)%Z) by lia.
    apply IZR_lt in H4. rewrite mult_IZR in H4.
    split.
    + apply Rmult_lt_0_compat; [lra |]. apply Rdiv_lt_0_compat; lra.
    + apply Rmult_lt_reg_r with (IZR accuracy); [lra |].
      replace (IZR i * (4 / IZR accuracy) * IZR accuracy)%R
        with (4 * IZR i)%R by (field; lra).
      lra.
Qed.

Lemma ascending_walk_steps_witness :
  (4 <= default_accuracy)%Z
  /\ List.length (quadrant_up default_accuracy) = 25%nat.
Proof.
  assert (H : (4 <= default_accuracy)%Z) by (unfold default_accuracy; lia).
  split; [exact H |].
  destruct (ascending_walk_steps default_accuracy H) as [_ [Hl _]].
  exact Hl.
Defined.

(** C8, the claim as stated fails: at the default accuracy 101 the
    ascending walk takes 25 steps, and floor(101/4) - 1 is 24. *)
Lemma ascending_walk_default_has_25_steps :
  List.length (quadrant_up default_accuracy)
  <> Z.to_nat (default_accuracy / 4 - 1).
Proof.
  rewrite quadrant_up_indices, length_map, length_seq.
  vm_compute. discriminate.
Qed.

(** ** A full turn *)





Lemma hybridial_cos_reduced (k : nat) (r : R) (e : Point) :
  (0 <= r < 2 * PI)%R ->
  hybridial_squircular_cos (4 + k) (Fin r) e
  = Some (reflect (fun a => newton_cos (Fin a) e) r).
Proof.
  apply (reflect_reduced (fun n a => hybridial_squircular_cos n (Fin a) e)).
  intros n a _. apply hybridial_cos_step.
Qed.

Lemma hybridial_cos_negative (k : nat) (r : R) (e : Point) :
  (- (2 * PI) < r < 0)%R ->
  hybridial_squircular_cos (5 + k) (Fin r) e
  = Some (reflect (fun a => newton_cos (Fin a) e) (- r)).
Proof.
  apply (reflect_negative (fun n a => hybridial_squircular_cos n (Fin a) e)).
  intros n a _. apply hybridial_cos_step.
Qed.

Lemma hybridial_cos_beyond (k : nat) (r : R) (e : Point) :
  (2 * PI <= r < 5 * PI / 2)%R ->
  hybridial_squircular_cos (6 + k) (Fin r) e
  = Some (newton_cos (Fin (r - 2 * PI)) e).
Proof.
  intros Hr. pose proof PI_RGT_0 as Hpi.
  change (6 + k)%nat with (S (S (4 + k))).
  rewrite hybridial_cos_shift by lra.
  rewrite hybridial_cos_reduced by lra.
  cbn [option_map]. unfold reflect.
  rewrite Rltb_true by lra.
  rewrite (Rltb_false (3 * PI / 2)) by lra.
  destruct (Rlt_dec PI (r - PI)) as [H | H].
  - rewrite (Rltb_true _ _ H). rewrite nneg_involutive.
    do 3 f_equal. lra.
  - rewrite (Rltb_false _ _) by lra. rewrite nneg_involutive.
    do 3 f_equal. lra.
Qed.


(** ** Flipping the winding of the sampling loops *)

Lemma ntan_half_pi : ntan (Fin (PI / 2)) = PInf.
Proof.
  unfold ntan. rewrite sin_PI2, cos_PI2. unfold ndiv.
  rewrite Reqb_refl. rewrite Reqb_false by lra. rewrite Rltb_false by lra.
  reflexivity.
Qed.

(** For an exponent [r >= 0] the first-quadrant formula vanishes at
    [pi/2], where the tangent is infinite. *)
Lemma quadrant_cos_half_pi (r : R) :
  (0 <= r)%R -> quadrant_cos (PI / 2) (Fin r) = Fin 0.
Proof.
  intros Hr. unfold quadrant_cos.
  destruct (Req_dec_T r 0) as [E | E].
  - subst r. apply (first_quadrant_zero_exponent (ntan (Fin (PI / 2)))).
  - rewrite ntan_half_pi. unfold of_Z. cbn [npow].
    rewrite (Reqb_false _ _ E). rewrite Rltb_true by lra. cbn [nadd].
    rewrite Fin_div by lra. cbn [npow].
    assert (Hinv : (0 < 1 / r)%R) by (apply Rdiv_lt_0_compat; lra).
    rewrite Reqb_false by lra. rewrite Rltb_true by lra. reflexivity.
Qed.

Lemma quadrant_cos_half_pi_self_opposite (e : num) :
  isFinite e = true -> nge e (of_Z 0) = true ->
  quadrant_cos (PI / 2) e = - quadrant_cos (PI / 2) e.
Proof.
  destruct e as [| | | r]; intros Hf Hp; try discriminate Hf.
  unfold of_Z in Hp. cbn [nge nlt] in Hp. unfold Rltb in Hp.
  destruct (Rlt_dec r 0) as [H | H]; [discriminate Hp |].
  rewrite quadrant_cos_half_pi by lra. cbn [nneg]. apply Fin_eq. lra.
Qed.













(** ** Flipping the winding of the explicit regime *)







(** ** The vertices of a path *)

(** [squirc] prints the vertices of [squirc_vertices]. *)
Lemma squirc_draws_vertices (fuel : nat) (accuracy : Z)
    (exponent : Exponent) (size center : Point) (rotation : num)
    (clockwise : bool) :
  squirc fuel accuracy exponent size center rotation clockwise
  = option_map (draw exponent size clockwise)
      (squirc_vertices fuel accuracy exponent size center rotation
         clockwise).
Proof.
  unfold squirc, squirc_vertices, draw.
  destruct (collapse exponent) as [e | e].
  - unfold squirc_simple.
    destruct (isFinite e); cbn [negb orb].
    + destruct (neq e (of_Z 1)).
      * destruct clockwise; reflexivity.
      * destruct (neq e (of_Z 2)); [reflexivity |].
        destruct (simple_points fuel accuracy e size center rotation
                    clockwise); reflexivity.
    + destruct clockwise; reflexivity.
  - unfold hybridial_squircle.
    destruct (hybridial_points fuel accuracy e size center rotation
                clockwise); reflexivity.
Qed.













(** ** Swapped exponents *)

Lemma npow_positive (b e : R) :
  (0 < b)%R -> e <> 0%R -> npow (Fin b) (Fin e) = Fin (Rpower b e).
Proof.
  intros Hb He. cbn [npow]. rewrite (Reqb_false _ _ He).
  rewrite Reqb_false by lra. rewrite Rltb_true by lra. reflexivity.
Qed.

Lemma Rpower_two (x : R) : (0 < x)%R -> Rpower x 2 = (x * x)%R.
Proof.
  intros Hx. replace 2%R with (1 + 1)%R by lra.
  rewrite Rpower_plus, Rpower_1 by exact Hx. reflexivity.
Qed.

(** The first point of the ascending walk for exponents (1,2), which the
    code turns into (2,1), size (4,2), centre (0,0), no rotation, and
    accuracy 8. *)
Lemma swapped_first_point :
  quadrant_point 8 (new_Point (of_Z 2) (of_Z 1))
    (new_Point (of_Z 0) (of_Z 0)) (of_Z 0 + Math_PI / of_Z 2)
    (of_Z 1 * of_Z 4 / of_Z 2) (- of_Z 2 / of_Z 2) 1
  = new_Point (Fin (3 / 4)) (Fin 1).
Proof.
  unfold quadrant_point, hybridial_squircular_quadrant_explicit.
  rewrite sample_x_finite by lia. cbn [x_of y_of].
  rewrite half_pi. unfold of_Z. cbn [nadd nmul nneg].
  rewrite !Fin_div by lra.
  rewrite npow_positive by lra. rewrite Rpower_two by lra.
  cbn [nsub nneg nadd]. rewrite npow_positive by lra.
  replace (1 / 1)%R with 1%R by lra. rewrite Rpower_1 by lra.
  unfold rotate, add. cbn [x_of y_of nmul ncos nsin nsub nneg nadd].
  replace (0 + PI / 2)%R with (PI / 2)%R by lra.
  rewrite cos_PI2, sin_PI2. f_equal; apply Fin_eq; lra.
Qed.


Lemma Rpower_below_one (x e : R) :
  (0 < x < 1)%R -> (0 < e)%R -> (0 < Rpower x e < 1)%R.
Proof.
  intros Hx He. unfold Rpower. split; [apply exp_pos |].
  rewrite <- exp_0. apply exp_increasing.
  assert (Hln : (ln x < 0)%R).
  { rewrite <- ln_1. apply ln_increasing; lra. }
  nra.
Qed.

(** The explicit formula solves the equation it was derived from:
    [x^ex + y^ey = 1] for [0 < x < 1] and finite positive exponents. *)
Lemma quadrant_explicit_on_curve (x ex ey : R) :
  (0 < x < 1)%R -> (0 < ex)%R -> (0 < ey)%R ->
  npow (Fin x) (Fin ex)
  + npow (hybridial_squircular_quadrant_explicit (Fin x)
            (new_Point (Fin ex) (Fin ey))) (Fin ey)
  = Fin 1.
Proof.
  intros Hx Hex Hey.
  pose proof (Rpower_below_one x ex Hx Hex) as Hp.
  unfold hybridial_squircular_quadrant_explicit. cbn [x_of y_of].
  unfold of_Z. rewrite Fin_div by lra.
  rewrite (npow_positive x ex) by lra. cbn [nsub nneg nadd].
  assert (Hinv : (0 < 1 / ey)%R) by (apply Rdiv_lt_0_compat; lra).
  rewrite npow_positive by lra.
  rewrite npow_positive by (try apply exp_pos; lra).
  rewrite Rpower_mult.
  replace (1 / ey * ey)%R with 1%R by (field; lra).
  rewrite Rpower_1 by lra. cbn [nadd]. apply Fin_eq. lra.
Qed.

(** C1 (the code departs from the claim).  For exponents (1,2), size (4,2),
    centre (0,0), no rotation, clockwise, at accuracy 8, the exponents are
    swapped and the rotation becomes pi/2; the first point after the move
    point is (3/4, 1).  Translated and turned back it is still (3/4, 1),
    where [|2x/4|^1 + |2y/2|^2] is 11/8 and not 1: the swap turns the shape
    but leaves size.x and size.y where they were. *)
Theorem swapped_exponents_change_shape (fuel : nat) :
  exists rest,
    squirc_vertices fuel 8 (Pair (new_Point (of_Z 1) (of_Z 2)))
      (new_Point (of_Z 4) (of_Z 2)) (new_Point (of_Z 0) (of_Z 0))
      (of_Z 0) true
    = Some (top_mid (new_Point (of_Z 4) (of_Z 2))
              (new_Point (of_Z 0) (of_Z 0)) (of_Z 0)
            :: new_Point (Fin (3 / 4)) (Fin 1) :: rest)
    /\ superellipse_lhs (new_Point (of_Z 4) (of_Z 2))
         (new_Point (of_Z 1) (of_Z 2))
         (unplaced (new_Point (of_Z 0) (of_Z 0)) (of_Z 0)
            (new_Point (Fin (3 / 4)) (Fin 1)))
       = Fin (11 / 8).
Proof.
  eexists. split.
  - unfold squirc_vertices, collapse. cbn [x_of y_of].
    assert (Hne : neq (of_Z 1) (of_Z 2) = false)
      by (unfold of_Z; cbn [neq]; apply Reqb_false; lra).
    rewrite Hne. unfold hybridial_points. cbn [x_of y_of].
    assert (Hlow : nge (of_Z 1) (Fin 1.5) = false).
    { unfold of_Z. cbn [nge nlt]. rewrite Rltb_true by lra. reflexivity. }
    assert (Hlt : nlt (of_Z 1) (of_Z 2) = true)
      by (unfold of_Z; cbn [nlt]; apply Rltb_true; lra).
    rewrite Hlow, Hlt. cbn [andb option_map].
    unfold explicit_points. rewrite quadrant_up_indices.
    change (Z.to_nat ((8 + 3) / 4 - 1)) with 1%nat.
    cbn [seq map app x_of y_of Z.of_nat Z.add Pos.add].
    rewrite swapped_first_point. reflexivity.
  - unfold superellipse_lhs, unplaced, subtract, rotate.
    cbn [x_of y_of]. unfold of_Z. cbn [nsub nneg nadd nmul ncos nsin].
    replace (- 0)%R with 0%R by lra. rewrite cos_0, sin_0.
    rewrite !Fin_div by lra. cbn [nabs].
    replace (Rabs (2 * ((3 / 4 + 0) * 1 + - ((1 + 0) * 0)) / 4))
      with (3 / 8)%R by (rewrite Rabs_right; lra).
    replace (Rabs (2 * ((3 / 4 + 0) * 0 + (1 + 0) * 1) / 2))
      with 1%R by (rewrite Rabs_right; lra).
    rewrite npow_positive by lra. rewrite Rpower_1 by lra.
    rewrite npow_positive by lra.
    rewrite Rpower_one. cbn [nadd]. apply Fin_eq. lra.
Qed.

(** ** The Newton solve on the y axis *)

(** At [pi/2] the tangent is infinite, the first pass computes
    [Infinity / Infinity], and [x] is lost. *)
Lemma newton_step_at_half_pi (ex ey : R) :
  (0 < ex)%R -> (0 < ey)%R ->
  newton_step (Fin (PI / 2)) (new_Point (Fin ex) (Fin ey)) (Fin 1) = NaN.
Proof.
  intros Hex Hey. unfold newton_step, newton_f, newton_df.
  cbn [x_of y_of]. rewrite ntan_half_pi. unfold of_Z.
  cbn [nsub nneg nadd]. rewrite !npow_one_finite.
  assert (Hinf : PInf * Fin 1 = PInf).
  { cbn [nmul]. rewrite Reqb_false by lra. rewrite Rltb_false by lra.
    reflexivity. }
  assert (Hpow : npow PInf (Fin ey) = PInf).
  { cbn [npow]. rewrite Reqb_false by lra. rewrite Rltb_true by lra.
    reflexivity. }
  assert (Hmul : Fin ey * PInf = PInf).
  { cbn [nmul]. rewrite Reqb_false by lra. rewrite Rltb_false by lra.
    reflexivity. }
  rewrite Hinf, Hpow, Hmul, Hinf. reflexivity.
Qed.

(** The fallback at work in exact arithmetic, where the tangent at [pi/2]
    is infinite: for finite positive exponents the anisotropic cosine at
    [pi/2] is the replacement value 1. *)
Lemma cosine_at_half_pi_falls_back (k : nat) (ex ey : R) :
  (0 < ex)%R -> (0 < ey)%R ->
  isNaN (Nat.iter 5 (newton_step (Fin (PI / 2))
                       (new_Point (Fin ex) (Fin ey))) (of_Z 1)) = true
  /\ hybridial_squircular_cos (S k) (Fin (PI / 2))
       (new_Point (Fin ex) (Fin ey)) = Some (of_Z 1).
Proof.
  intros Hex Hey. pose proof PI_RGT_0 as Hpi.
  assert (Hlost : forall x n,
             x = NaN ->
             Nat.iter n (newton_step (Fin (PI / 2))
                           (new_Point (Fin ex) (Fin ey))) x = NaN).
  { intros x n ->. induction n as [| n IH]; [reflexivity |].
    cbn [Nat.iter nat_rect]. fold (Nat.iter n (newton_step (Fin (PI / 2))
                           (new_Point (Fin ex) (Fin ey))) NaN).
    rewrite IH. unfold newton_step. apply NaN_sub. }
  assert (H5 : Nat.iter 5 (newton_step (Fin (PI / 2))
                             (new_Point (Fin ex) (Fin ey))) (of_Z 1) = NaN).
  { change 5%nat with (4 + 1)%nat. rewrite Nat.iter_add.
    apply Hlost. cbn [Nat.iter nat_rect]. unfold of_Z.
    apply newton_step_at_half_pi; assumption. }
  split.
  - rewrite H5. reflexivity.
  - rewrite hybridial_cos_q1 by lra. unfold newton_cos. rewrite H5.
    reflexivity.
Qed.


(** The anisotropic cosine on the axes, for finite positive exponents:
    the replacement value 1 stands in for the true value 0 at [-pi/2] and
    at [3 pi/2], with opposite signs. *)
Lemma cosine_on_axes (k : nat) (ex ey : R) :
  (0 < ex)%R -> (0 < ey)%R ->
  let e := new_Point (Fin ex) (Fin ey) in
  hybridial_squircular_cos (6 + k) (Fin (- (PI / 2))) e = Some (Fin 1)
  /\ hybridial_squircular_cos (6 + k) (Fin (3 * PI / 2)) e = Some (Fin (-1))
  /\ hybridial_squircular_cos (6 + k) (Fin PI) e = Some (Fin (-1))
  /\ hybridial_squircular_cos (6 + k) (Fin (- PI)) e = Some (Fin (-1)).
Proof.
  intros Hex Hey e. pose proof PI_RGT_0 as Hpi.
  assert (Hy : nlt (of_Z 0) (y_of e) = true)
    by (unfold of_Z; cbn [y_of e nlt]; apply Rltb_true; lra).
  assert (H0 : newton_cos (Fin 0) e = Fin 1)
    by (apply (newton_cos_on_axis e Hy)).
  assert (H2 : newton_cos (Fin (PI / 2)) e = Fin 1).
  { destruct (cosine_at_half_pi_falls_back 0 ex ey Hex Hey) as [_ H].
    rewrite hybridial_cos_q1 in H by lra. injection H as H. exact H. }
  assert (Hpi_value : reflect (fun a => newton_cos (Fin a) e) PI
                      = Fin (-1)).
  { unfold reflect. rewrite Rltb_true by lra.
    rewrite !Rltb_false by lra.
    replace (PI - PI)%R with 0%R by lra. rewrite H0. cbn [nneg].
    apply Fin_eq. lra. }
  repeat split.
  - change (6 + k)%nat with (5 + (1 + k))%nat.
    rewrite hybridial_cos_negative by lra.
    replace (- - (PI / 2))%R with (PI / 2)%R by lra.
    unfold reflect. rewrite Rltb_false by lra. rewrite H2. reflexivity.
  - change (6 + k)%nat with (4 + (2 + k))%nat.
    rewrite hybridial_cos_reduced by lra.
    unfold reflect. rewrite !Rltb_true by lra. rewrite Rltb_false by lra.
    replace (3 * PI / 2 - PI)%R with (PI / 2)%R by lra. rewrite H2.
    reflexivity.
  - change (6 + k)%nat with (4 + (2 + k))%nat.
    rewrite hybridial_cos_reduced by lra. rewrite Hpi_value. reflexivity.
  - change (6 + k)%nat with (5 + (1 + k))%nat.
    rewrite hybridial_cos_negative by lra.
    replace (- - PI)%R with PI by lra. rewrite Hpi_value. reflexivity.
Qed.

(** Why the accuracy is odd in C6: with an even accuracy a sample falls on
    the vertical axis, and the angular regime puts it at a corner of the
    box, on the right when clockwise and on the left when
    counter-clockwise. *)
Lemma even_accuracy_flip_moves_axis_sample (k : nat) :
  let size := new_Point (of_Z 2) (of_Z 2) in
  let center := new_Point (of_Z 0) (of_Z 0) in
  let exponent := Pair (new_Point (of_Z 2) (of_Z 3)) in
  squirc_vertices (6 + k) 2 exponent size center (of_Z 0) true
  = Some [top_mid size center (of_Z 0); new_Point (Fin 1) (Fin 1)]
  /\ squirc_vertices (6 + k) 2 exponent size center (of_Z 0) false
     = Some [top_mid size center (of_Z 0); new_Point (Fin (-1)) (Fin 1)].
Proof.
  intros size center exponent. pose proof PI_RGT_0 as Hpi.
  assert (Hne : neq (of_Z 2) (of_Z 3) = false)
    by (unfold of_Z; cbn [neq]; apply Reqb_false; lra).
  assert (Hx : nge (of_Z 2) (Fin 1.5) = true).
  { unfold of_Z. cbn [nge nlt]. rewrite Rltb_false by lra. reflexivity. }
  assert (Hy : nge (of_Z 3) (Fin 1.5) = true).
  { unfold of_Z. cbn [nge nlt]. rewrite Rltb_false by lra. reflexivity. }
  destruct (cosine_on_axes k 2 3) as [A1 [A2 _]]; [lra | lra |].
  destruct (cosine_on_axes k 3 2) as [_ [_ [A3 A4]]]; [lra | lra |].
  assert (Hsample : forall cw,
             hybridial_sample (6 + k) 2 (new_Point (of_Z 2) (of_Z 3)) size
               center (of_Z 0) cw 1
             = Some (new_Point (Fin (if cw then 1 else -1)) (Fin 1))).
  { intros cw. unfold hybridial_sample, hybridial_squircular_sin.
    rewrite sample_angle_finite by lia. rewrite half_pi, Fin_sub.
    cbn [x_of y_of]. unfold of_Z at 1 2 3 4.
    destruct cw.
    - replace (PI / 2 - 1 * (2 * PI / 2))%R with (- (PI / 2))%R by lra.
      replace (PI / 2 - - (PI / 2))%R with PI by lra.
      rewrite A1, A3. unfold rotate, add, size, center. fin_norm.
      rewrite cos_0, sin_0. f_equal. f_equal; apply Fin_eq; lra.
    - replace (PI / 2 + 1 * (2 * PI / 2))%R with (3 * PI / 2)%R by lra.
      replace (PI / 2 - 3 * PI / 2)%R with (- PI)%R by lra.
      rewrite A2, A4. unfold rotate, add, size, center. fin_norm.
      rewrite cos_0, sin_0. f_equal. f_equal; apply Fin_eq; lra. }
  unfold squirc_vertices, exponent, collapse. cbn [x_of y_of].
  rewrite Hne. unfold hybridial_points. cbn [x_of y_of].
  rewrite Hx, Hy. cbn [andb]. rewrite sample_indices.
  change (Z.to_nat 2 - 1)%nat with 1%nat.
  cbn [seq map mapM Z.of_nat Z.add Pos.add]. rewrite !Hsample.
  split; reflexivity.
Qed.

(** * Further properties of the module *)

(** ** Geometry primitives *)

Lemma rotate_finite (x y a : R) :
  rotate (new_Point (Fin x) (Fin y)) (Fin a)
  = new_Point (Fin (x * cos a - y * sin a)) (Fin (x * sin a + y * cos a)).
Proof. reflexivity. Qed.

(** X1.  Two rotations of a finite point by finite angles are the rotation by
    [a + b], and the rotation by 0 leaves the point where it is. *)
Theorem rotate_composes (x y a b : R) :
  rotate (rotate (new_Point (Fin x) (Fin y)) (Fin a)) (Fin b)
  = rotate (new_Point (Fin x) (Fin y)) (Fin a + Fin b)
  /\ rotate (new_Point (Fin x) (Fin y)) (of_Z 0)
     = new_Point (Fin x) (Fin y).
Proof.
  split.
  - rewrite Fin_add, !rotate_finite, cos_plus, sin_plus.
    f_equal; apply Fin_eq; ring.
  - unfold of_Z. rewrite rotate_finite, cos_0, sin_0.
    f_equal; apply Fin_eq; ring.
Qed.

(** X2.  [rotate] keeps a finite point at its distance from the origin. *)
Theorem rotate_keeps_distance (x y a : R) :
  exists x' y',
    rotate (new_Point (Fin x) (Fin y)) (Fin a)
    = new_Point (Fin x') (Fin y')
    /\ (x' * x' + y' * y' = x * x + y * y)%R.
Proof.
  do 2 eexists. split; [apply rotate_finite |].
  pose proof (sin2_cos2 a) as H. unfold Rsqr in H. nra.
Qed.

Lemma unplaced_placed_finite (x y cx cy r : R) :
  unplaced (new_Point (Fin cx) (Fin cy)) (Fin r)
    (placed (new_Point (Fin cx) (Fin cy)) (Fin r)
       (new_Point (Fin x) (Fin y)))
  = new_Point (Fin x) (Fin y).
Proof.
  unfold unplaced, placed, subtract, add. rewrite rotate_finite.
  cbn [x_of y_of nadd nsub nneg]. rewrite rotate_finite.
  rewrite cos_neg, sin_neg.
  pose proof (sin2_cos2 r) as H. unfold Rsqr in H.
  f_equal; apply Fin_eq.
  - transitivity (x * (sin r * sin r + cos r * cos r))%R;
      [ring | rewrite H; ring].
  - transitivity (y * (sin r * sin r + cos r * cos r))%R;
      [ring | rewrite H; ring].
Qed.

(** X3.  Translating back by the centre and turning back by the rotation undoes
    [add(rotate(p, rotation), center)] for finite numbers; an infinite
    centre coordinate is not undone, [Infinity - Infinity] being NaN. *)
Theorem unplaced_placed (x y cx cy r : R) :
  unplaced (new_Point (Fin cx) (Fin cy)) (Fin r)
    (placed (new_Point (Fin cx) (Fin cy)) (Fin r)
       (new_Point (Fin x) (Fin y)))
  = new_Point (Fin x) (Fin y)
  /\ forall (p : Point) (c : num),
       x_of (subtract (add p (new_Point PInf c)) (new_Point PInf c)) = NaN.
Proof.
  split.
  - apply unplaced_placed_finite.
  - intros p c. unfold subtract, add. cbn [x_of].
    destruct (x_of p); reflexivity.
Qed.

(** ** Translation *)

Lemma nadd_assoc (x y z : num) : x + (y + z) = x + y + z.
Proof.
  destruct x, y, z; cbn [nadd]; try reflexivity.
  apply Fin_eq. ring.
Qed.

Lemma add_assoc (p c d : Point) : add p (add c d) = add (add p c) d.
Proof. unfold add. cbn [x_of y_of]. rewrite !nadd_assoc. reflexivity. Qed.

Lemma quadrant_point_shift (accuracy : Z) (e c d : Point)
    (rotation sx sy : num) (i : Z) :
  quadrant_point accuracy e (add c d) rotation sx sy i
  = add (quadrant_point accuracy e c rotation sx sy i) d.
Proof. unfold quadrant_point. apply add_assoc. Qed.

Lemma mapM_shift {A : Type} (f g : A -> option Point) (d : Point)
    (l : list A) :
  (forall a, f a = option_map (fun p => add p d) (g a)) ->
  mapM f l = option_map (map (fun p => add p d)) (mapM g l).
Proof.
  intros H. induction l as [| a rest IH]; [reflexivity |].
  cbn [mapM]. rewrite H, IH.
  destruct (g a); [| reflexivity].
  destruct (mapM g rest); reflexivity.
Qed.

(** X4.  Moving the centre by [d] moves every vertex of the path by [d], for
    every exponent, size, rotation, winding and accuracy. *)
Theorem translation_moves_vertices (fuel : nat) (accuracy : Z)
    (exponent : Exponent) (size center d : Point) (rotation : num)
    (clockwise : bool) :
  squirc_vertices fuel accuracy exponent size (add center d) rotation
    clockwise
  = option_map (map (fun p => add p d))
      (squirc_vertices fuel accuracy exponent size center rotation
         clockwise).
Proof.
  assert (Hbox : boundingBox_of size (add center d) rotation clockwise
                 = map (fun p => add p d)
                     (boundingBox_of size center rotation clockwise)).
  { unfold boundingBox_of. destruct clockwise; cbn [negb map rev app];
      rewrite !add_assoc; reflexivity. }
  assert (Hmid : edgeCenters_of size (add center d) rotation clockwise
                 = map (fun p => add p d)
                     (edgeCenters_of size center rotation clockwise)).
  { unfold edgeCenters_of. destruct clockwise; cbn [negb map rev app];
      rewrite !add_assoc; reflexivity. }
  assert (Hstart :
            (if clockwise
             then at_index (edgeCenters_of size (add center d) rotation
                              clockwise) 0
             else at_index (edgeCenters_of size (add center d) rotation
                              clockwise) 3)
            = add (if clockwise
                   then at_index (edgeCenters_of size center rotation
                                    clockwise) 0
                   else at_index (edgeCenters_of size center rotation
                                    clockwise) 3) d).
  { rewrite !start_anchor. unfold top_mid, placed. apply add_assoc. }
  unfold squirc_vertices. rewrite Hbox, Hmid.
  destruct (collapse exponent) as [e | e].
  - destruct (isFinite e); cbn [negb]; [| reflexivity].
    destruct (neq e (of_Z 1)); [reflexivity |].
    destruct (neq e (of_Z 2)).
    + rewrite <- Hmid. cbn [option_map map].
      unfold edgeCenters_of. destruct clockwise; cbn [negb map rev app];
        unfold at_index; cbn [nth]; rewrite !add_assoc; reflexivity.
    + rewrite <- Hmid, Hstart. unfold simple_points.
      rewrite (mapM_shift _
                 (simple_sample fuel accuracy e size center rotation
                    clockwise) d).
      * destruct (mapM _ _); reflexivity.
      * intros i. unfold simple_sample.
        destruct (squirc_cos fuel (sample_angle accuracy clockwise i) e);
          [| reflexivity].
        destruct (squirc_sin fuel (sample_angle accuracy clockwise i) e);
          [| reflexivity].
        cbn [option_map]. rewrite add_assoc. reflexivity.
  - rewrite <- Hmid, Hstart. unfold hybridial_points.
    destruct (nge (x_of e) (Fin 1.5) && nge (y_of e) (Fin 1.5)).
    + rewrite (mapM_shift _
                 (hybridial_sample fuel accuracy e size center rotation
                    clockwise) d).
      * destruct (mapM _ _); reflexivity.
      * intros i. unfold hybridial_sample.
        destruct (hybridial_squircular_cos fuel
                    (sample_angle accuracy clockwise i) e); [| reflexivity].
        destruct (hybridial_squircular_sin fuel
                    (sample_angle accuracy clockwise i) e); [| reflexivity].
        cbn [option_map]. rewrite add_assoc. reflexivity.
    + assert (Hexp : forall e' rot,
                 explicit_points accuracy e' size (add center d) rot
                   clockwise
                 = map (fun p => add p d)
                     (explicit_points accuracy e' size center rot
                        clockwise)).
      { intros e' rot.
        assert (Hm : forall sx sy l,
                   map (quadrant_point accuracy e' (add center d) rot sx sy)
                       l
                   = map (fun p => add p d)
                       (map (quadrant_point accuracy e' center rot sx sy)
                            l)).
        { intros sx sy l. rewrite map_map. apply map_ext. intros i.
          apply quadrant_point_shift. }
        unfold explicit_points. rewrite !Hm, !map_app. reflexivity. }
      destruct (nlt (x_of e) (y_of e)); cbn [option_map];
        rewrite Hexp; reflexivity.
Qed.

(** ** The bounding box *)

Lemma placed_finite (cx cy r x y : R) :
  placed (new_Point (Fin cx) (Fin cy)) (Fin r) (new_Point (Fin x) (Fin y))
  = new_Point (Fin (x * cos r - y * sin r + cx))
              (Fin (x * sin r + y * cos r + cy)).
Proof. reflexivity. Qed.

Lemma half_finite (a : R) : Fin a / of_Z 2 = Fin (a / 2).
Proof. unfold of_Z. apply Fin_div. lra. Qed.

Ltac box_norm :=
  unfold top_mid, right_mid, bottom_mid, left_mid, top_left, top_right,
    bottom_right, bottom_left, midpoint;
  cbn [x_of y_of nneg]; rewrite ?half_finite;
  change (of_Z 0) with (Fin 0); rewrite ?placed_finite;
  cbn [x_of y_of nadd]; rewrite ?half_finite.

(** X5.  For a finite size, centre and rotation, each edge midpoint is half way
    between the two corners of its edge. *)
Theorem edge_midpoints_between_corners (sx sy cx cy r : R) :
  let size := new_Point (Fin sx) (Fin sy) in
  let center := new_Point (Fin cx) (Fin cy) in
  top_mid size center (Fin r)
  = midpoint (top_left size center (Fin r)) (top_right size center (Fin r))
  /\ right_mid size center (Fin r)
     = midpoint (top_right size center (Fin r))
         (bottom_right size center (Fin r))
  /\ bottom_mid size center (Fin r)
     = midpoint (bottom_right size center (Fin r))
         (bottom_left size center (Fin r))
  /\ left_mid size center (Fin r)
     = midpoint (bottom_left size center (Fin r))
         (top_left size center (Fin r)).
Proof.
  intros size center. unfold size, center.
  repeat split; box_norm; f_equal; apply Fin_eq; field.
Qed.

Lemma rotated_distance (a b cx cy r : R) :
  ((a * cos r - b * sin r + cx - cx) * (a * cos r - b * sin r + cx - cx)
   + (a * sin r + b * cos r + cy - cy) * (a * sin r + b * cos r + cy - cy)
   = a * a + b * b)%R.
Proof.
  pose proof (sin2_cos2 r) as H. unfold Rsqr in H.
  transitivity ((a * a + b * b) * (sin r * sin r + cos r * cos r))%R;
    [ring | rewrite H; ring].
Qed.

(** X6.  For a finite size, centre and rotation, the four corners of the box
    lie at the same distance from the centre, half the diagonal. *)
Theorem corners_at_half_diagonal (sx sy cx cy r : R) (clockwise : bool)
    (p : Point) :
  In p (boundingBox_of (new_Point (Fin sx) (Fin sy))
          (new_Point (Fin cx) (Fin cy)) (Fin r) clockwise) ->
  exists x y,
    p = new_Point (Fin x) (Fin y)
    /\ ((x - cx) * (x - cx) + (y - cy) * (y - cy)
        = (sx * sx + sy * sy) / 4)%R.
Proof.
  intros Hin.
  assert (Hcw : In p (boundingBox_of (new_Point (Fin sx) (Fin sy))
                        (new_Point (Fin cx) (Fin cy)) (Fin r) true)).
  { destruct clockwise; [exact Hin |].
    rewrite boundingBox_counter in Hin. rewrite boundingBox_clockwise.
    cbn [In] in *. tauto. }
  rewrite boundingBox_clockwise in Hcw.
  cbn [In] in Hcw.
  destruct Hcw as [E | [E | [E | [E | []]]]]; subst p; box_norm;
    do 2 eexists; (split; [reflexivity |]);
    rewrite rotated_distance; field.
Qed.

Lemma corners_at_half_diagonal_witness :
  In (new_Point (Fin (-1)) (Fin (-1)))
     (boundingBox_of (new_Point (Fin 2) (Fin 2)) (new_Point (Fin 0) (Fin 0))
        (Fin 0) true)
  /\ exists x y,
       new_Point (Fin (-1)) (Fin (-1)) = new_Point (Fin x) (Fin y)
       /\ ((x - 0) * (x - 0) + (y - 0) * (y - 0) = (2 * 2 + 2 * 2) / 4)%R.
Proof.
  assert (Hin : In (new_Point (Fin (-1)) (Fin (-1)))
                  (boundingBox_of (new_Point (Fin 2) (Fin 2))
                     (new_Point (Fin 0) (Fin 0)) (Fin 0) true)).
  { rewrite boundingBox_clockwise. left. box_norm.
    rewrite cos_0, sin_0. f_equal; apply Fin_eq; lra. }
  split; [exact Hin |].
  exact (corners_at_half_diagonal 2 2 0 0 0 true _ Hin).
Defined.


(** The corners and edge midpoints of an unrotated box. *)
Lemma unrotated_box (sx sy cx cy : R) :
  let size := new_Point (Fin sx) (Fin sy) in
  let center := new_Point (Fin cx) (Fin cy) in
  top_left size center (of_Z 0)
  = new_Point (Fin (cx - sx / 2)) (Fin (cy - sy / 2))
  /\ top_right size center (of_Z 0)
     = new_Point (Fin (cx + sx / 2)) (Fin (cy - sy / 2))
  /\ bottom_right size center (of_Z 0)
     = new_Point (Fin (cx + sx / 2)) (Fin (cy + sy / 2))
  /\ bottom_left size center (of_Z 0)
     = new_Point (Fin (cx - sx / 2)) (Fin (cy + sy / 2))
  /\ top_mid size center (of_Z 0) = new_Point (Fin cx) (Fin (cy - sy / 2))
  /\ right_mid size center (of_Z 0) = new_Point (Fin (cx + sx / 2)) (Fin cy)
  /\ bottom_mid size center (of_Z 0)
     = new_Point (Fin cx) (Fin (cy + sy / 2))
  /\ left_mid size center (of_Z 0) = new_Point (Fin (cx - sx / 2)) (Fin cy).
Proof.
  intros size center. unfold size, center.
  repeat split; box_norm; rewrite cos_0, sin_0; f_equal; apply Fin_eq; lra.
Qed.

(** X7.  For an exponent that is not finite (Infinity, -Infinity, NaN) and no
    rotation, the path is the rectangle with corners [center -+ size/2],
    from the top left corner clockwise or from the bottom left corner
    counter-clockwise; with the default centre [size/2] it runs from the
    origin to [size]. *)
Theorem square_path (fuel : nat) (accuracy : Z) (e : num)
    (sx sy cx cy : R) (clockwise : bool) :
  isFinite e = false ->
  let tl := new_Point (Fin (cx - sx / 2)) (Fin (cy - sy / 2)) in
  let tr := new_Point (Fin (cx + sx / 2)) (Fin (cy - sy / 2)) in
  let br := new_Point (Fin (cx + sx / 2)) (Fin (cy + sy / 2)) in
  let bl := new_Point (Fin (cx - sx / 2)) (Fin (cy + sy / 2)) in
  squirc fuel accuracy (Scalar e) (new_Point (Fin sx) (Fin sy))
    (new_Point (Fin cx) (Fin cy)) (of_Z 0) clockwise
  = Some (if clockwise then quadrilateral tl tr br bl
          else quadrilateral bl br tr tl)
  /\ squirc fuel accuracy (Scalar e) (new_Point (Fin sx) (Fin sy))
       (default_center (new_Point (Fin sx) (Fin sy))) (of_Z 0) true
     = Some (quadrilateral (new_Point (Fin 0) (Fin 0))
               (new_Point (Fin sx) (Fin 0)) (new_Point (Fin sx) (Fin sy))
               (new_Point (Fin 0) (Fin sy))).
Proof.
  intros He tl tr br bl.
  assert (Hgen : forall c1 c2 cw,
             squirc fuel accuracy (Scalar e) (new_Point (Fin sx) (Fin sy))
               (new_Point (Fin c1) (Fin c2)) (of_Z 0) cw
             = Some (if cw
                     then quadrilateral
                            (new_Point (Fin (c1 - sx / 2)) (Fin (c2 - sy / 2)))
                            (new_Point (Fin (c1 + sx / 2)) (Fin (c2 - sy / 2)))
                            (new_Point (Fin (c1 + sx / 2)) (Fin (c2 + sy / 2)))
                            (new_Point (Fin (c1 - sx / 2)) (Fin (c2 + sy / 2)))
                     else quadrilateral
                            (new_Point (Fin (c1 - sx / 2)) (Fin (c2 + sy / 2)))
                            (new_Point (Fin (c1 + sx / 2)) (Fin (c2 + sy / 2)))
                            (new_Point (Fin (c1 + sx / 2)) (Fin (c2 - sy / 2)))
                            (new_Point (Fin (c1 - sx / 2))
                               (Fin (c2 - sy / 2))))).
  { intros c1 c2 cw.
    destruct (unrotated_box sx sy c1 c2) as [H1 [H2 [H3 [H4 _]]]].
    unfold squirc, collapse, squirc_simple. rewrite He. cbn [negb].
    destruct cw.
    - rewrite boundingBox_clockwise, H1, H2, H3, H4. reflexivity.
    - rewrite boundingBox_counter, H1, H2, H3, H4. reflexivity. }
  split; [apply Hgen |].
  unfold default_center. cbn [x_of y_of]. rewrite !half_finite.
  rewrite (Hgen (sx / 2)%R (sy / 2)%R true). unfold quadrilateral.
  repeat (f_equal; try (apply Fin_eq; lra)).
Qed.

Lemma square_path_witness :
  isFinite PInf = false
  /\ squirc 0 default_accuracy (Scalar PInf) (new_Point (Fin 2) (Fin 2))
       (new_Point (Fin 0) (Fin 0)) (of_Z 0) true
     = Some (quadrilateral
               (new_Point (Fin (0 - 2 / 2)) (Fin (0 - 2 / 2)))
               (new_Point (Fin (0 + 2 / 2)) (Fin (0 - 2 / 2)))
               (new_Point (Fin (0 + 2 / 2)) (Fin (0 + 2 / 2)))
               (new_Point (Fin (0 - 2 / 2)) (Fin (0 + 2 / 2)))).
Proof.
  split; [reflexivity |].
  exact (proj1 (square_path 0 default_accuracy PInf 2 2 0 0 true eq_refl)).
Defined.

(** X8.  For exponent 1 and no rotation the path is the diamond through the
    four edge midpoints [center -+ size/2] on the axes, from the top
    clockwise or from the left counter-clockwise. *)
Theorem diamond_path (fuel : nat) (accuracy : Z) (sx sy cx cy : R)
    (clockwise : bool) :
  let top := new_Point (Fin cx) (Fin (cy - sy / 2)) in
  let right := new_Point (Fin (cx + sx / 2)) (Fin cy) in
  let bottom := new_Point (Fin cx) (Fin (cy + sy / 2)) in
  let left := new_Point (Fin (cx - sx / 2)) (Fin cy) in
  squirc fuel accuracy (Scalar (of_Z 1)) (new_Point (Fin sx) (Fin sy))
    (new_Point (Fin cx) (Fin cy)) (of_Z 0) clockwise
  = Some (if clockwise then quadrilateral top right bottom left
          else quadrilateral left bottom right top).
Proof.
  intros top right bottom left.
  destruct (unrotated_box sx sy cx cy) as [_ [_ [_ [_ [H1 [H2 [H3 H4]]]]]]].
  unfold squirc, collapse, squirc_simple.
  assert (He : neq (of_Z 1) (of_Z 1) = true)
    by (unfold of_Z; cbn [neq]; apply Reqb_refl).
  rewrite He. cbn [isFinite of_Z negb].
  destruct clockwise.
  - rewrite edgeCenters_clockwise, H1, H2, H3, H4. reflexivity.
  - rewrite edgeCenters_counter, H1, H2, H3, H4. reflexivity.
Qed.

(** ** How many vertices *)

Lemma explicit_points_length (accuracy : Z) (e size center : Point)
    (rotation : num) (clockwise : bool) :
  List.length (explicit_points accuracy e size center rotation clockwise)
  = (2 * Z.to_nat ((accuracy + 3) / 4 - 1) + 2 * Z.to_nat (accuracy / 4))%nat.
Proof.
  unfold explicit_points. rewrite !length_app, !length_map.
  rewrite quadrant_up_indices, quadrant_down_indices.
  rewrite !length_map, !length_seq. lia.
Qed.

Lemma vertices_counted (k : nat) (accuracy : Z) (exponent : Exponent)
    (size center : Point) (rotation : num) (clockwise : bool) :
  exists l,
    squirc_vertices (6 + k) accuracy exponent size center rotation clockwise
    = Some l
    /\ List.length l = vertex_count accuracy exponent.
Proof.
  unfold squirc_vertices, vertex_count.
  destruct (collapse exponent) as [e | e].
  - destruct (isFinite e); cbn [negb orb].
    + destruct (neq e (of_Z 1)).
      * eexists. split; [reflexivity |]. destruct clockwise; reflexivity.
      * destruct (neq e (of_Z 2)).
        -- eexists. split; reflexivity.
        -- destruct (simple_points_total (S k) accuracy e size center
                       rotation clockwise) as [pts [Hp Hl]].
           change (5 + S k)%nat with (6 + k)%nat in Hp. rewrite Hp.
           eexists. split; [reflexivity |]. cbn [List.length]. lia.
    + eexists. split; [reflexivity |]. destruct clockwise; reflexivity.
  - unfold hybridial_points, angular.
    destruct (nge (x_of e) (Fin 1.5) && nge (y_of e) (Fin 1.5)).
    + rewrite sample_indices.
      destruct (mapM_defined
                  (hybridial_sample (6 + k) accuracy e size center rotation
                     clockwise)
                  (map (fun j => (1 + Z.of_nat j)%Z)
                       (seq 0 (Z.to_nat accuracy - 1)))) as [pts [Hp Hl]].
      * intros i Hi. apply in_map_iff in Hi. destruct Hi as [j [Hj Hin]].
        apply in_seq in Hin. apply hybridial_sample_total. lia.
      * rewrite Hp. eexists. split; [reflexivity |].
        cbn [List.length]. rewrite Hl, length_map, length_seq. lia.
    + destruct (nlt (x_of e) (y_of e)); cbn [option_map];
        eexists; (split; [reflexivity |]);
        cbn [List.length]; rewrite explicit_points_length; lia.
Qed.

(** X9.  With call depth 6 every path is produced, and it has four vertices for
    the square and the diamond, two for the circle, [max(accuracy, 1)] where
    the curve is sampled by angle, and
    [1 + 2 (ceil(accuracy/4) - 1) + 2 floor(accuracy/4)] in the explicit
    regime. *)
Theorem path_vertex_count (k : nat) (accuracy : Z) (exponent : Exponent)
    (size center : Point) (rotation : num) (clockwise : bool) :
  exists l,
    squirc_vertices (6 + k) accuracy exponent size center rotation clockwise
    = Some l
    /\ List.length l = vertex_count accuracy exponent.
Proof. apply vertices_counted. Qed.

(** X10.  When the accuracy is too small for a loop to run, the path is still
    produced: a move to the top edge midpoint and the closing command, with
    an [L] that has no coordinates when the exponents are a pair. *)
Theorem small_accuracy_paths (k : nat) (accuracy : Z) (exponent : Exponent)
    (size center : Point) (rotation : num) (clockwise : bool) :
  sampled exponent = true ->
  vertex_count accuracy exponent = 1%nat ->
  squirc (6 + k) accuracy exponent size center rotation clockwise
  = Some (Txt "M" :: toString (top_mid size center rotation)
          ++ match collapse exponent with
             | Scalar _ => [Txt "Z"]
             | Pair _ => [Txt "L"; Txt "Z"]
             end)
  /\ (accuracy <= 3)%Z.
Proof.
  intros Hs Hc.
  destruct (vertices_counted k accuracy exponent size center rotation
              clockwise) as [l [Hl Hn]].
  rewrite Hc in Hn. rewrite squirc_draws_vertices, Hl. cbn [option_map].
  unfold squirc_vertices in Hl. unfold draw, sampled, vertex_count in *.
  destruct (collapse exponent) as [e | e].
  - apply andb_true_iff in Hs. destruct Hs as [Hs H2].
    apply andb_true_iff in Hs. destruct Hs as [Hf H1].
    apply negb_true_iff in H1, H2. rewrite Hf, H1, H2 in *.
    cbn [negb orb] in *. split; [| lia].
    destruct (simple_points (6 + k) accuracy e size center rotation
                clockwise) as [pts |]; [| discriminate Hl].
    cbn [option_map] in Hl. injection Hl as <-.
    rewrite start_anchor in *.
    destruct pts as [| p pts]; [reflexivity | discriminate Hn].
  - split.
    + destruct (hybridial_points (6 + k) accuracy e size center rotation
                  clockwise) as [pts |]; [| discriminate Hl].
      cbn [option_map] in Hl. injection Hl as <-.
      rewrite start_anchor in *.
      destruct pts as [| p pts]; [reflexivity | discriminate Hn].
    + destruct (angular e); lia.
Qed.

Lemma small_accuracy_paths_witness :
  sampled (Scalar (of_Z 3)) = true
  /\ vertex_count 1 (Scalar (of_Z 3)) = 1%nat
  /\ squirc 6 1 (Scalar (of_Z 3)) default_size
       (default_center default_size) (of_Z 0) true
     = Some (Txt "M"
             :: toString (top_mid default_size (default_center default_size)
                            (of_Z 0))
             ++ [Txt "Z"]).
Proof.
  assert (Hc : vertex_count 1 (Scalar (of_Z 3)) = 1%nat).
  { unfold vertex_count, collapse, of_Z. cbn [isFinite neq negb orb].
    rewrite !Reqb_false by lra. reflexivity. }
  split; [exact sampled_three |]. split; [exact Hc |].
  exact (proj1 (small_accuracy_paths 0 1 (Scalar (of_Z 3)) default_size
                  (default_center default_size) (of_Z 0) true
                  sampled_three Hc)).
Defined.

(** ** The isotropic evaluator in the first quadrant *)

Lemma Rpower_inv_base (x e : R) :
  (0 < x)%R -> Rpower (/ x) e = (/ Rpower x e)%R.
Proof.
  intros Hx. unfold Rpower. rewrite ln_Rinv by exact Hx.
  rewrite <- exp_Ropp. f_equal. ring.
Qed.

Lemma Rpower_ge_one (x e : R) :
  (1 <= x)%R -> (0 < e)%R -> (1 <= Rpower x e)%R.
Proof.
  intros Hx He. unfold Rpower. rewrite <- exp_0.
  destruct (Req_dec_T x 1) as [-> | Hne].
  - rewrite ln_1, Rmult_0_r. lra.
  - left. apply exp_increasing.
    assert (Hln : (0 < ln x)%R).
    { rewrite <- ln_1. apply ln_increasing; lra. }
    nra.
Qed.

Lemma ntan_open (x : R) :
  (0 < x < PI / 2)%R -> ntan (Fin x) = Fin (tan x) /\ (0 < tan x)%R.
Proof.
  intros Hx. assert (Hc : (0 < cos x)%R) by (apply cos_gt_0; lra).
  split.
  - unfold ntan, tan. apply Fin_div. lra.
  - apply tan_gt_0; lra.
Qed.

(** The closed form inside the first quadrant. *)
Lemma quadrant_cos_open (x e : R) :
  (0 < x < PI / 2)%R -> (0 < e)%R ->
  quadrant_cos x (Fin e)
  = Fin (/ Rpower (1 + Rpower (tan x) e) (/ e)).
Proof.
  intros Hx He. destruct (ntan_open x Hx) as [Ht Hpos].
  unfold quadrant_cos. rewrite Ht. unfold of_Z.
  rewrite npow_positive by lra. cbn [nadd].
  rewrite Fin_div by lra.
  assert (HT : (0 < Rpower (tan x) e)%R) by apply exp_pos.
  assert (Hinv : (0 < 1 / e)%R) by (apply Rdiv_lt_0_compat; lra).
  rewrite npow_positive by lra.
  assert (HU : (0 < Rpower (1 + Rpower (tan x) e) (1 / e))%R)
    by apply exp_pos.
  rewrite Fin_div by lra.
  apply Fin_eq. unfold Rdiv. rewrite !Rmult_1_l. reflexivity.
Qed.

Lemma quadrant_cos_zero_angle (e : R) :
  (0 < e)%R -> quadrant_cos 0 (Fin e) = Fin 1.
Proof.
  intros He. unfold quadrant_cos.
  change (Fin 0) with (of_Z 0). rewrite ntan_zero. unfold of_Z.
  cbn [npow]. rewrite Reqb_false by lra. rewrite Reqb_refl.
  rewrite Rltb_true by lra. cbn [nadd]. rewrite Fin_div by lra.
  assert (Hinv : (0 < 1 / e)%R) by (apply Rdiv_lt_0_compat; lra).
  rewrite npow_positive by lra.
  replace (1 + 0)%R with 1%R by lra. rewrite Rpower_one.
  rewrite Fin_div by lra. apply Fin_eq. lra.
Qed.

Lemma tan_complement (x : R) :
  (0 < x < PI / 2)%R -> tan (PI / 2 - x) = (/ tan x)%R.
Proof.
  intros Hx. unfold tan. rewrite sin_shift, cos_shift.
  assert (Hc : (0 < cos x)%R) by (apply cos_gt_0; lra).
  assert (Hs : (0 < sin x)%R) by (apply sin_gt_0; lra).
  field. lra.
Qed.

(** In the first quadrant the pair (cosine, sine) is the point of the unit
    superellipse on the ray at the given angle. *)
Lemma first_quadrant_pair (x e : R) :
  (0 <= x <= PI / 2)%R -> (0 < e)%R ->
  exists c s,
    quadrant_cos x (Fin e) = Fin c
    /\ quadrant_cos (PI / 2 - x) (Fin e) = Fin s
    /\ (0 <= c <= 1)%R /\ (0 <= s <= 1)%R
    /\ npow (Fin c) (Fin e) + npow (Fin s) (Fin e) = Fin 1
    /\ (s * cos x = c * sin x)%R.
Proof.
  intros Hx He. pose proof PI_RGT_0 as Hpi.
  assert (Hz : npow (Fin 0) (Fin e) = Fin 0).
  { cbn [npow]. rewrite Reqb_false by lra. rewrite Reqb_refl.
    rewrite Rltb_true by lra. reflexivity. }
  destruct (Req_dec_T x 0) as [E0 | E0].
  { subst x. exists 1%R, 0%R.
    replace (PI / 2 - 0)%R with (PI / 2)%R by lra.
    rewrite quadrant_cos_zero_angle, quadrant_cos_half_pi by lra.
    rewrite npow_one_finite, Hz, sin_0, cos_0.
    repeat split; try lra. cbn [nadd]. apply Fin_eq. lra. }
  destruct (Req_dec_T x (PI / 2)) as [E2 | E2].
  { subst x. exists 0%R, 1%R.
    replace (PI / 2 - PI / 2)%R with 0%R by lra.
    rewrite quadrant_cos_zero_angle, quadrant_cos_half_pi by lra.
    rewrite npow_one_finite, Hz, sin_PI2, cos_PI2.
    repeat split; try lra. cbn [nadd]. apply Fin_eq. lra. }
  assert (Hopen : (0 < x < PI / 2)%R) by lra.
  assert (Hopen' : (0 < PI / 2 - x < PI / 2)%R) by lra.
  destruct (ntan_open x Hopen) as [_ Ht].
  rewrite (quadrant_cos_open x e Hopen He).
  rewrite (quadrant_cos_open (PI / 2 - x) e Hopen' He).
  rewrite (tan_complement x Hopen), (Rpower_inv_base (tan x) e Ht).
  set (T := Rpower (tan x) e).
  assert (HT : (0 < T)%R) by apply exp_pos.
  assert (HiT : (0 < / T)%R) by (apply Rinv_0_lt_compat; exact HT).
  assert (Hie : (0 < / e)%R) by (apply Rinv_0_lt_compat; exact He).
  set (U := Rpower (1 + T) (/ e)).
  set (V := Rpower (1 + / T) (/ e)).
  assert (HU : (1 <= U)%R) by (apply Rpower_ge_one; lra).
  assert (HV : (1 <= V)%R) by (apply Rpower_ge_one; lra).
  assert (HUe : Rpower (/ U) e = (/ (1 + T))%R).
  { rewrite Rpower_inv_base by lra. unfold U. rewrite Rpower_mult.
    replace (/ e * e)%R with 1%R by (field; lra).
    rewrite Rpower_1 by lra. reflexivity. }
  assert (HVe : Rpower (/ V) e = (/ (1 + / T))%R).
  { rewrite Rpower_inv_base by lra. unfold V. rewrite Rpower_mult.
    replace (/ e * e)%R with 1%R by (field; lra).
    rewrite Rpower_1 by lra. reflexivity. }
  assert (HUV : U = (tan x * V)%R).
  { unfold U, V.
    replace (1 + T)%R with (T * (1 + / T))%R by (field; lra).
    rewrite <- Rpower_mult_distr by lra. f_equal.
    unfold T. rewrite Rpower_mult.
    replace (e * / e)%R with 1%R by (field; lra).
    apply Rpower_1. exact Ht. }
  assert (HiU : (0 < / U <= 1)%R).
  { split; [apply Rinv_0_lt_compat; lra |].
    rewrite <- Rinv_1. apply Rinv_le_contravar; lra. }
  assert (HiV : (0 < / V <= 1)%R).
  { split; [apply Rinv_0_lt_compat; lra |].
    rewrite <- Rinv_1. apply Rinv_le_contravar; lra. }
  exists (/ U)%R, (/ V)%R.
  split; [reflexivity |]. split; [reflexivity |].
  split; [lra |]. split; [lra |]. split.
  - rewrite !npow_positive by lra. rewrite HUe, HVe. cbn [nadd].
    apply Fin_eq. field. lra.
  - assert (Hc : (0 < cos x)%R) by (apply cos_gt_0; lra).
    rewrite HUV. unfold tan. field. split; [lra |].
    assert (Hs : (0 < sin x)%R) by (apply sin_gt_0; lra). lra.
Qed.

(** ** The isotropic cosine modulo a full turn *)

Lemma Int_part_unique (q : R) (z : Z) :
  (IZR z <= q < IZR z + 1)%R -> Int_part q = z.
Proof.
  intros Hq. symmetry. apply Int_part_spec. lra.
Qed.

(** [angle % (2 pi)] for an angle [r + 2 pi m] with [0 <= r < 2 pi]: the
    remainder keeps the sign of the angle. *)
Lemma nmod_turns (r : R) (m : Z) :
  (0 <= r < 2 * PI)%R ->
  nmod (Fin (r + 2 * PI * IZR m)) (Fin (2 * PI))
  = Fin (if (m <? 0)%Z && Rltb 0 r then r - 2 * PI else r).
Proof.
  intros Hr. pose proof PI_RGT_0 as Hpi.
  unfold nmod. rewrite Reqb_false by lra. apply Fin_eq.
  assert (Hq : ((r + 2 * PI * IZR m) / (2 * PI)
                = r / (2 * PI) + IZR m)%R) by (field; lra).
  assert (Hf : (0 <= r / (2 * PI) < 1)%R).
  { split.
    - apply Rmult_le_reg_r with (2 * PI)%R; [lra |].
      unfold Rdiv. rewrite Rmult_assoc, Rinv_l by lra. lra.
    - apply Rmult_lt_reg_r with (2 * PI)%R; [lra |].
      unfold Rdiv. rewrite Rmult_assoc, Rinv_l by lra. lra. }
  rewrite Hq. unfold Rtrunc.
  destruct (Z.ltb_spec m 0) as [Hm | Hm]; cbn [andb].
  - assert (Hm1 : (IZR m <= -1)%R) by (apply IZR_le; lia).
    rewrite Rltb_true by lra.
    destruct (Rlt_dec 0 r) as [H0 | H0].
    + rewrite (Rltb_true _ _ H0).
      assert (Hpos : (0 < r / (2 * PI))%R).
      { apply Rmult_lt_reg_r with (2 * PI)%R; [lra |].
        unfold Rdiv. rewrite Rmult_assoc, Rinv_l by lra. lra. }
      rewrite (Int_part_unique _ (- m - 1)%Z).
      * rewrite opp_IZR, minus_IZR, opp_IZR. lra.
      * rewrite minus_IZR, opp_IZR. lra.
    + rewrite (Rltb_false 0 r) by lra.
      assert (Hr0 : r = 0%R) by lra. subst r.
      rewrite (Int_part_unique _ (- m)%Z).
      * rewrite opp_IZR, opp_IZR. lra.
      * rewrite opp_IZR. unfold Rdiv. lra.
  - assert (Hm0 : (0 <= IZR m)%R) by (apply IZR_le; lia).
    rewrite Rltb_false by lra.
    rewrite (Int_part_unique _ m) by lra. lra.
Qed.

Lemma squirc_cos_of_remainder (k : nat) (a r0 : R) (e : num) :
  nmod (Fin a) (Fin (2 * PI)) = Fin r0 ->
  (- (2 * PI) < r0 < 2 * PI)%R ->
  squirc_cos (S k) (Fin a) e = squirc_cos (S k) (Fin r0) e.
Proof.
  intros Hm Hr. cbn [squirc_cos].
  rewrite two_pi, Hm, nmod_small by lra. reflexivity.
Qed.

(** [squirc_cos] depends on the angle only through its remainder in
    [0, 2 pi), provided the first-quadrant formula vanishes at [pi/2]. *)
Lemma squirc_cos_mod_turn (k : nat) (r : R) (m : Z) (e : num) :
  (0 <= r < 2 * PI)%R ->
  quadrant_cos (PI / 2) e = - quadrant_cos (PI / 2) e ->
  squirc_cos (5 + k) (Fin (r + 2 * PI * IZR m)) e
  = Some (reflect (fun a => quadrant_cos a e) r).
Proof.
  intros Hr Hz. pose proof PI_RGT_0 as Hpi.
  pose proof (nmod_turns r m Hr) as Hm.
  destruct ((m <? 0)%Z && Rltb 0 r) eqn:Hneg.
  - apply andb_true_iff in Hneg. destruct Hneg as [_ H0].
    unfold Rltb in H0. destruct (Rlt_dec 0 r) as [Hpos | ]; [| discriminate].
    change (5 + k)%nat with (S (4 + k)).
    rewrite (squirc_cos_of_remainder _ _ _ _ Hm) by lra.
    change (S (4 + k)) with (5 + k)%nat.
    rewrite squirc_cos_negative by lra. f_equal.
    replace (- (r - 2 * PI))%R with (2 * PI - r)%R by lra.
    apply reflect_mirror; [lra | left; exact Hz].
  - change (5 + k)%nat with (S (4 + k)).
    rewrite (squirc_cos_of_remainder _ _ _ _ Hm) by lra.
    change (S (4 + k)) with (4 + S k)%nat.
    apply squirc_cos_reduced. exact Hr.
Qed.

(** Every angle is a remainder in [0, 2 pi) plus whole turns. *)
Lemma whole_turns (a : R) :
  exists (r : R) (m : Z),
    a = (r + 2 * PI * IZR m)%R /\ (0 <= r < 2 * PI)%R.
Proof.
  pose proof PI_RGT_0 as Hpi.
  exists (a - 2 * PI * IZR (Int_part (a / (2 * PI))))%R,
         (Int_part (a / (2 * PI))).
  split; [ring |].
  destruct (Int_part_bounds (a / (2 * PI))) as [H1 H2].
  assert (Ha : (a = 2 * PI * (a / (2 * PI)))%R) by (field; lra).
  split; nra.
Qed.

(** X11.  For a finite exponent [e >= 0], [squirc_cos] is even and has period
    [2 pi] on all finite angles. *)
Theorem squirc_cos_even_periodic (k : nat) (a : R) (e : num) :
  isFinite e = true -> nge e (of_Z 0) = true ->
  squirc_cos (5 + k) (Fin (- a)) e = squirc_cos (5 + k) (Fin a) e
  /\ squirc_cos (5 + k) (Fin (a + 2 * PI)) e
     = squirc_cos (5 + k) (Fin a) e.
Proof.
  intros Hf Hp. pose proof PI_RGT_0 as Hpi.
  pose proof (quadrant_cos_half_pi_self_opposite e Hf Hp) as Hz.
  destruct (whole_turns a) as [r [m [Ha Hr]]].
  rewrite Ha at 2 4. rewrite (squirc_cos_mod_turn k r m e Hr Hz).
  split.
  - destruct (Req_dec_T r 0) as [E | E].
    + replace (- a)%R with (r + 2 * PI * IZR (- m))%R
        by (rewrite opp_IZR; lra).
      apply squirc_cos_mod_turn; assumption.
    + replace (- a)%R with (2 * PI - r + 2 * PI * IZR (- m - 1))%R
        by (rewrite minus_IZR, opp_IZR; lra).
      rewrite squirc_cos_mod_turn by (lra || exact Hz).
      f_equal. apply reflect_mirror; [lra | left; exact Hz].
  - replace (a + 2 * PI)%R with (r + 2 * PI * IZR (m + 1))%R
      by (rewrite plus_IZR; lra).
    apply squirc_cos_mod_turn; assumption.
Qed.

Lemma nonneg_three :
  isFinite (of_Z 3) = true /\ nge (of_Z 3) (of_Z 0) = true.
Proof.
  split; [reflexivity |].
  unfold of_Z. cbn [nge nlt]. rewrite Rltb_false by lra. reflexivity.
Qed.

Lemma squirc_cos_even_periodic_witness :
  isFinite (of_Z 3) = true /\ nge (of_Z 3) (of_Z 0) = true
  /\ squirc_cos 5 (Fin (- 1)) (of_Z 3) = squirc_cos 5 (Fin 1) (of_Z 3)
  /\ squirc_cos 5 (Fin (1 + 2 * PI)) (of_Z 3) = squirc_cos 5 (Fin 1) (of_Z 3).
Proof.
  destruct nonneg_three as [Hf Hp].
  split; [exact Hf |]. split; [exact Hp |].
  exact (squirc_cos_even_periodic 0 1 (of_Z 3) Hf Hp).
Defined.

(** ** The isotropic evaluator on the whole circle *)

Lemma cos_turns (r : R) (m : Z) : cos (r + 2 * PI * IZR m) = cos r.
Proof.
  destruct (Z_lt_le_dec m 0) as [Hm | Hm].
  - rewrite <- (cos_period (r + 2 * PI * IZR m) (Z.to_nat (- m))).
    f_equal. rewrite INR_IZR_INZ, Z2Nat.id by lia. rewrite opp_IZR. ring.
  - rewrite <- (cos_period r (Z.to_nat m)).
    f_equal. rewrite INR_IZR_INZ, Z2Nat.id by lia. ring.
Qed.

Lemma sin_turns (r : R) (m : Z) : sin (r + 2 * PI * IZR m) = sin r.
Proof.
  destruct (Z_lt_le_dec m 0) as [Hm | Hm].
  - rewrite <- (sin_period (r + 2 * PI * IZR m) (Z.to_nat (- m))).
    f_equal. rewrite INR_IZR_INZ, Z2Nat.id by lia. rewrite opp_IZR. ring.
  - rewrite <- (sin_period r (Z.to_nat m)).
    f_equal. rewrite INR_IZR_INZ, Z2Nat.id by lia. ring.
Qed.

Lemma cos_supplement (x : R) : cos (PI - x) = (- cos x)%R.
Proof. rewrite cos_minus, cos_PI, sin_PI. ring. Qed.

Lemma cos_full_minus (x : R) : cos (2 * PI - x) = cos x.
Proof. rewrite cos_minus, cos_2PI, sin_2PI. ring. Qed.

Lemma sin_full_minus (x : R) : sin (2 * PI - x) = (- sin x)%R.
Proof. rewrite sin_minus, cos_2PI, sin_2PI. ring. Qed.

(** Cosine and sine of any finite angle are, up to sign, the first-quadrant
    formula at an angle [x] and at its complement, and the signs are those
    of the circular cosine and sine. *)
Lemma squirc_pair_quadrant (k : nat) (a : R) (e : num) :
  quadrant_cos (PI / 2) e = - quadrant_cos (PI / 2) e ->
  exists x nc ns,
    (0 <= x <= PI / 2)%R
    /\ squirc_cos (5 + k) (Fin a) e = Some (flipped nc (quadrant_cos x e))
    /\ squirc_sin (5 + k) (Fin a) e
       = Some (flipped ns (quadrant_cos (PI / 2 - x) e))
    /\ cos a = flippedR nc (cos x)
    /\ sin a = flippedR ns (sin x).
Proof.
  intros Hz. pose proof PI_RGT_0 as Hpi.
  destruct (whole_turns a) as [r [m [Ha Hr]]]. subst a.
  unfold squirc_sin. rewrite half_pi, Fin_sub.
  rewrite cos_turns, sin_turns.
  rewrite (squirc_cos_mod_turn k r m e Hr Hz).
  destruct (Rle_dec r (PI / 2)) as [H1 | H1].
  { (* first quadrant *)
    exists r, false, false. split; [lra |].
    replace (PI / 2 - (r + 2 * PI * IZR m))%R
      with (PI / 2 - r + 2 * PI * IZR (- m))%R
      by (rewrite opp_IZR; ring).
    rewrite squirc_cos_mod_turn by (lra || exact Hz).
    unfold reflect. rewrite !Rltb_false by lra.
    repeat split; reflexivity. }
  replace (PI / 2 - (r + 2 * PI * IZR m))%R
    with (5 * PI / 2 - r + 2 * PI * IZR (- m - 1))%R
    by (rewrite minus_IZR, opp_IZR; field).
  rewrite squirc_cos_mod_turn by (lra || exact Hz).
  unfold reflect. rewrite (Rltb_true (PI / 2) r) by lra.
  rewrite (Rltb_true (PI / 2) (5 * PI / 2 - r)) by lra.
  destruct (Rle_dec r PI) as [H2 | H2].
  { (* second quadrant *)
    exists (PI - r)%R, true, false. split; [lra |].
    rewrite (Rltb_false PI r) by lra.
    rewrite (Rltb_true PI (5 * PI / 2 - r)) by lra.
    cbn [flipped flippedR].
    rewrite cos_supplement, sin_PI_x.
    split; [reflexivity |]. split; [| split; ring].
    destruct (Req_dec_T r PI) as [E | E].
    - rewrite Rltb_false by lra. subst r.
      replace (5 * PI / 2 - PI - PI)%R with (PI / 2)%R by lra.
      replace (PI / 2 - (PI - PI))%R with (PI / 2)%R by lra.
      rewrite <- Hz. reflexivity.
    - rewrite Rltb_true by lra. do 2 f_equal. lra. }
  destruct (Rle_dec r (3 * PI / 2)) as [H3 | H3].
  { (* third quadrant *)
    exists (r - PI)%R, true, true. split; [lra |].
    rewrite (Rltb_true PI r) by lra.
    rewrite (Rltb_false (3 * PI / 2) r) by lra.
    rewrite (Rltb_false (3 * PI / 2) (5 * PI / 2 - r)) by lra.
    cbn [flipped flippedR].
    replace (cos r) with (cos (r - PI + PI)) by (f_equal; ring).
    replace (sin r) with (sin (r - PI + PI)) by (f_equal; ring).
    rewrite neg_cos, neg_sin.
    split; [reflexivity |]. split; [| split; reflexivity].
    destruct (Req_dec_T r (3 * PI / 2)) as [E | E].
    - rewrite Rltb_false by lra. do 3 f_equal. lra.
    - rewrite Rltb_true by lra. do 3 f_equal. lra. }
  (* fourth quadrant *)
  exists (2 * PI - r)%R, false, true. split; [lra |].
  rewrite (Rltb_true PI r) by lra.
  rewrite (Rltb_true (3 * PI / 2) r) by lra.
  rewrite (Rltb_false PI (5 * PI / 2 - r)) by lra.
  cbn [flipped flippedR].
  rewrite cos_full_minus, sin_full_minus.
  split; [reflexivity |]. split; [| split; ring].
  do 3 f_equal. lra.
Qed.

(** The values of the two isotropic functions at a finite angle. *)
Lemma isotropic_point_values (k : nat) (a e : R) :
  (0 < e)%R ->
  exists c s,
    squirc_cos (5 + k) (Fin a) (Fin e) = Some (Fin c)
    /\ squirc_sin (5 + k) (Fin a) (Fin e) = Some (Fin s)
    /\ npow (Fin (Rabs c)) (Fin e) + npow (Fin (Rabs s)) (Fin e) = Fin 1
    /\ (Rabs c <= 1)%R /\ (Rabs s <= 1)%R
    /\ (s * cos a = c * sin a)%R
    /\ (0 <= c * cos a)%R /\ (0 <= s * sin a)%R.
Proof.
  intros He. pose proof PI_RGT_0 as Hpi.
  assert (Hz : quadrant_cos (PI / 2) (Fin e)
               = - quadrant_cos (PI / 2) (Fin e)).
  { rewrite quadrant_cos_half_pi by lra. cbn [nneg]. apply Fin_eq. lra. }
  destruct (squirc_pair_quadrant k a (Fin e) Hz)
    as [x [nc [ns [Hx [Hc [Hs [Hcos Hsin]]]]]]].
  destruct (first_quadrant_pair x e Hx He)
    as [c0 [s0 [Hc0 [Hs0 [Bc [Bs [Hid Hray]]]]]]].
  assert (Hcx : (0 <= cos x)%R) by (apply cos_ge_0; lra).
  assert (Hsx : (0 <= sin x)%R) by (apply sin_ge_0; lra).
  rewrite Hc, Hs, Hc0, Hs0, Hcos, Hsin.
  exists (flippedR nc c0), (flippedR ns s0).
  assert (Hac : Rabs (flippedR nc c0) = c0).
  { destruct nc; cbn [flippedR]; [rewrite Rabs_Ropp |];
      apply Rabs_pos_eq; lra. }
  assert (Has : Rabs (flippedR ns s0) = s0).
  { destruct ns; cbn [flippedR]; [rewrite Rabs_Ropp |];
      apply Rabs_pos_eq; lra. }
  rewrite Hac, Has.
  split; [destruct nc; reflexivity |].
  split; [destruct ns; reflexivity |].
  split; [exact Hid |]. split; [lra |]. split; [lra |].
  destruct nc, ns; cbn [flippedR]; repeat split; nra.
Qed.



(** ** Vertices on the superellipse *)

(** A placed point [(size.x/2 * u, size.y/2 * v)] is on the superellipse
    when [|u|^ex + |v|^ey = 1]. *)
Lemma placed_on_superellipse (sx sy cx cy r u v : R) (exponent : Point) :
  sx <> 0%R -> sy <> 0%R ->
  npow (Fin (Rabs u)) (x_of exponent) + npow (Fin (Rabs v)) (y_of exponent)
  = Fin 1 ->
  on_superellipse (new_Point (Fin sx) (Fin sy)) exponent
    (new_Point (Fin cx) (Fin cy)) (Fin r)
    (placed (new_Point (Fin cx) (Fin cy)) (Fin r)
       (new_Point (Fin (sx / 2 * u)) (Fin (sy / 2 * v)))).
Proof.
  intros Hsx Hsy H. unfold on_superellipse.
  rewrite (unplaced_placed_finite _ _ cx cy r).
  unfold superellipse_lhs. cbn [x_of y_of]. unfold of_Z. cbn [nmul].
  rewrite !Fin_div by assumption. cbn [nabs].
  replace (2 * (sx / 2 * u) / sx)%R with u by (field; assumption).
  replace (2 * (sy / 2 * v) / sy)%R with v by (field; assumption).
  exact H.
Qed.

Lemma axis_power (e : R) :
  (0 < e)%R ->
  npow (Fin (Rabs 0)) (Fin e) = Fin 0
  /\ npow (Fin (Rabs 1)) (Fin e) = Fin 1
  /\ npow (Fin (Rabs (-1))) (Fin e) = Fin 1.
Proof.
  intros He.
  replace (Rabs (-1)) with 1%R
    by (rewrite <- (Rabs_Ropp (-1)); replace (- -1)%R with 1%R by lra;
        symmetry; apply Rabs_R1).
  rewrite Rabs_R0, Rabs_R1, npow_one_finite. repeat split.
  cbn [npow]. rewrite Reqb_false by lra. rewrite Reqb_refl.
  rewrite Rltb_true by lra. reflexivity.
Qed.

(** The four edge midpoints are on the superellipse for all finite
    positive exponents. *)
Lemma midpoints_on_superellipse (sx sy cx cy r ex ey : R) :
  sx <> 0%R -> sy <> 0%R -> (0 < ex)%R -> (0 < ey)%R ->
  let size := new_Point (Fin sx) (Fin sy) in
  let center := new_Point (Fin cx) (Fin cy) in
  let e := new_Point (Fin ex) (Fin ey) in
  on_superellipse size e center (Fin r) (top_mid size center (Fin r))
  /\ on_superellipse size e center (Fin r) (right_mid size center (Fin r))
  /\ on_superellipse size e center (Fin r) (bottom_mid size center (Fin r))
  /\ on_superellipse size e center (Fin r) (left_mid size center (Fin r)).
Proof.
  intros Hsx Hsy Hex Hey size center e. unfold size, center, e.
  destruct (axis_power ex Hex) as [X0 [X1 Xm]].
  destruct (axis_power ey Hey) as [Y0 [Y1 Ym]].
  unfold top_mid, right_mid, bottom_mid, left_mid.
  cbn [x_of y_of nneg]. rewrite !half_finite. change (of_Z 0) with (Fin 0).
  repeat split.
  - replace (Fin 0) with (Fin (sx / 2 * 0)) by (apply Fin_eq; lra).
    replace (Fin (- sy / 2)) with (Fin (sy / 2 * -1))
      by (apply Fin_eq; lra).
    apply placed_on_superellipse; try assumption. cbn [x_of y_of].
    rewrite X0, Ym. cbn [nadd]. apply Fin_eq. lra.
  - replace (Fin 0) with (Fin (sy / 2 * 0)) by (apply Fin_eq; lra).
    replace (Fin (sx / 2)) with (Fin (sx / 2 * 1)) by (apply Fin_eq; lra).
    apply placed_on_superellipse; try assumption. cbn [x_of y_of].
    rewrite X1, Y0. cbn [nadd]. apply Fin_eq. lra.
  - replace (Fin 0) with (Fin (sx / 2 * 0)) by (apply Fin_eq; lra).
    replace (Fin (sy / 2)) with (Fin (sy / 2 * 1)) by (apply Fin_eq; lra).
    apply placed_on_superellipse; try assumption. cbn [x_of y_of].
    rewrite X0, Y1. cbn [nadd]. apply Fin_eq. lra.
  - replace (Fin 0) with (Fin (sy / 2 * 0)) by (apply Fin_eq; lra).
    replace (Fin (- sx / 2)) with (Fin (sx / 2 * -1))
      by (apply Fin_eq; lra).
    apply placed_on_superellipse; try assumption. cbn [x_of y_of].
    rewrite Xm, Y0. cbn [nadd]. apply Fin_eq. lra.
Qed.

Lemma some_eq {A : Type} (a b : A) : Some a = Some b -> a = b.
Proof. intros H. congruence. Qed.

Lemma mapM_forall {A B : Type} (f : A -> option B) (P : B -> Prop)
    (l : list A) (bs : list B) :
  (forall a b, f a = Some b -> P b) ->
  mapM f l = Some bs -> forall b, In b bs -> P b.
Proof.
  intros Hf. revert bs. induction l as [| a rest IH]; intros bs H b Hb.
  - injection H as <-. contradiction.
  - cbn [mapM] in H. destruct (f a) as [b0 |] eqn:E; [| discriminate H].
    destruct (mapM f rest) as [bs0 |]; [| discriminate H].
    injection H as <-. destruct Hb as [<- | Hb].
    + apply (Hf a). exact E.
    + apply (IH bs0 eq_refl). exact Hb.
Qed.

(** Every point the sampling loop of [squirc_simple] appends is on the
    superellipse. *)
Lemma simple_sample_on_superellipse (k : nat) (accuracy : Z)
    (e sx sy cx cy r : R) (clockwise : bool) (i : Z) (p : Point) :
  (0 < e)%R -> sx <> 0%R -> sy <> 0%R -> (0 < accuracy)%Z ->
  simple_sample (5 + k) accuracy (Fin e) (new_Point (Fin sx) (Fin sy))
    (new_Point (Fin cx) (Fin cy)) (Fin r) clockwise i = Some p ->
  on_superellipse (new_Point (Fin sx) (Fin sy))
    (new_Point (Fin e) (Fin e)) (new_Point (Fin cx) (Fin cy)) (Fin r) p.
Proof.
  intros He Hsx Hsy Hacc. unfold simple_sample.
  rewrite sample_angle_finite by exact Hacc.
  set (a := if clockwise
            then (PI / 2 - IZR i * (2 * PI / IZR accuracy))%R
            else (PI / 2 + IZR i * (2 * PI / IZR accuracy))%R).
  destruct (isotropic_point_values k a e He)
    as [c [s [Hc [Hs [Hid _]]]]].
  rewrite Hc, Hs. intros H. apply some_eq in H. subst p.
  cbn [x_of y_of nneg]. rewrite !half_finite. cbn [nmul].
  apply (placed_on_superellipse sx sy cx cy r c (- s)); try assumption.
  cbn [x_of y_of]. rewrite Rabs_Ropp. exact Hid.
Qed.


(** X13.  For every finite exponent [e > 0], a box with non-zero finite sides, a
    finite centre and rotation, every vertex of the path lies on the
    superellipse [|2x/size.x|^e + |2y/size.y|^e = 1] once it is translated
    and turned back: the move point and all sampled points, and the
    midpoints used by the diamond and circle branches. *)
Theorem isotropic_vertices_on_superellipse (k : nat) (accuracy : Z)
    (e sx sy cx cy r : R) (clockwise : bool) :
  (0 < e)%R -> sx <> 0%R -> sy <> 0%R ->
  exists l,
    squirc_vertices (5 + k) accuracy (Scalar (Fin e))
      (new_Point (Fin sx) (Fin sy)) (new_Point (Fin cx) (Fin cy)) (Fin r)
      clockwise = Some l
    /\ forall p, In p l ->
         on_superellipse (new_Point (Fin sx) (Fin sy))
           (new_Point (Fin e) (Fin e)) (new_Point (Fin cx) (Fin cy))
           (Fin r) p.
Proof.
  intros He Hsx Hsy.
  destruct (midpoints_on_superellipse sx sy cx cy r e e Hsx Hsy He He)
    as [Ht [Hr [Hb Hl]]].
  unfold squirc_vertices, collapse. cbn [isFinite negb].
  destruct (neq (Fin e) (of_Z 1)).
  { eexists. split; [reflexivity |]. intros p Hp.
    destruct clockwise.
    - rewrite edgeCenters_clockwise in Hp. cbn [In] in Hp.
      destruct Hp as [<- | [<- | [<- | [<- | []]]]]; assumption.
    - rewrite edgeCenters_counter in Hp. cbn [In] in Hp.
      destruct Hp as [<- | [<- | [<- | [<- | []]]]]; assumption. }
  destruct (neq (Fin e) (of_Z 2)).
  { eexists. split; [reflexivity |]. intros p Hp.
    destruct clockwise.
    - rewrite edgeCenters_clockwise in Hp. cbn [In at_index nth] in Hp.
      destruct Hp as [<- | [<- | []]]; assumption.
    - rewrite edgeCenters_counter in Hp. cbn [In at_index nth] in Hp.
      destruct Hp as [<- | [<- | []]]; assumption. }
  destruct (simple_points_total k accuracy (Fin e)
              (new_Point (Fin sx) (Fin sy)) (new_Point (Fin cx) (Fin cy))
              (Fin r) clockwise) as [pts [Hp Hlen]].
  rewrite Hp, start_anchor. cbn [option_map].
  eexists. split; [reflexivity |]. intros p [<- | Hin]; [exact Ht |].
  destruct (Z_lt_le_dec 0 accuracy) as [Hacc | Hacc].
  - unfold simple_points in Hp.
    apply (mapM_forall _ _ _ _
             (fun i q => simple_sample_on_superellipse k accuracy e sx sy
                           cx cy r clockwise i q He Hsx Hsy Hacc)
             Hp p Hin).
  - replace (Z.to_nat accuracy - 1)%nat with 0%nat in Hlen by lia.
    destruct pts; [contradiction | discriminate Hlen].
Qed.

Lemma isotropic_vertices_on_superellipse_witness :
  (0 < 3)%R /\ 1%R <> 0%R
  /\ exists l,
       squirc_vertices 5 default_accuracy (Scalar (Fin 3))
         (new_Point (Fin 1) (Fin 1)) (new_Point (Fin 0) (Fin 0)) (Fin 0)
         true = Some l
       /\ forall p, In p l ->
            on_superellipse (new_Point (Fin 1) (Fin 1))
              (new_Point (Fin 3) (Fin 3)) (new_Point (Fin 0) (Fin 0))
              (Fin 0) p.
Proof.
  assert (H3 : (0 < 3)%R) by lra.
  assert (H1 : 1%R <> 0%R) by lra.
  split; [exact H3 |]. split; [exact H1 |].
  exact (isotropic_vertices_on_superellipse 0 default_accuracy 3 1 1 0 0 0
           true H3 H1 H1).
Defined.

(** ** The explicit regime on the superellipse *)

(** The explicit formula at [0 < x <= 1]: a finite [y >= 0] with
    [x^ex + y^ey = 1]. *)
Lemma quadrant_explicit_value (x ex ey : R) :
  (0 < x <= 1)%R -> (0 < ex)%R -> (0 < ey)%R ->
  exists y,
    hybridial_squircular_quadrant_explicit (Fin x)
      (new_Point (Fin ex) (Fin ey)) = Fin y
    /\ (0 <= y)%R
    /\ npow (Fin x) (Fin ex) + npow (Fin y) (Fin ey) = Fin 1.
Proof.
  intros Hx Hex Hey.
  assert (Hinv : (0 < 1 / ey)%R) by (apply Rdiv_lt_0_compat; lra).
  assert (Hz : forall t, (0 < t)%R -> npow (Fin 0) (Fin t) = Fin 0).
  { intros t Ht. cbn [npow]. rewrite Reqb_false by lra. rewrite Reqb_refl.
    rewrite Rltb_true by lra. reflexivity. }
  unfold hybridial_squircular_quadrant_explicit. cbn [x_of y_of].
  unfold of_Z. rewrite Fin_div by lra.
  destruct (Req_dec_T x 1) as [-> | Hne].
  - exists 0%R. rewrite npow_one_finite. cbn [nsub nneg nadd].
    replace (1 + - (1))%R with 0%R by lra. rewrite !Hz by lra.
    split; [reflexivity |]. split; [lra |]. apply Fin_eq. lra.
  - assert (Hp : (0 < Rpower x ex < 1)%R)
      by (apply Rpower_below_one; lra).
    rewrite (npow_positive x ex) by lra. cbn [nsub nneg nadd].
    rewrite npow_positive by lra.
    exists (Rpower (1 + - Rpower x ex) (1 / ey)).
    split; [reflexivity |]. split; [left; apply exp_pos |].
    rewrite npow_positive by (try apply exp_pos; lra).
    rewrite Rpower_mult.
    replace (1 / ey * ey)%R with 1%R by (field; lra).
    rewrite Rpower_1 by lra. cbn [nadd]. apply Fin_eq. lra.
Qed.

Lemma quadrant_point_on_superellipse (accuracy : Z)
    (ex ey sx sy cx cy r alpha beta : R) (i : Z) :
  (0 < ex)%R -> (0 < ey)%R -> sx <> 0%R -> sy <> 0%R ->
  Rabs alpha = 1%R -> Rabs beta = 1%R ->
  (0 < i)%Z -> (4 * i <= accuracy)%Z ->
  on_superellipse (new_Point (Fin sx) (Fin sy))
    (new_Point (Fin ex) (Fin ey)) (new_Point (Fin cx) (Fin cy)) (Fin r)
    (quadrant_point accuracy (new_Point (Fin ex) (Fin ey))
       (new_Point (Fin cx) (Fin cy)) (Fin r)
       (Fin (sx / 2 * alpha)) (Fin (sy / 2 * beta)) i).
Proof.
  intros Hex Hey Hsx Hsy Ha Hb Hi Hacc.
  assert (Hpos : (0 < accuracy)%Z) by lia.
  assert (HA : (0 < IZR accuracy)%R) by (apply IZR_lt; lia).
  assert (HI : (0 < IZR i)%R) by (apply IZR_lt; lia).
  assert (H4 : (4 * IZR i <= IZR accuracy)%R).
  { rewrite <- mult_IZR. apply IZR_le. exact Hacc. }
  assert (Hx : (0 < IZR i * (4 / IZR accuracy) <= 1)%R).
  { split.
    - apply Rmult_lt_0_compat; [lra |]. apply Rdiv_lt_0_compat; lra.
    - apply Rmult_le_reg_r with (IZR accuracy); [lra |].
      replace (IZR i * (4 / IZR accuracy) * IZR accuracy)%R
        with (4 * IZR i)%R by (field; lra).
      lra. }
  unfold quadrant_point. rewrite sample_x_finite by exact Hpos.
  destruct (quadrant_explicit_value _ ex ey Hx Hex Hey) as [y [Hy [Hy0 Hid]]].
  rewrite Hy. cbn [nmul].
  replace (Fin (sx / 2 * alpha * (IZR i * (4 / IZR accuracy))))
    with (Fin (sx / 2 * (alpha * (IZR i * (4 / IZR accuracy)))))
    by (apply Fin_eq; ring).
  replace (Fin (sy / 2 * beta * y)) with (Fin (sy / 2 * (beta * y)))
    by (apply Fin_eq; ring).
  apply (placed_on_superellipse sx sy cx cy r); try assumption.
  cbn [x_of y_of]. rewrite (Rabs_mult alpha), (Rabs_mult beta).
  rewrite Ha, Hb, !Rmult_1_l.
  rewrite (Rabs_pos_eq y) by exact Hy0.
  rewrite Rabs_pos_eq by lra. exact Hid.
Qed.

Lemma quadrant_up_bounds (accuracy i : Z) :
  In i (quadrant_up accuracy) -> (0 < i)%Z /\ (4 * i <= accuracy)%Z.
Proof.
  rewrite quadrant_up_indices. intros H. apply in_map_iff in H.
  destruct H as [j [Hj Hin]]. apply in_seq in Hin. lia.
Qed.

Lemma quadrant_down_bounds (accuracy i : Z) :
  In i (quadrant_down accuracy) -> (0 < i)%Z /\ (4 * i <= accuracy)%Z.
Proof.
  rewrite quadrant_down_indices. intros H. apply in_map_iff in H.
  destruct H as [j [Hj Hin]]. apply in_seq in Hin. lia.
Qed.

Lemma nadd_comm (a b : num) : a + b = b + a.
Proof.
  destruct a, b; cbn [nadd]; try reflexivity. apply Fin_eq. apply Rplus_comm.
Qed.

(** The four walks are made of [quadrant_point]s with coefficients
    [+- size.x / 2] and [+- size.y / 2] at indices [0 < i <= accuracy / 4]. *)
Lemma explicit_points_forall (Q : Point -> Prop) (accuracy : Z)
    (exponent center : Point) (rotation : num) (sx sy : R)
    (clockwise : bool) :
  (forall alpha beta i,
      Rabs alpha = 1%R -> Rabs beta = 1%R ->
      (0 < i)%Z -> (4 * i <= accuracy)%Z ->
      Q (quadrant_point accuracy exponent center rotation
           (Fin (sx / 2 * alpha)) (Fin (sy / 2 * beta)) i)) ->
  forall p,
    In p (explicit_points accuracy exponent (new_Point (Fin sx) (Fin sy))
            center rotation clockwise) ->
    Q p.
Proof.
  intros HQ p. unfold explicit_points. cbn [x_of y_of].
  assert (Hone : Rabs 1 = 1%R) by apply Rabs_R1.
  assert (Hmone : Rabs (- (1)) = 1%R) by (rewrite Rabs_Ropp; apply Rabs_R1).
  assert (Hp : forall a, Fin 1 * Fin a / of_Z 2 = Fin (a / 2 * 1)).
  { intros a. cbn [nmul]. rewrite half_finite. apply Fin_eq. field. }
  assert (Hm : forall a, Fin (- (1)) * Fin a / of_Z 2 = Fin (a / 2 * - (1))).
  { intros a. cbn [nmul]. rewrite half_finite. apply Fin_eq. field. }
  assert (Hq : forall a, Fin a / of_Z 2 = Fin (a / 2 * 1)).
  { intros a. rewrite half_finite. apply Fin_eq. field. }
  assert (Hn : forall a, Fin (- a) / of_Z 2 = Fin (a / 2 * - (1))).
  { intros a. rewrite half_finite. apply Fin_eq. field. }
  assert (Hnn : Fin (- - (1)) = Fin 1) by (apply Fin_eq; lra).
  intros Hin. rewrite !in_app_iff, !in_map_iff in Hin.
  destruct clockwise; change (of_Z 1) with (Fin 1) in Hin;
    cbn [nneg] in Hin; rewrite ?Hnn in Hin;
    rewrite ?Hp, ?Hm, ?Hn in Hin; rewrite ?Hq in Hin;
    destruct Hin as [[i [<- Hi]] | [[i [<- Hi]] | [[i [<- Hi]] | [i [<- Hi]]]]];
    match type of Hi with
    | In _ (quadrant_up _) => apply quadrant_up_bounds in Hi
    | In _ (quadrant_down _) => apply quadrant_down_bounds in Hi
    end;
    destruct Hi as [Hi0 Hi4]; apply HQ; assumption.
Qed.

(** With the exponents swapped and the rotation advanced by a quarter turn,
    a walk point lies on the superellipse of the exponents as passed when
    the box is a square. *)
Lemma quadrant_point_swapped_on_superellipse (accuracy : Z)
    (ex ey s cx cy r alpha beta : R) (i : Z) :
  (0 < ex)%R -> (0 < ey)%R -> s <> 0%R ->
  Rabs alpha = 1%R -> Rabs beta = 1%R ->
  (0 < i)%Z -> (4 * i <= accuracy)%Z ->
  on_superellipse (new_Point (Fin s) (Fin s))
    (new_Point (Fin ex) (Fin ey)) (new_Point (Fin cx) (Fin cy)) (Fin r)
    (quadrant_point accuracy (new_Point (Fin ey) (Fin ex))
       (new_Point (Fin cx) (Fin cy)) (Fin r + Math_PI / of_Z 2)
       (Fin (s / 2 * alpha)) (Fin (s / 2 * beta)) i).
Proof.
  intros Hex Hey Hs Ha Hb Hi Hacc.
  assert (Hpos : (0 < accuracy)%Z) by lia.
  assert (HA : (0 < IZR accuracy)%R) by (apply IZR_lt; lia).
  assert (HI : (0 < IZR i)%R) by (apply IZR_lt; lia).
  assert (H4 : (4 * IZR i <= IZR accuracy)%R).
  { rewrite <- mult_IZR. apply IZR_le. exact Hacc. }
  assert (Hx : (0 < IZR i * (4 / IZR accuracy) <= 1)%R).
  { split.
    - apply Rmult_lt_0_compat; [lra |]. apply Rdiv_lt_0_compat; lra.
    - apply Rmult_le_reg_r with (IZR accuracy); [lra |].
      replace (IZR i * (4 / IZR accuracy) * IZR accuracy)%R
        with (4 * IZR i)%R by (field; lra).
      lra. }
  unfold quadrant_point. rewrite sample_x_finite by exact Hpos.
  destruct (quadrant_explicit_value _ ey ex Hx Hey Hex) as [y [Hy [Hy0 Hid]]].
  rewrite Hy, half_pi. cbn [nmul nadd]. rewrite rotate_finite.
  rewrite cos_plus, sin_plus, cos_PI2, sin_PI2.
  set (x := (IZR i * (4 / IZR accuracy))%R) in *.
  replace (new_Point
             (Fin (s / 2 * alpha * x * (cos r * 0 - sin r * 1)
                   - s / 2 * beta * y * (sin r * 0 + cos r * 1)))
             (Fin (s / 2 * alpha * x * (sin r * 0 + cos r * 1)
                   + s / 2 * beta * y * (cos r * 0 - sin r * 1))))
    with (rotate (new_Point (Fin (s / 2 * (- beta * y)))
                            (Fin (s / 2 * (alpha * x)))) (Fin r))
    by (rewrite rotate_finite; f_equal; apply Fin_eq; ring).
  apply (placed_on_superellipse s s cx cy r); try assumption.
  cbn [x_of y_of]. rewrite (Rabs_mult (- beta)), (Rabs_mult alpha).
  rewrite Rabs_Ropp, Ha, Hb, !Rmult_1_l.
  rewrite (Rabs_pos_eq y) by exact Hy0.
  rewrite (Rabs_pos_eq x) by lra.
  rewrite <- Hid. apply nadd_comm.
Qed.

(** X14.  Where no swap takes place ([0 < ey < ex] and [ey < 1.5]), every vertex
    of the anisotropic path lies on the superellipse
    [|2x/size.x|^ex + |2y/size.y|^ey = 1], for a box with non-zero finite
    sides and a finite centre and rotation. *)
Theorem explicit_vertices_on_superellipse (fuel : nat) (accuracy : Z)
    (ex ey sx sy cx cy r : R) (clockwise : bool) :
  (0 < ey < ex)%R -> (ey < 1.5)%R -> sx <> 0%R -> sy <> 0%R ->
  exists l,
    squirc_vertices fuel accuracy (Pair (new_Point (Fin ex) (Fin ey)))
      (new_Point (Fin sx) (Fin sy)) (new_Point (Fin cx) (Fin cy)) (Fin r)
      clockwise = Some l
    /\ forall p, In p l ->
         on_superellipse (new_Point (Fin sx) (Fin sy))
           (new_Point (Fin ex) (Fin ey)) (new_Point (Fin cx) (Fin cy))
           (Fin r) p.
Proof.
  intros He Hlow Hsx Hsy.
  destruct (midpoints_on_superellipse sx sy cx cy r ex ey Hsx Hsy)
    as [Ht _]; [lra | lra |].
  unfold squirc_vertices, collapse. cbn [x_of y_of neq].
  rewrite Reqb_false by lra. unfold hybridial_points. cbn [x_of y_of].
  assert (Hy : nge (Fin ey) (Fin 1.5) = false).
  { cbn [nge nlt]. rewrite Rltb_true by lra. reflexivity. }
  rewrite Hy, andb_false_r. cbn [nlt]. rewrite Rltb_false by lra.
  rewrite start_anchor. cbn [option_map].
  eexists. split; [reflexivity |]. intros p [<- | Hin]; [exact Ht |].
  revert p Hin. apply explicit_points_forall. intros alpha beta i Ha Hb Hi Hacc.
  apply quadrant_point_on_superellipse; (lra || assumption).
Qed.

Lemma explicit_vertices_on_superellipse_witness :
  (0 < 1 / 2 < 2)%R /\ (1 / 2 < 1.5)%R /\ 20%R <> 0%R /\ 10%R <> 0%R
  /\ exists l,
       squirc_vertices 0 default_accuracy
         (Pair (new_Point (Fin 2) (Fin (1 / 2))))
         (new_Point (Fin 20) (Fin 10)) (new_Point (Fin 10) (Fin 5)) (Fin 0)
         true = Some l
       /\ forall p, In p l ->
            on_superellipse (new_Point (Fin 20) (Fin 10))
              (new_Point (Fin 2) (Fin (1 / 2))) (new_Point (Fin 10) (Fin 5))
              (Fin 0) p.
Proof.
  assert (H1 : (0 < 1 / 2 < 2)%R) by lra.
  assert (H2 : (1 / 2 < 1.5)%R) by lra.
  assert (H3 : 20%R <> 0%R) by lra.
  assert (H4 : 10%R <> 0%R) by lra.
  split; [exact H1 |]. split; [exact H2 |].
  split; [exact H3 |]. split; [exact H4 |].
  exact (explicit_vertices_on_superellipse 0 default_accuracy 2 (1 / 2)
           20 10 10 5 0 true H1 H2 H3 H4).
Defined.


(** X15.  Where the swap takes place ([0 < ex < ey] and [ex < 1.5]) and the box
    is a square with a non-zero finite side, every vertex of the
    anisotropic path still lies on the superellipse of the exponents as
    passed: on a square the swap with the quarter turn draws the requested
    curve. *)
Theorem swapped_vertices_on_superellipse_square (fuel : nat) (accuracy : Z)
    (ex ey s cx cy r : R) (clockwise : bool) :
  (0 < ex < ey)%R -> (ex < 1.5)%R -> s <> 0%R ->
  exists l,
    squirc_vertices fuel accuracy (Pair (new_Point (Fin ex) (Fin ey)))
      (new_Point (Fin s) (Fin s)) (new_Point (Fin cx) (Fin cy)) (Fin r)
      clockwise = Some l
    /\ forall p, In p l ->
         on_superellipse (new_Point (Fin s) (Fin s))
           (new_Point (Fin ex) (Fin ey)) (new_Point (Fin cx) (Fin cy))
           (Fin r) p.
Proof.
  intros He Hlow Hs.
  destruct (midpoints_on_superellipse s s cx cy r ex ey Hs Hs)
    as [Ht _]; [lra | lra |].
  unfold squirc_vertices, collapse. cbn [x_of y_of neq].
  rewrite Reqb_false by lra. unfold hybridial_points. cbn [x_of y_of].
  assert (Hx : nge (Fin ex) (Fin 1.5) = false).
  { cbn [nge nlt]. rewrite Rltb_true by lra. reflexivity. }
  rewrite Hx, andb_false_l. cbn [nlt]. rewrite Rltb_true by lra.
  rewrite start_anchor. cbn [option_map].
  eexists. split; [reflexivity |]. intros p [<- | Hin]; [exact Ht |].
  revert p Hin. apply explicit_points_forall. intros alpha beta i Ha Hb Hi Hacc.
  apply quadrant_point_swapped_on_superellipse; (lra || assumption).
Qed.

Lemma swapped_vertices_on_superellipse_square_witness :
  (0 < 1 / 2 < 2)%R /\ (1 / 2 < 1.5)%R /\ 10%R <> 0%R
  /\ exists l,
       squirc_vertices 0 default_accuracy
         (Pair (new_Point (Fin (1 / 2)) (Fin 2)))
         (new_Point (Fin 10) (Fin 10)) (new_Point (Fin 5) (Fin 5)) (Fin 0)
         true = Some l
       /\ forall p, In p l ->
            on_superellipse (new_Point (Fin 10) (Fin 10))
              (new_Point (Fin (1 / 2)) (Fin 2)) (new_Point (Fin 5) (Fin 5))
              (Fin 0) p.
Proof.
  assert (H1 : (0 < 1 / 2 < 2)%R) by lra.
  assert (H2 : (1 / 2 < 1.5)%R) by lra.
  assert (H3 : 10%R <> 0%R) by lra.
  split; [exact H1 |]. split; [exact H2 |]. split; [exact H3 |].
  exact (swapped_vertices_on_superellipse_square 0 default_accuracy (1 / 2) 2
           10 5 5 0 true H1 H2 H3).
Defined.


(** ** The Newton solve in the open first quadrant *)

Lemma ln_tangent (z m : R) :
  (0 < z)%R -> (0 < m)%R -> (ln z <= ln m + (z - m) / m)%R.
Proof.
  intros Hz Hm.
  assert (Hq : (0 < z / m)%R) by (apply Rdiv_lt_0_compat; assumption).
  pose proof (exp_ineq1_le (ln (z / m))) as H.
  rewrite exp_ln in H by exact Hq.
  unfold Rdiv in H at 1. rewrite ln_mult in H
    by (try apply Rinv_0_lt_compat; assumption).
  rewrite ln_Rinv in H by exact Hm.
  replace ((z - m) / m)%R with (z / m - 1)%R by (field; lra). lra.
Qed.

(** Bernoulli's inequality for a real exponent [a >= 1]. *)
Lemma Rpower_bernoulli (a u : R) :
  (1 <= a)%R -> (0 < u)%R -> (1 + a * (u - 1) <= Rpower u a)%R.
Proof.
  intros Ha Hu. set (X := Rpower u a).
  assert (HX : (0 < X)%R) by apply exp_pos.
  set (w := (1 / a)%R).
  assert (Hw : (0 < w <= 1)%R).
  { unfold w. split; [apply Rdiv_lt_0_compat; lra |].
    apply Rmult_le_reg_r with a; [lra |].
    replace (1 / a * a)%R with 1%R by (field; lra). lra. }
  set (M := (1 + w * (X - 1))%R).
  assert (HM : (0 < M)%R) by (unfold M; nra).
  pose proof (ln_tangent X M HX HM) as H1.
  pose proof (ln_tangent 1 M Rlt_0_1 HM) as H2. rewrite ln_1 in H2.
  assert (HlnX : ln X = (a * ln u)%R) by (unfold X, Rpower; apply ln_exp).
  assert (Hlu : (ln u <= ln M)%R).
  { replace (ln u) with (w * ln X)%R
      by (rewrite HlnX; unfold w; field; lra).
    assert (E : ((X - M) / M * w + (1 - M) / M * (1 - w) = 0)%R)
      by (unfold M; field; fold M; lra).
    assert (A1 : (w * ln X <= w * (ln M + (X - M) / M))%R)
      by (apply Rmult_le_compat_l; lra).
    assert (A2 : (0 <= (1 - w) * (ln M + (1 - M) / M))%R)
      by (apply Rmult_le_pos; lra).
    lra. }
  assert (HuM : (u <= M)%R).
  { destruct (Rle_or_lt u M) as [H | H]; [exact H |].
    apply ln_increasing in H; [lra | exact HM]. }
  unfold M, w in HuM.
  assert (Hd : (a * u <= a * (1 + 1 / a * (X - 1)))%R)
    by (apply Rmult_le_compat_l; lra).
  replace (a * (1 + 1 / a * (X - 1)))%R with (a + X - 1)%R in Hd
    by (field; lra).
  lra.
Qed.

Lemma Rpower_pred (x a : R) :
  (0 < x)%R -> (x * Rpower x (a - 1) = Rpower x a)%R.
Proof.
  intros Hx. rewrite <- (Rpower_1 x Hx) at 1. rewrite <- Rpower_plus.
  f_equal. ring.
Qed.

(** A power with exponent [a >= 1] lies above its tangents. *)
Lemma Rpower_tangent (a x y : R) :
  (1 <= a)%R -> (0 < x)%R -> (0 < y)%R ->
  (Rpower x a + a * Rpower x (a - 1) * (y - x) <= Rpower y a)%R.
Proof.
  intros Ha Hx Hy.
  assert (Hq : (0 < y / x)%R) by (apply Rdiv_lt_0_compat; assumption).
  pose proof (Rpower_bernoulli a (y / x) Ha Hq) as HB.
  assert (HP : (0 < Rpower x a)%R) by apply exp_pos.
  replace (Rpower y a) with (Rpower x a * Rpower (y / x) a)%R.
  2:{ rewrite Rpower_mult_distr by assumption. f_equal. field. lra. }
  assert (E : (a * Rpower x (a - 1) * (y - x)
               = Rpower x a * (a * (y / x - 1)))%R).
  { rewrite <- (Rpower_pred x a Hx). field. lra. }
  rewrite E.
  replace (Rpower x a + Rpower x a * (a * (y / x - 1)))%R
    with (Rpower x a * (1 + a * (y / x - 1)))%R by ring.
  apply Rmult_le_compat_l; lra.
Qed.

Lemma npow_of_positive (b e : R) :
  (0 < b)%R -> npow (Fin b) (Fin e) = Fin (Rpower b e).
Proof.
  intros Hb. destruct (Req_dec_T e 0) as [-> | He].
  - cbn [npow]. rewrite Reqb_refl. rewrite Rpower_O by exact Hb. reflexivity.
  - apply npow_positive; assumption.
Qed.

Lemma newton_f_finite (a ex ey x : R) :
  (0 < a < PI / 2)%R -> (0 < x)%R ->
  newton_f (Fin a) (new_Point (Fin ex) (Fin ey)) (Fin x)
  = Fin (residual (tan a) ex ey x).
Proof.
  intros Ha Hx. destruct (ntan_open a Ha) as [Ht Htp].
  unfold newton_f, residual. cbn [x_of y_of]. rewrite Ht. cbn [nmul].
  rewrite !npow_of_positive by (try apply Rmult_lt_0_compat; assumption).
  unfold of_Z. cbn [nsub nneg nadd]. apply Fin_eq. ring.
Qed.

Lemma newton_df_finite (a ex ey x : R) :
  (0 < a < PI / 2)%R -> (0 < x)%R ->
  newton_df (Fin a) (new_Point (Fin ex) (Fin ey)) (Fin x)
  = Fin (slope (tan a) ex ey x).
Proof.
  intros Ha Hx. destruct (ntan_open a Ha) as [Ht Htp].
  unfold newton_df, slope. cbn [x_of y_of]. rewrite Ht.
  unfold of_Z. cbn [nsub nneg nadd].
  rewrite !npow_of_positive by assumption. cbn [nmul nadd].
  apply Fin_eq. unfold Rminus. reflexivity.
Qed.

(** One pass of the loop from a point on or right of the root stays
    there and does not move right. *)
Lemma newton_step_invariant (t ex ey x : R) :
  (0 < t)%R -> (1 <= ex)%R -> (1 <= ey)%R ->
  (0 < x)%R -> (0 <= residual t ex ey x)%R ->
  let x' := (x - residual t ex ey x / slope t ex ey x)%R in
  (0 < slope t ex ey x)%R /\ (0 < x' <= x)%R
  /\ (0 <= residual t ex ey x')%R.
Proof.
  intros Ht Hex Hey Hx Hres x'.
  assert (HA : (0 < Rpower x ex)%R) by apply exp_pos.
  assert (HB : (0 < Rpower x ey)%R) by apply exp_pos.
  assert (HT : (0 < Rpower t ey)%R) by apply exp_pos.
  assert (HA' : (0 < Rpower x (ex - 1))%R) by apply exp_pos.
  assert (HB' : (0 < Rpower x (ey - 1))%R) by apply exp_pos.
  assert (Hd : (0 < slope t ex ey x)%R).
  { unfold slope. apply Rplus_lt_0_compat.
    - apply Rmult_lt_0_compat; lra.
    - repeat apply Rmult_lt_0_compat; lra. }
  assert (Hxd : (x * slope t ex ey x
                 = ex * Rpower x ex + ey * (Rpower t ey * Rpower x ey))%R).
  { unfold slope. rewrite <- (Rpower_pred x ex Hx), <- (Rpower_pred x ey Hx).
    ring. }
  assert (Hf : (residual t ex ey x
                = Rpower x ex + Rpower t ey * Rpower x ey - 1)%R).
  { unfold residual. rewrite <- Rpower_mult_distr by assumption. reflexivity. }
  assert (Hq : (0 <= residual t ex ey x / slope t ex ey x)%R).
  { apply Rmult_le_pos; [exact Hres |]. left. apply Rinv_0_lt_compat.
    exact Hd. }
  assert (Hlt : (residual t ex ey x < x * slope t ex ey x)%R).
  { rewrite Hxd, Hf.
    assert (P1 : (Rpower x ex <= ex * Rpower x ex)%R) by nra.
    assert (P2 : (Rpower t ey * Rpower x ey
                  <= ey * (Rpower t ey * Rpower x ey))%R).
    { assert (0 < Rpower t ey * Rpower x ey)%R
        by (apply Rmult_lt_0_compat; assumption). nra. }
    lra. }
  assert (Hx' : (0 < x')%R).
  { unfold x'. apply Rmult_lt_reg_r with (slope t ex ey x); [exact Hd |].
    replace ((x - residual t ex ey x / slope t ex ey x)
             * slope t ex ey x)%R
      with (x * slope t ex ey x - residual t ex ey x)%R by (field; lra).
    lra. }
  split; [exact Hd |]. split; [split; [exact Hx' | unfold x'; lra] |].
  pose proof (Rpower_tangent ex x x' Hex Hx Hx') as T1.
  pose proof (Rpower_tangent ey x x' Hey Hx Hx') as T2.
  assert (T3 : (Rpower t ey * (Rpower x ey
                               + ey * Rpower x (ey - 1) * (x' - x))
                <= Rpower t ey * Rpower x' ey)%R)
    by (apply Rmult_le_compat_l; lra).
  assert (Hf' : (residual t ex ey x'
                 = Rpower x' ex + Rpower t ey * Rpower x' ey - 1)%R).
  { unfold residual. rewrite <- Rpower_mult_distr by assumption.
    reflexivity. }
  assert (Hz : (residual t ex ey x + slope t ex ey x * (x' - x) = 0)%R)
    by (unfold x'; field; lra).
  rewrite Hf'. rewrite Hf in Hz. unfold slope in Hz. lra.
Qed.

Lemma newton_step_finite (a ex ey x : R) :
  (0 < a < PI / 2)%R -> (1 <= ex)%R -> (1 <= ey)%R ->
  (0 < x)%R -> (0 <= residual (tan a) ex ey x)%R ->
  newton_step (Fin a) (new_Point (Fin ex) (Fin ey)) (Fin x)
  = Fin (x - residual (tan a) ex ey x / slope (tan a) ex ey x).
Proof.
  intros Ha Hex Hey Hx Hres. destruct (ntan_open a Ha) as [_ Htp].
  destruct (newton_step_invariant (tan a) ex ey x Htp Hex Hey Hx Hres)
    as [Hd _].
  unfold newton_step. rewrite newton_f_finite, newton_df_finite by assumption.
  rewrite Fin_div by lra. cbn [nsub nneg nadd]. apply Fin_eq. ring.
Qed.

Lemma newton_iterates (a ex ey : R) (n : nat) :
  (0 < a < PI / 2)%R -> (1 <= ex)%R -> (1 <= ey)%R ->
  exists x,
    Nat.iter n (newton_step (Fin a) (new_Point (Fin ex) (Fin ey))) (of_Z 1)
    = Fin x
    /\ (0 < x <= 1)%R /\ (0 <= residual (tan a) ex ey x)%R.
Proof.
  intros Ha Hex Hey. destruct (ntan_open a Ha) as [_ Htp].
  induction n as [| n [x [Hx [Hb Hres]]]].
  - exists 1%R. split; [reflexivity |]. split; [lra |].
    unfold residual. rewrite Rpower_one, Rmult_1_r.
    pose proof (exp_pos (ey * ln (tan a))) as H. unfold Rpower. lra.
  - cbn [Nat.iter nat_rect].
    fold (Nat.iter n (newton_step (Fin a) (new_Point (Fin ex) (Fin ey)))
            (of_Z 1)).
    rewrite Hx.
    destruct (newton_step_invariant (tan a) ex ey x Htp Hex Hey
                (proj1 Hb) Hres) as [_ [Hx' Hres']].
    rewrite newton_step_finite by (assumption || lra).
    eexists. split; [reflexivity |]. split; [lra | exact Hres'].
Qed.

(** X16.  On [0 <= angle < pi/2] with finite exponents [>= 1] the anisotropic
    cosine is a finite value in (0, 1] at which the residual
    [x^ex + (tan(angle) x)^ey - 1] of the solve is not negative: the five
    passes from [x = 1] never cross the root, so the value is on or beyond
    the curve along its ray. *)
Theorem newton_cosine_not_below_root (k : nat) (a ex ey : R) :
  (0 <= a < PI / 2)%R -> (1 <= ex)%R -> (1 <= ey)%R ->
  exists c res,
    hybridial_squircular_cos (S k) (Fin a) (new_Point (Fin ex) (Fin ey))
    = Some (Fin c)
    /\ (0 < c <= 1)%R
    /\ newton_f (Fin a) (new_Point (Fin ex) (Fin ey)) (Fin c) = Fin res
    /\ (0 <= res)%R.
Proof.
  intros Ha Hex Hey. rewrite hybridial_cos_q1 by lra. unfold newton_cos.
  destruct (Req_dec_T a 0) as [-> | Hne].
  - change (Fin 0) with (of_Z 0).
    rewrite newton_fixed_point_on_axis by lra. cbn [isNaN].
    exists 1%R, 0%R. split; [reflexivity |]. split; [lra |].
    split; [| lra]. unfold newton_f. cbn [x_of y_of]. rewrite ntan_zero.
    cbn [nmul]. rewrite npow_one_finite.
    replace (Fin (0 * 1)) with (Fin 0) by (apply Fin_eq; ring).
    rewrite npow_zero
      by (unfold of_Z; cbn [nlt]; apply Rltb_true; lra).
    unfold of_Z. cbn [nsub nneg nadd]. apply Fin_eq. ring.
  - assert (Ha' : (0 < a < PI / 2)%R) by lra.
    destruct (newton_iterates a ex ey 5 Ha' Hex Hey) as [x [Hx [Hb Hres]]].
    rewrite Hx. cbn [isNaN].
    exists x, (residual (tan a) ex ey x). split; [reflexivity |].
    split; [exact Hb |]. split; [| exact Hres].
    apply newton_f_finite; lra.
Qed.

Lemma newton_cosine_not_below_root_witness :
  (0 <= 1 < PI / 2)%R /\ (1 <= 2)%R /\ (1 <= 3)%R
  /\ exists c res,
       hybridial_squircular_cos 1 (Fin 1) (new_Point (Fin 2) (Fin 3))
       = Some (Fin c)
       /\ (0 < c <= 1)%R
       /\ newton_f (Fin 1) (new_Point (Fin 2) (Fin 3)) (Fin c) = Fin res
       /\ (0 <= res)%R.
Proof.
  assert (H1 : (0 <= 1 < PI / 2)%R) by (pose proof PI2_3_2; lra).
  assert (H2 : (1 <= 2)%R) by lra.
  assert (H3 : (1 <= 3)%R) by lra.
  split; [exact H1 |]. split; [exact H2 |]. split; [exact H3 |].
  exact (newton_cosine_not_below_root 0 1 2 3 H1 H2 H3).
Defined.


(** ** The angular regime: vertices between the curve and the box *)

Lemma newton_cos_eq (x y : R) (e : Point) :
  x = y -> newton_cos (Fin x) e = newton_cos (Fin y) e.
Proof. intros ->. reflexivity. Qed.

Ltac settle_quadrant :=
  unfold reflect;
  repeat match goal with
         | |- context [Rltb ?x ?y] =>
             first [ rewrite (Rltb_true x y) by lra
                   | rewrite (Rltb_false x y) by lra ]
         end;
  cbn [flipped]; apply f_equal; try apply (f_equal nneg);
  apply newton_cos_eq; lra.

(** Off the axes, the cosine and sine at the angle [pi/2 -+ phi] of a
    sample are, up to sign, the first-quadrant solve at an angle [rho] and,
    with the exponents swapped, at its complement. *)
Lemma hybridial_pair_quadrant (k : nat) (phi : R) (e : Point)
    (clockwise : bool) :
  (0 < phi < 2 * PI)%R ->
  phi <> (PI / 2)%R -> phi <> PI -> phi <> (3 * PI / 2)%R ->
  let a := if clockwise then (PI / 2 - phi)%R else (PI / 2 + phi)%R in
  exists rho nc ns,
    (0 < rho < PI / 2)%R
    /\ hybridial_squircular_cos (6 + k) (Fin a) e
       = Some (flipped nc (newton_cos (Fin rho) e))
    /\ hybridial_squircular_sin (6 + k) (Fin a) e
       = Some (flipped ns (newton_cos (Fin (PI / 2 - rho))
                             (new_Point (y_of e) (x_of e)))).
Proof.
  intros Hphi N1 N2 N3 a. pose proof PI_RGT_0 as Hpi.
  unfold hybridial_squircular_sin. rewrite half_pi, Fin_sub.
  set (e' := new_Point (y_of e) (x_of e)).
  assert (Hsin : hybridial_squircular_cos (6 + k) (Fin (PI / 2 - a)) e'
                 = Some (reflect (fun t => newton_cos (Fin t) e') phi)).
  { unfold a. destruct clockwise.
    - replace (PI / 2 - (PI / 2 - phi))%R with phi by ring.
      change (6 + k)%nat with (4 + (2 + k))%nat.
      apply hybridial_cos_reduced. lra.
    - replace (PI / 2 - (PI / 2 + phi))%R with (- phi)%R by ring.
      change (6 + k)%nat with (5 + (1 + k))%nat.
      rewrite hybridial_cos_negative by lra.
      rewrite Ropp_involutive. reflexivity. }
  rewrite Hsin. clear Hsin.
  assert (Hcos : hybridial_squircular_cos (6 + k) (Fin a) e
                 = Some (if clockwise
                         then if Rltb phi (PI / 2)
                              then newton_cos (Fin (PI / 2 - phi)) e
                              else reflect (fun t => newton_cos (Fin t) e)
                                     (phi - PI / 2)
                         else if Rltb phi (3 * PI / 2)
                              then reflect (fun t => newton_cos (Fin t) e)
                                     (PI / 2 + phi)
                              else newton_cos (Fin (phi - 3 * PI / 2)) e)).
  { unfold a. destruct clockwise.
    - destruct (Rlt_dec phi (PI / 2)) as [H | H].
      + rewrite (Rltb_true _ _ H). apply hybridial_cos_q1. lra.
      + rewrite Rltb_false by lra.
        change (6 + k)%nat with (5 + (1 + k))%nat.
        rewrite hybridial_cos_negative by lra.
        do 2 f_equal. ring.
    - destruct (Rlt_dec phi (3 * PI / 2)) as [H | H].
      + rewrite (Rltb_true _ _ H).
        change (6 + k)%nat with (4 + (2 + k))%nat.
        apply hybridial_cos_reduced. lra.
      + rewrite Rltb_false by lra.
        rewrite hybridial_cos_beyond by lra.
        f_equal. apply newton_cos_eq. lra. }
  rewrite Hcos. clear Hcos. unfold a. clear a.
  destruct (Rlt_dec phi (PI / 2)) as [H1 | H1].
  { exists (PI / 2 - phi)%R.
    destruct clockwise; [exists false, false | exists true, false];
      (split; [lra |]); split; settle_quadrant. }
  destruct (Rlt_dec phi PI) as [H2 | H2].
  { exists (phi - PI / 2)%R.
    destruct clockwise; [exists false, true | exists true, true];
      (split; [lra |]); split; settle_quadrant. }
  destruct (Rlt_dec phi (3 * PI / 2)) as [H3 | H3].
  { exists (3 * PI / 2 - phi)%R.
    destruct clockwise; [exists true, true | exists false, true];
      (split; [lra |]); split; settle_quadrant. }
  exists (phi - 3 * PI / 2)%R.
  destruct clockwise; [exists true, false | exists false, false];
    (split; [lra |]); split; settle_quadrant.
Qed.

(** In the open first quadrant the solve for the cosine and the solve for
    the sine give a point of the unit square that is not inside the unit
    superellipse. *)
Lemma newton_pair_not_inside (rho ex ey : R) :
  (0 < rho < PI / 2)%R -> (1 <= ex)%R -> (1 <= ey)%R ->
  exists c s,
    newton_cos (Fin rho) (new_Point (Fin ex) (Fin ey)) = Fin c
    /\ newton_cos (Fin (PI / 2 - rho)) (new_Point (Fin ey) (Fin ex)) = Fin s
    /\ (0 < c <= 1)%R /\ (0 < s <= 1)%R
    /\ (1 <= Rpower c ex + Rpower s ey)%R.
Proof.
  intros Hr Hex Hey.
  assert (Hr' : (0 < PI / 2 - rho < PI / 2)%R) by lra.
  destruct (newton_iterates rho ex ey 5 Hr Hex Hey) as [c [Hc [Hcb Hcr]]].
  destruct (newton_iterates (PI / 2 - rho) ey ex 5 Hr' Hey Hex)
    as [s [Hs [Hsb Hsr]]].
  exists c, s. unfold newton_cos. rewrite Hc, Hs. cbn [isNaN].
  split; [reflexivity |]. split; [reflexivity |].
  split; [exact Hcb |]. split; [exact Hsb |].
  destruct (ntan_open rho Hr) as [_ Ht].
  rewrite tan_complement in Hsr by exact Hr.
  unfold residual in Hcr, Hsr.
  set (t := tan rho) in *.
  assert (Hti : (0 < / t)%R) by (apply Rinv_0_lt_compat; exact Ht).
  destruct (Rle_or_lt (t * c) s) as [H | H].
  - assert (M : (Rpower (t * c) ey <= Rpower s ey)%R).
    { apply Rle_Rpower_l; [lra |]. split; [| exact H].
      apply Rmult_lt_0_compat; lra. }
    lra.
  - assert (Hlt : (/ t * s <= c)%R).
    { apply Rmult_le_reg_l with t; [exact Ht |].
      replace (t * (/ t * s))%R with s by (field; lra). lra. }
    assert (M : (Rpower (/ t * s) ex <= Rpower c ex)%R).
    { apply Rle_Rpower_l; [lra |]. split; [| exact Hlt].
      apply Rmult_lt_0_compat; lra. }
    lra.
Qed.

Lemma placed_not_inside (sx sy cx cy r u v ex ey l : R) :
  sx <> 0%R -> sy <> 0%R ->
  (Rabs u <= 1)%R -> (Rabs v <= 1)%R ->
  npow (Fin (Rabs u)) (Fin ex) + npow (Fin (Rabs v)) (Fin ey) = Fin l ->
  (1 <= l)%R ->
  let p := placed (new_Point (Fin cx) (Fin cy)) (Fin r)
             (new_Point (Fin (sx / 2 * u)) (Fin (sy / 2 * v))) in
  within_box (new_Point (Fin sx) (Fin sy)) (new_Point (Fin cx) (Fin cy))
    (Fin r) p
  /\ not_inside_superellipse (new_Point (Fin sx) (Fin sy))
       (new_Point (Fin ex) (Fin ey)) (new_Point (Fin cx) (Fin cy)) (Fin r) p.
Proof.
  intros Hsx Hsy Hu Hv Hl Hone p. unfold p, within_box, not_inside_superellipse.
  rewrite (unplaced_placed_finite _ _ cx cy r).
  assert (Hb : forall s w : R,
             (Rabs w <= 1)%R ->
             nge (nabs (Fin s)) (nabs (of_Z 2 * Fin (s / 2 * w))) = true).
  { intros s w Hw. unfold of_Z. cbn [nmul nabs nge nlt].
    rewrite Rltb_false; [reflexivity |].
    replace (2 * (s / 2 * w))%R with (s * w)%R by field.
    rewrite Rabs_mult. pose proof (Rabs_pos s). nra. }
  cbn [x_of y_of]. split; [split; apply Hb; assumption |].
  unfold superellipse_lhs. cbn [x_of y_of]. unfold of_Z. cbn [nmul].
  rewrite !Fin_div by assumption. cbn [nabs].
  replace (2 * (sx / 2 * u) / sx)%R with u by (field; assumption).
  replace (2 * (sy / 2 * v) / sy)%R with v by (field; assumption).
  rewrite Hl. cbn [nge nlt]. rewrite Rltb_false by exact Hone. reflexivity.
Qed.

Lemma on_superellipse_not_inside (sx sy cx cy r u v ex ey : R) :
  sx <> 0%R -> sy <> 0%R ->
  (Rabs u <= 1)%R -> (Rabs v <= 1)%R ->
  npow (Fin (Rabs u)) (Fin ex) + npow (Fin (Rabs v)) (Fin ey) = Fin 1 ->
  let p := placed (new_Point (Fin cx) (Fin cy)) (Fin r)
             (new_Point (Fin (sx / 2 * u)) (Fin (sy / 2 * v))) in
  within_box (new_Point (Fin sx) (Fin sy)) (new_Point (Fin cx) (Fin cy))
    (Fin r) p
  /\ not_inside_superellipse (new_Point (Fin sx) (Fin sy))
       (new_Point (Fin ex) (Fin ey)) (new_Point (Fin cx) (Fin cy)) (Fin r) p.
Proof.
  intros Hsx Hsy Hu Hv H. apply (placed_not_inside sx sy cx cy r u v ex ey 1);
    (assumption || lra).
Qed.

Lemma flipped_finite (b : bool) (x : R) :
  flipped b (Fin x) = Fin (flippedR b x).
Proof. destruct b; reflexivity. Qed.

Lemma Rabs_flippedR (b : bool) (x : R) : Rabs (flippedR b x) = Rabs x.
Proof. destruct b; cbn [flippedR]; [apply Rabs_Ropp | reflexivity]. Qed.

(** The sample angles of an odd accuracy miss the axes. *)
Lemma odd_accuracy_off_axes (accuracy i : Z) :
  Z.odd accuracy = true -> (0 < i < accuracy)%Z ->
  let phi := (IZR i * (2 * PI / IZR accuracy))%R in
  (0 < phi < 2 * PI)%R
  /\ phi <> (PI / 2)%R /\ phi <> PI /\ phi <> (3 * PI / 2)%R.
Proof.
  intros Hodd Hi phi. pose proof PI_RGT_0 as Hpi.
  assert (HA : (0 < IZR accuracy)%R) by (apply IZR_lt; lia).
  assert (HI : (0 < IZR i < IZR accuracy)%R)
    by (split; apply IZR_lt; lia).
  assert (Hphi : (phi * IZR accuracy = IZR i * (2 * PI))%R)
    by (unfold phi; field; lra).
  assert (Hno : forall m : Z,
             (1 <= m <= 3)%Z -> (4 * i <> m * accuracy)%Z).
  { intros m Hm E. rewrite Z.odd_spec in Hodd. destruct Hodd as [q Hq].
    assert (Hc : m = 1%Z \/ m = 2%Z \/ m = 3%Z) by lia.
    destruct Hc as [-> | [-> | ->]]; lia. }
  assert (Hax : forall m : Z,
             (1 <= m <= 3)%Z -> phi <> (IZR m * (PI / 2))%R).
  { intros m Hm E. apply (Hno m Hm). apply eq_IZR.
    rewrite !mult_IZR.
    assert (E2 : (phi * IZR accuracy
                  = IZR m * (PI / 2) * IZR accuracy)%R) by (rewrite E; ring).
    rewrite Hphi in E2.
    apply Rmult_eq_reg_r with (PI / 2)%R; [| lra]. lra. }
  split.
  - split.
    + unfold phi. apply Rmult_lt_0_compat; [lra |].
      apply Rdiv_lt_0_compat; lra.
    + apply Rmult_lt_reg_r with (IZR accuracy); [lra |]. rewrite Hphi. nra.
  - pose proof (Hax 1%Z ltac:(lia)) as A1.
    pose proof (Hax 2%Z ltac:(lia)) as A2.
    pose proof (Hax 3%Z ltac:(lia)) as A3. repeat split; lra.
Qed.

Lemma hybridial_sample_not_inside (k : nat) (accuracy : Z)
    (ex ey sx sy cx cy r : R) (clockwise : bool) (i : Z) (p : Point) :
  (1 <= ex)%R -> (1 <= ey)%R -> sx <> 0%R -> sy <> 0%R ->
  Z.odd accuracy = true -> (0 < i < accuracy)%Z ->
  hybridial_sample (6 + k) accuracy (new_Point (Fin ex) (Fin ey))
    (new_Point (Fin sx) (Fin sy)) (new_Point (Fin cx) (Fin cy)) (Fin r)
    clockwise i = Some p ->
  within_box (new_Point (Fin sx) (Fin sy)) (new_Point (Fin cx) (Fin cy))
    (Fin r) p
  /\ not_inside_superellipse (new_Point (Fin sx) (Fin sy))
       (new_Point (Fin ex) (Fin ey)) (new_Point (Fin cx) (Fin cy)) (Fin r) p.
Proof.
  intros Hex Hey Hsx Hsy Hodd Hi. unfold hybridial_sample.
  rewrite sample_angle_finite by lia.
  destruct (odd_accuracy_off_axes accuracy i Hodd Hi) as [Hphi [N1 [N2 N3]]].
  destruct (hybridial_pair_quadrant k _ (new_Point (Fin ex) (Fin ey))
              clockwise Hphi N1 N2 N3) as [rho [nc [ns [Hrho [Hc Hs]]]]].
  cbn [x_of y_of] in Hs.
  destruct (newton_pair_not_inside rho ex ey Hrho Hex Hey)
    as [c [s [Ec [Es [Hcb [Hsb Hsum]]]]]].
  rewrite Ec in Hc. rewrite Es in Hs. rewrite flipped_finite in Hc, Hs.
  rewrite Hc, Hs. intros H. apply some_eq in H. subst p.
  cbn [x_of y_of nneg]. rewrite !half_finite. cbn [nmul].
  apply (placed_not_inside sx sy cx cy r (flippedR nc c) (- flippedR ns s)
           ex ey (Rpower c ex + Rpower s ey)); try assumption.
  - rewrite Rabs_flippedR. rewrite Rabs_pos_eq; lra.
  - rewrite Rabs_Ropp, Rabs_flippedR. rewrite Rabs_pos_eq; lra.
  - rewrite Rabs_Ropp, !Rabs_flippedR.
    rewrite (Rabs_pos_eq c), (Rabs_pos_eq s) by lra.
    rewrite !npow_of_positive by lra. reflexivity.
Qed.

Lemma mapM_forall_in {A B : Type} (f : A -> option B) (P : B -> Prop)
    (l : list A) (bs : list B) :
  (forall a b, In a l -> f a = Some b -> P b) ->
  mapM f l = Some bs -> forall b, In b bs -> P b.
Proof.
  revert bs. induction l as [| a rest IH]; intros bs Hf H b Hb.
  - apply some_eq in H. subst bs. contradiction.
  - cbn [mapM] in H. destruct (f a) as [b0 |] eqn:E; [| discriminate H].
    destruct (mapM f rest) as [bs0 |]; [| discriminate H].
    apply some_eq in H. subst bs. destruct Hb as [<- | Hb].
    + apply (Hf a); [left; reflexivity | exact E].
    + apply (IH bs0); [| reflexivity | exact Hb].
      intros a' b' Ha'. apply Hf. right. exact Ha'.
Qed.

Lemma sample_index_bounds (accuracy i : Z) :
  In i (map (fun k => (1 + Z.of_nat k)%Z) (seq 0 (Z.to_nat accuracy - 1))) ->
  (0 < i < accuracy)%Z.
Proof.
  intros H. apply in_map_iff in H. destruct H as [j [Hj Hin]].
  apply in_seq in Hin. lia.
Qed.

(** X17.  In the angular regime (finite exponents [>= 1.5], not equal) with an
    odd accuracy, a box with non-zero finite sides and a finite centre and
    rotation, every vertex of the path lies within the box and is not
    inside the superellipse [|2x/size.x|^ex + |2y/size.y|^ey = 1]: the
    solve stops on or beyond the curve, never inside it. *)
Theorem angular_vertices_between_curve_and_box (k : nat) (accuracy : Z)
    (ex ey sx sy cx cy r : R) (clockwise : bool) :
  (1.5 <= ex)%R -> (1.5 <= ey)%R -> ex <> ey ->
  sx <> 0%R -> sy <> 0%R -> Z.odd accuracy = true ->
  exists l,
    squirc_vertices (6 + k) accuracy (Pair (new_Point (Fin ex) (Fin ey)))
      (new_Point (Fin sx) (Fin sy)) (new_Point (Fin cx) (Fin cy)) (Fin r)
      clockwise = Some l
    /\ forall p, In p l ->
         within_box (new_Point (Fin sx) (Fin sy))
           (new_Point (Fin cx) (Fin cy)) (Fin r) p
         /\ not_inside_superellipse (new_Point (Fin sx) (Fin sy))
              (new_Point (Fin ex) (Fin ey)) (new_Point (Fin cx) (Fin cy))
              (Fin r) p.
Proof.
  intros Hex Hey Hne Hsx Hsy Hodd.
  unfold squirc_vertices, collapse. cbn [x_of y_of neq].
  rewrite Reqb_false by exact Hne.
  destruct (hybridial_points_total k accuracy (new_Point (Fin ex) (Fin ey))
              (new_Point (Fin sx) (Fin sy)) (new_Point (Fin cx) (Fin cy))
              (Fin r) clockwise) as [pts Hp].
  rewrite Hp, start_anchor. cbn [option_map].
  eexists. split; [reflexivity |]. intros p [<- | Hin].
  - unfold top_mid. cbn [x_of y_of nneg]. rewrite half_finite.
    change (of_Z 0) with (Fin 0).
    replace (Fin 0) with (Fin (sx / 2 * 0)) by (apply Fin_eq; lra).
    replace (Fin (- sy / 2)) with (Fin (sy / 2 * -1))
      by (apply Fin_eq; lra).
    destruct (axis_power ex) as [X0 _]; [lra |].
    destruct (axis_power ey) as [_ [_ Ym]]; [lra |].
    apply on_superellipse_not_inside; try assumption.
    + rewrite Rabs_R0. lra.
    + rewrite <- (Rabs_Ropp (-1)). replace (- -1)%R with 1%R by lra.
      rewrite Rabs_R1. lra.
    + rewrite X0, Ym. cbn [nadd]. apply Fin_eq. lra.
  - unfold hybridial_points in Hp. cbn [x_of y_of] in Hp.
    assert (Hx : nge (Fin ex) (Fin 1.5) = true)
      by (cbn [nge nlt]; rewrite Rltb_false by lra; reflexivity).
    assert (Hy : nge (Fin ey) (Fin 1.5) = true)
      by (cbn [nge nlt]; rewrite Rltb_false by lra; reflexivity).
    rewrite Hx, Hy in Hp. cbn [andb] in Hp. rewrite sample_indices in Hp.
    apply (mapM_forall_in _ _ _ _
             (fun i q Hi => hybridial_sample_not_inside k accuracy ex ey sx sy
                              cx cy r clockwise i q ltac:(lra) ltac:(lra)
                              Hsx Hsy Hodd (sample_index_bounds _ _ Hi))
             Hp p Hin).
Qed.

Lemma angular_vertices_between_curve_and_box_witness :
  (1.5 <= 2)%R /\ (1.5 <= 3)%R /\ 2%R <> 3%R /\ 20%R <> 0%R /\ 10%R <> 0%R
  /\ Z.odd default_accuracy = true
  /\ exists l,
       squirc_vertices 6 default_accuracy
         (Pair (new_Point (Fin 2) (Fin 3)))
         (new_Point (Fin 20) (Fin 10)) (new_Point (Fin 10) (Fin 5)) (Fin 0)
         true = Some l
       /\ forall p, In p l ->
            within_box (new_Point (Fin 20) (Fin 10))
              (new_Point (Fin 10) (Fin 5)) (Fin 0) p
            /\ not_inside_superellipse (new_Point (Fin 20) (Fin 10))
                 (new_Point (Fin 2) (Fin 3)) (new_Point (Fin 10) (Fin 5))
                 (Fin 0) p.
Proof.
  assert (H1 : (1.5 <= 2)%R) by lra.
  assert (H2 : (1.5 <= 3)%R) by lra.
  assert (H3 : 2%R <> 3%R) by lra.
  assert (H4 : 20%R <> 0%R) by lra.
  assert (H5 : 10%R <> 0%R) by lra.
  assert (H6 : Z.odd default_accuracy = true) by reflexivity.
  split; [exact H1 |]. split; [exact H2 |]. split; [exact H3 |].
  split; [exact H4 |]. split; [exact H5 |]. split; [exact H6 |].
  exact (angular_vertices_between_curve_and_box 0 default_accuracy 2 3
           20 10 10 5 0 true H1 H2 H3 H4 H5 H6).
Defined.
